(** * A shallow embedding of [src/tokenize.js] (protobuf.js)

    The tokenizer is a closure over one source string and a handful of
    mutable variables.  It is embedded here as explicit state passing over a
    record of those variables.  JavaScript strings are sequences of 16-bit
    code units; a code unit is a number of type [N] and a string a list of
    them.  The regular expressions of the source are kept as syntax trees and
    run by a backtracking matcher that follows the ECMAScript evaluation
    order (leftmost start position, greedy quantifiers). *)

From Stdlib Require Import String Ascii List NArith ZArith Bool Lia Arith.
Import ListNotations.


(** ** Strings *)

Definition char := N.
Definition str := list char.

(** [js s] is the JavaScript string with the bytes of [s] as code units. *)
Definition js (s : string) : str := map N_of_ascii (list_ascii_of_string s).

Definition NUL : char := 0%N.
Definition TAB : char := 9%N.
Definition LF : char := 10%N.
Definition CR : char := 13%N.
Definition SP : char := 32%N.
Definition DQUOTE : char := 34%N.
Definition SQUOTE : char := 39%N.
Definition STAR : char := 42%N.
Definition SLASH : char := 47%N.
Definition BACKSLASH : char := 92%N.

Definition char_in (l : list char) (c : char) : bool := existsb (N.eqb c) l.

Fixpoint str_eqb (a b : str) : bool :=
  match a, b with
  | [], [] => true
  | x :: a', y :: b' => N.eqb x y && str_eqb a' b'
  | _, _ => false
  end.

(** ECMAScript LineTerminator: LF, CR, U+2028, U+2029. *)
Definition is_line_terminator (c : char) : bool :=
  char_in [10; 13; 8232; 8233]%N c.

(** ECMAScript [\s] (WhiteSpace and LineTerminator): TAB, LF, VT, FF, CR,
    SP, NBSP, U+1680, U+2000 to U+200A, U+2028, U+2029, U+202F, U+205F,
    U+3000 and U+FEFF. *)
Definition is_space (c : char) : bool :=
  char_in [9; 10; 11; 12; 13; 32; 160; 5760; 8232; 8233; 8239; 8287;
           12288; 65279]%N c
  || ((8192 <=? c)%N && (c <=? 8202)%N).

(** [s.charAt(pos)]: the one-character string at [pos], or the empty string
    out of range. *)
Definition charAt (s : str) (pos : nat) : str :=
  match nth_error s pos with
  | Some c => [c]
  | None => []
  end.

(** [s.substring(a, b)]: both indices are clamped to the length and swapped
    when [a > b]. *)
Definition substring (s : str) (a b : nat) : str :=
  let lo := Nat.min (Nat.min a b) (length s) in
  let hi := Nat.min (Nat.max a b) (length s) in
  firstn (hi - lo) (skipn lo s).

(** [s.trim()]: strips [\s] characters at both ends. *)
Fixpoint trim_start (s : str) : str :=
  match s with
  | c :: s' => if is_space c then trim_start s' else s
  | [] => []
  end.

Definition trim (s : str) : str := rev (trim_start (rev (trim_start s))).

(** [l.join(sep)]. *)
Fixpoint join (sep : str) (l : list str) : str :=
  match l with
  | [] => []
  | [x] => x
  | x :: l' => x ++ sep ++ join sep l'
  end.

(** ** Regular expressions *)

Module Regex.

(** The constructs the five expressions of the source use.  [Chr p] is any
    one-character atom (a literal, a class, [\s] or the dot), [Bol] is [^]
    without the multiline flag, [Star] and [Opt] are the greedy [*] and
    [?], [Group] is the capturing group number 1 (no expression of the
    source has a second one). *)
Inductive regex : Type :=
| Eps
| Chr (p : char -> bool)
| Bol
| Seq (r1 r2 : regex)
| Star (r : regex)
| Opt (r : regex)
| Group (r : regex).

Definition Lit (c : char) : regex := Chr (N.eqb c).
Definition OneOf (l : list char) : regex := Chr (char_in l).
Definition NoneOf (l : list char) : regex := Chr (fun c => negb (char_in l c)).
Definition Dot : regex := Chr (fun c => negb (is_line_terminator c)).
Definition Plus (r : regex) : regex := Seq r (Star r).

(** A match result: the end index and the text of group 1 ([None] when the
    group took no part in the match). *)
Definition result := (nat * option str)%type.
Definition cont := nat -> str -> option str -> option result.

(** [rmatch r i s cap k] matches [r] at index [i], where [s] is the
    subject from [i] on, and hands the continuation [k] the position it
    stopped at.  A failing continuation makes the matcher back off to its
    next alternative, the longest first.  As in the ECMAScript
    RepeatMatcher an iteration of [*] that consumes nothing is refused, so
    the iterations are bounded by the length of [s]: the counter of the
    inner loop starts above it and any greater start gives the same result
    (lemma [star_loop_bound]). *)
Fixpoint rmatch (r : regex) (i : nat) (s : str) (cap : option str)
         (k : cont) {struct r} : option result :=
  match r with
  | Eps => k i s cap
  | Chr p =>
      match s with
      | c :: s' => if p c then k (S i) s' cap else None
      | [] => None
      end
  | Bol => if Nat.eqb i 0 then k i s cap else None
  | Seq r1 r2 =>
      rmatch r1 i s cap (fun i' s' cap' => rmatch r2 i' s' cap' k)
  | Opt r1 =>
      match rmatch r1 i s cap
              (fun i' s' cap' => if Nat.eqb i' i then None else k i' s' cap')
      with
      | Some res => Some res
      | None => k i s cap
      end
  | Star r1 =>
      (fix loop (n : nat) (i : nat) (s : str) (cap : option str)
         : option result :=
         match n with
         | O => k i s cap
         | S n' =>
             match rmatch r1 i s cap
                     (fun i' s' cap' =>
                        if Nat.eqb i' i then None else loop n' i' s' cap')
             with
             | Some res => Some res
             | None => k i s cap
             end
         end) (S (length s)) i s cap
  | Group r1 =>
      rmatch r1 i s cap (fun i' s' _ => k i' s' (Some (firstn (i' - i) s)))
  end.

(** The loop of [Star r1] on its own, for reasoning: [rmatch (Star r1) i s
    cap k] is [star_loop r1 k (S (length s)) i s cap]. *)
Definition star_loop (r1 : regex) (k : cont)
  : nat -> nat -> str -> option str -> option result :=
  fix loop (n : nat) (i : nat) (s : str) (cap : option str)
    : option result :=
    match n with
    | O => k i s cap
    | S n' =>
        match rmatch r1 i s cap
                (fun i' s' cap' =>
                   if Nat.eqb i' i then None else loop n' i' s' cap')
        with
        | Some res => Some res
        | None => k i s cap
        end
    end.

Definition match_at (r : regex) (i : nat) (s : str) : option result :=
  rmatch r i s None (fun i' _ cap => Some (i', cap)).

(** The search of [exec]: the first start index, from [i] on and up to the
    end of the subject included, at which the expression matches. *)
Fixpoint search (r : regex) (i : nat) (s : str)
  : option (nat * nat * option str) :=
  match match_at r i s with
  | Some (e, cap) => Some (i, e, cap)
  | None =>
      match s with
      | [] => None
      | _ :: s' => search r (S i) s'
      end
  end.

(** [re.exec(subject)] for an expression with the [g] flag whose
    [lastIndex] is [lastIndex]: the match (start, end, group 1) if any, and
    the new [lastIndex] (the end of the match, [0] on failure). *)
Definition exec (r : regex) (lastIndex : nat) (subject : str)
  : option (nat * nat * option str) * nat :=
  if Nat.ltb (length subject) lastIndex then (None, 0)
  else
    match search r lastIndex (skipn lastIndex subject) with
    | Some (b, e, cap) => (Some (b, e, cap), e)
    | None => (None, 0)
    end.

(** [re.test(subject)] with the [g] flag: whether [exec] finds a match,
    and the new [lastIndex]. *)
Definition test_g (r : regex) (lastIndex : nat) (subject : str)
  : bool * nat :=
  match exec r lastIndex subject with
  | (Some _, li) => (true, li)
  | (None, li) => (false, li)
  end.

(** [re.test(subject)] without the [g] flag: the search starts at 0. *)
Definition test (r : regex) (subject : str) : bool :=
  match search r 0 subject with
  | Some _ => true
  | None => false
  end.

(** [subject.replace(re, fn)] with the [g] flag: every match, left to
    right, is replaced by [fn $0 $1]; the text between matches is copied.
    [skip] counts the characters of the current match still to drop; after
    an empty match the search resumes one character further. *)
Fixpoint replace_loop (r : regex) (fn : str -> option str -> str)
         (skip i : nat) (s : str) : str :=
  match skip with
  | S skip' =>
      match s with
      | [] => []
      | _ :: s' => replace_loop r fn skip' (S i) s'
      end
  | O =>
      match match_at r i s with
      | Some (e, cap) =>
          fn (firstn (e - i) s) cap ++
          match s with
          | [] => []
          | c :: s' =>
              if Nat.eqb e i then c :: replace_loop r fn 0 (S i) s'
              else replace_loop r fn (e - i - 1) (S i) s'
          end
      | None =>
          match s with
          | [] => []
          | c :: s' => c :: replace_loop r fn 0 (S i) s'
          end
      end
  end.

Definition replace_g (r : regex) (fn : str -> option str -> str)
           (subject : str) : str :=
  replace_loop r fn 0 0 subject.

(** [subject.replace(re, by)] without the [g] flag: the first match only. *)
Definition replace_first (r : regex) (by_ : str) (subject : str) : str :=
  match search r 0 subject with
  | Some (b, e, _) => firstn b subject ++ by_ ++ skipn e subject
  | None => subject
  end.

(** [subject.split(re)] for an expression that matches exactly one
    character, those satisfying [p]. *)
Fixpoint split_chr (p : char -> bool) (cur : str) (s : str) : list str :=
  match s with
  | [] => [rev cur]
  | c :: s' =>
      if p c then rev cur :: split_chr p [] s'
      else split_chr p (c :: cur) s'
  end.

End Regex.
Import Regex.

(** ** The expressions and tables of the module *)

(** [delimRe]: the class of [\s] and the fifteen characters
    [{ } = ; : [ ] , ' DQUOTE ( ) < >], with the [g] flag. *)
Definition delim_chars : list char :=
  js "{}=;:[],'" ++ [DQUOTE] ++ js "()<>".

Definition delimRe : regex :=
  Chr (fun c => is_space c || char_in delim_chars c).

(** [stringDoubleRe] and [stringSingleRe], with the [g] flag.  With [Q] the
    quote character and [P] the class [[^Q\\]] both read
    [Q ( P* (?: \\ . P* )* ) Q] (spaces added): the quote, group 1, the quote. *)
Definition stringRe (q : char) : regex :=
  Seq (Lit q)
      (Seq (Group (Seq (Star (NoneOf [q; BACKSLASH]))
                       (Star (Seq (Lit BACKSLASH)
                                  (Seq Dot (Star (NoneOf [q; BACKSLASH])))))))
           (Lit q)).

Definition stringDoubleRe : regex := stringRe DQUOTE.
Definition stringSingleRe : regex := stringRe SQUOTE.

(** [/^ *[*/]+ */] *)
Definition setCommentRe : regex :=
  Seq Bol (Seq (Star (Lit SP)) (Seq (Plus (OneOf [STAR; SLASH])) (Star (Lit SP)))).

(** [/\n/g] *)
Definition setCommentSplit (c : char) : bool := N.eqb c LF.

(** [/\s/] *)
Definition whitespaceRe : regex := Chr is_space.

(** [/\\(.?)/g] *)
Definition unescapeRe : regex := Seq (Lit BACKSLASH) (Group (Opt Dot)).

(** [unescapeMap]: the own properties of the object; any other key reads as
    [undefined]. *)
Definition unescapeMap (key : str) : option str :=
  if str_eqb key (js "0") then Some [NUL]
  else if str_eqb key (js "r") then Some [CR]
  else if str_eqb key (js "n") then Some [LF]
  else if str_eqb key (js "t") then Some [TAB]
  else None.

(** The text of group 1, the empty string when the group took no part. *)
Definition group1 (cap : option str) : str :=
  match cap with
  | Some t => t
  | None => []
  end.

(** The callback of [unescape]: [$1] itself for a backslash or the empty
    string, else [unescapeMap[$1] || ""]. *)
Definition unescape_fn (_ : str) (cap : option str) : str :=
  let d1 := group1 cap in
  if str_eqb d1 [BACKSLASH] || str_eqb d1 [] then d1
  else
    match unescapeMap d1 with
    | Some (c :: t) => c :: t
    | _ => []
    end.

Definition unescape (s : str) : str := replace_g unescapeRe unescape_fn s.

(** ** Errors and results *)

(** [illegal(subject)] builds [Error("illegal " + subject + " (line " + line
    + ")")]; the three subjects of the source are kept apart instead of being
    rendered into the message.  [Token actual expected] stands for the
    subject ["token 'actual', 'expected' expected"] of [skip]. *)
Inductive subject : Type :=
| Comment
| String_
| Token (actual : option str) (expected : str).

Inductive error : Type :=
| Illegal (subj : subject) (at_line : Z).

(** What a call does: return a value, throw, or not come back. *)
Inductive outcome (A : Type) : Type :=
| Ret (a : A)
| Throw (e : error)
| Diverge.

Arguments Ret {A} a.
Arguments Throw {A} e.
Arguments Diverge {A}.

(** ** The tokenizer state *)

(** The variables [tokenize] closes over.  [None] is [null]; a token is a
    string. *)
Record state : Type := mkState {
  offset : nat;
  line : Z;
  commentType : option str;
  commentText : option str;
  commentLine : Z;
  stack : list str;
  stringDelim : option str
}.

(** [tokenize(source)]: the initial values of the variables. *)
Definition init : state :=
  {| offset := 0; line := 1; commentType := None; commentText := None;
     commentLine := 0; stack := []; stringDelim := None |}.

Definition set_offset (o : nat) (st : state) : state :=
  {| offset := o; line := line st; commentType := commentType st;
     commentText := commentText st; commentLine := commentLine st;
     stack := stack st; stringDelim := stringDelim st |}.

Definition set_line (l : Z) (st : state) : state :=
  {| offset := offset st; line := l; commentType := commentType st;
     commentText := commentText st; commentLine := commentLine st;
     stack := stack st; stringDelim := stringDelim st |}.

Definition set_comment (ty tx : option str) (ln : Z) (st : state) : state :=
  {| offset := offset st; line := line st; commentType := ty;
     commentText := tx; commentLine := ln;
     stack := stack st; stringDelim := stringDelim st |}.

Definition set_stack (l : list str) (st : state) : state :=
  {| offset := offset st; line := line st; commentType := commentType st;
     commentText := commentText st; commentLine := commentLine st;
     stack := l; stringDelim := stringDelim st |}.

Definition set_stringDelim (d : option str) (st : state) : state :=
  {| offset := offset st; line := line st; commentType := commentType st;
     commentText := commentText st; commentLine := commentLine st;
     stack := stack st; stringDelim := d |}.

(** A computation on the state. *)
Definition M (A : Type) : Type := state -> outcome A * state.

Definition ret {A} (a : A) : M A := fun st => (Ret a, st).
Definition throw {A} (e : error) : M A := fun st => (Throw e, st).

Definition bind {A B} (m : M A) (f : A -> M B) : M B :=
  fun st =>
    match m st with
    | (Ret a, st') => f a st'
    | (Throw e, st') => (Throw e, st')
    | (Diverge, st') => (Diverge, st')
    end.

Notation "x <- m ;; k" := (bind m (fun x => k))
  (at level 61, m at next level, right associativity).

(** JavaScript truthiness of a string-or-null value. *)
Definition truthy (v : option str) : bool :=
  match v with
  | Some (_ :: _) => true
  | _ => false
  end.

(** [a === b] on string-or-null values. *)
Definition opt_str_eqb (a b : option str) : bool :=
  match a, b with
  | Some x, Some y => str_eqb x y
  | None, None => true
  | _, _ => false
  end.

(** [cond && v || null] for a boolean [cond] and a string-or-null [v]. *)
Definition and_or_null (cond : bool) (v : option str) : option str :=
  if cond && truthy v then v else None.

Section Tokenize.

Variable source : str.

(** [illegal(subject)] reads the current line. *)
Definition illegal (subj : subject) (st : state) : error :=
  Illegal subj (line st).

(** [push(token)]: appends to the stack. *)
Definition push (token : str) : M unit :=
  fun st => (Ret tt, set_stack (stack st ++ [token]) st).

(** [readString()].  [delim] is the value of [stringDelim], which the
    caller has tested to be truthy. *)
Definition readString (delim : str) : M (option str) :=
  fun st =>
    let re := if str_eqb delim [SQUOTE] then stringSingleRe
              else stringDoubleRe in
    match exec re (offset st - 1) source with
    | (None, _) => (Throw (illegal String_ st), st)
    | (Some (_, _, m1), lastIndex) =>
        let st1 := set_offset lastIndex st in
        let st2 := snd (push delim st1) in
        let st3 := set_stringDelim None st2 in
        (Ret (Some (unescape (group1 m1))), st3)
    end.

(** [setComment(start, end)]. *)
Definition setComment (start end_ : nat) (st : state) : state :=
  let ty := charAt source start in
  let start' := S start in
  let lines := split_chr setCommentSplit [] (substring source start' end_) in
  let lines' := map (fun l => trim (replace_first setCommentRe [] l)) lines in
  set_comment (Some ty) (Some (trim (join [LF] lines'))) (line st) st.

(** *** The loops of [next]

    The loops walk the source with [charAt(offset)].  They are written
    over a cursor: the index [off] together with [rest], the source from
    [off] on, so that [charAt(off)] is the head of [rest] and
    [off === length] holds exactly when [rest] is empty. *)

(** [while (whitespaceRe.test(curr = charAt(offset))) { if (curr === "\n")
    ++line; if (++offset === length) return null; }] *)
Inductive ws_result : Type :=
| WsEof (off : nat) (ln : Z)
| WsAt (rest : str) (off : nat) (ln : Z).

Fixpoint skip_whitespace (rest : str) (off : nat) (ln : Z) : ws_result :=
  match rest with
  | [] => WsAt [] off ln
  | curr :: rest' =>
      if test whitespaceRe [curr] then
        let ln' := if N.eqb curr LF then (ln + 1)%Z else ln in
        match rest' with
        | [] => WsEof (S off) ln'
        | _ :: _ => skip_whitespace rest' (S off) ln'
        end
      else WsAt rest off ln
  end.

(** [while (charAt(++offset) !== "\n") if (offset === length) return null;]
    entered with [rest] the source from the incremented offset on.  The
    result is the index the loop stopped at and whether a newline is
    there. *)
Fixpoint line_end (rest : str) (off : nat) : bool * nat :=
  match rest with
  | [] => (false, off)
  | c :: rest' =>
      if N.eqb c LF then (true, off) else line_end rest' (S off)
  end.

(** [do { if (curr === "\n") ++line; if (++offset === length) throw ...;
    prev = curr; curr = charAt(offset); } while (prev !== "*" || curr !==
    "/");] with [rest] the source after [curr].  [BlockEnd] carries the
    offset of the closing slash. *)
Inductive block_result : Type :=
| BlockThrow (off : nat) (ln : Z)
| BlockEnd (off : nat) (ln : Z).

Fixpoint block_end (rest : str) (curr : char) (off : nat) (ln : Z)
  : block_result :=
  let ln' := if N.eqb curr LF then (ln + 1)%Z else ln in
  match rest with
  | [] => BlockThrow (S off) ln'
  | c :: rest' =>
      if N.eqb curr STAR && N.eqb c SLASH then BlockEnd (S off) ln'
      else block_end rest' c (S off) ln'
  end.

(** [while (end < length && !delimRe.test(charAt(end))) ++end;] with
    [rest] the source from [end] on and [li] the [lastIndex] of
    [delimRe]. *)
Fixpoint token_end (rest : str) (end_ li : nat) : nat :=
  match rest with
  | [] => end_
  | c :: rest' =>
      let '(d, li') := test_g delimRe li [c] in
      if d then end_ else token_end rest' (S end_) li'
  end.

(** One round of the [do ... while (repeat)] loop. *)
Inductive step_result : Type :=
| StepReturn (v : option str) (st : state)
| StepThrow (e : error) (st : state)
| StepRepeat (st : state)
| StepLeave (st : state).

Definition at_pos (off : nat) (ln : Z) (st : state) : state :=
  set_line ln (set_offset off st).

Definition scan_step (st : state) : step_result :=
  if Nat.eqb (offset st) (length source) then StepReturn None st
  else
    match skip_whitespace (skipn (offset st) source) (offset st) (line st) with
    | WsEof off ln => StepReturn None (at_pos off ln st)
    | WsAt (c :: rest1) off ln =>
        if N.eqb c SLASH then
          match rest1 with
          | [] =>
              let st1 := at_pos (S off) ln st in
              StepThrow (illegal Comment st1) st1
          | d :: rest2 =>
              let off1 := S off in
              if N.eqb d SLASH then
                let start := S off1 in
                let isComment := str_eqb (charAt source start) [SLASH] in
                match line_end rest2 (S off1) with
                | (false, off2) => StepReturn None (at_pos off2 ln st)
                | (true, off2) =>
                    let st1 := at_pos (S off2) ln st in
                    let st2 := if isComment
                               then setComment start (offset st1 - 1) st1
                               else st1 in
                    StepRepeat (set_line (line st2 + 1) st2)
                end
              else if N.eqb d STAR then
                let start := S off1 in
                let isComment := str_eqb (charAt source start) [STAR] in
                match block_end rest2 d off1 ln with
                | BlockThrow off2 ln2 =>
                    let st1 := at_pos off2 ln2 st in
                    StepThrow (illegal Comment st1) st1
                | BlockEnd off2 ln2 =>
                    let st1 := at_pos (S off2) ln2 st in
                    let st2 := if isComment
                               then setComment start (offset st1 - 2) st1
                               else st1 in
                    StepRepeat st2
                end
              else StepReturn (Some [SLASH]) (at_pos off1 ln st)
          end
        else StepLeave (at_pos off ln st)
    | WsAt [] off ln => StepLeave (at_pos off ln st)
    end.

(** The statements after the loop: the token starting at [offset]. *)
Definition scan_token (st : state) : outcome (option str) * state :=
  let end0 := offset st in
  let '(delim, li) := test_g delimRe 0 (charAt source end0) in
  let end1 := S end0 in
  let end2 := if delim then end1
              else token_end (skipn end1 source) end1 li in
  let token := substring source (offset st) end2 in
  let st1 := set_offset end2 st in
  let st2 := if str_eqb token [DQUOTE] || str_eqb token [SQUOTE]
             then set_stringDelim (Some token) st1
             else st1 in
  (Ret (Some token), st2).

(** The [do ... while (repeat)] loop followed by the token; [n] bounds the
    number of rounds. *)
Fixpoint scan (n : nat) (st : state) : outcome (option str) * state :=
  match n with
  | O => (Diverge, st)
  | S n' =>
      match scan_step st with
      | StepReturn v st' => (Ret v, st')
      | StepThrow e st' => (Throw e, st')
      | StepRepeat st' => scan n' st'
      | StepLeave st' => scan_token st'
      end
  end.

(** [next()].  Every round of the loop that repeats has consumed a
    comment, so the length of the source bounds the rounds (see
    [next_returns]). *)
Definition next : M (option str) :=
  fun st =>
    match stack st with
    | t :: stack' => (Ret (Some t), set_stack stack' st)
    | [] =>
        match stringDelim st with
        | Some (c :: d) => readString (c :: d) st
        | _ => scan (S (length source)) st
        end
    end.

(** [peek()]. *)
Definition peek : M (option str) :=
  fun st =>
    match stack st with
    | [] =>
        (token <- next ;;
         match token with
         | None => ret None
         | Some t => _ <- push t ;; (fun st' => (Ret (hd_error (stack st')), st'))
         end) st
    | t :: _ => (Ret (Some t), st)
    end.

(** [skip(expected, optional)]. *)
Definition skip (expected : str) (optional : bool) : M bool :=
  actual <- peek ;;
  if opt_str_eqb actual (Some expected) then
    _ <- next ;; ret true
  else if negb optional then
    fun st => (Throw (illegal (Token actual expected) st), st)
  else ret false.

(** [line()]. *)
Definition get_line : M Z := fun st => (Ret (line st), st).

(** [cmnt(trailingLine)]; [None] is the call without argument. *)
Definition cmnt (trailingLine : option Z) : M (option str) :=
  r <- match trailingLine with
       | None =>
           fun st =>
             (Ret (and_or_null (Z.eqb (commentLine st) (line st - 1))
                               (commentText st)), st)
       | Some tl =>
           _ <- (fun st => if negb (truthy (commentText st))
                           then (_ <- peek ;; ret tt) st
                           else (Ret tt, st)) ;;
           fun st =>
             (Ret (and_or_null (Z.eqb (commentLine st) tl
                                && opt_str_eqb (commentType st) (Some [SLASH]))
                               (commentText st)), st)
       end ;;
  if truthy r then
    fun st => (Ret r, set_comment None None 0 st)
  else ret r.

End Tokenize.

(** Unfolds the accessors of a state built by the setters. *)
Ltac simpl_st :=
  cbn [offset line stack stringDelim commentText commentType commentLine
       at_pos set_line set_offset set_comment set_stack set_stringDelim
       setComment illegal].

(** ** Sequences of operations *)

(** The operations of the handle [tokenize] returns. *)
Inductive op : Type :=
| OpNext
| OpPeek
| OpPush (token : str)
| OpSkip (expected : str) (optional : bool)
| OpLine
| OpCmnt (trailingLine : option Z).

(** The state one operation leaves, whatever it returns or throws. *)
Definition run_op (source : str) (o : op) (st : state) : state :=
  match o with
  | OpNext => snd (next source st)
  | OpPeek => snd (peek source st)
  | OpPush t => snd (push t st)
  | OpSkip e o => snd (skip source e o st)
  | OpLine => snd (get_line st)
  | OpCmnt tl => snd (cmnt source tl st)
  end.

Definition run (source : str) (ops : list op) (st : state) : state :=
  fold_left (fun s o => run_op source o s) ops st.

(** [nexts source n st]: the results of [n] calls of [next] in a row from
    [st], and the state they leave. *)
Fixpoint nexts (source : str) (n : nat) (st : state)
  : list (outcome (option str)) * state :=
  match n with
  | O => ([], st)
  | S n' =>
      let '(r, st1) := next source st in
      let '(rs, st2) := nexts source n' st1 in
      (r :: rs, st2)
  end.

(** The result of call number [n] (from 0) of [next] on a fresh tokenizer. *)
Definition nth_next (source : str) (n : nat) : outcome (option str) :=
  fst (next source (snd (nexts source n init))).

(** ** Notions the statements use *)

(** The number of newline characters of a string. *)
Fixpoint newlines (s : str) : Z :=
  match s with
  | [] => 0
  | c :: s' => (if N.eqb c LF then 1 else 0) + newlines s'
  end.

(** Whether the next call of [next] is served by [readString]. *)
Definition reads_string (st : state) : bool :=
  match stack st, stringDelim st with
  | [], Some (_ :: _) => true
  | _, _ => false
  end.

(** Whether operation [o], started in [st], has [readString] run: [peek]
    and [skip] call [next] on an empty stack only, and [cmnt] peeks only with
    an argument and no comment text. *)
Definition op_reads_string (o : op) (st : state) : bool :=
  match o with
  | OpNext | OpPeek | OpSkip _ _ => reads_string st
  | OpCmnt (Some _) => negb (truthy (commentText st)) && reads_string st
  | _ => false
  end.

(** The newlines that [readString] consumes in the course of [ops]. *)
Fixpoint string_newlines (source : str) (ops : list op) (st : state) : Z :=
  match ops with
  | [] => 0
  | o :: ops' =>
      let st' := run_op source o st in
      (if op_reads_string o st
       then newlines (substring source (offset st) (offset st'))
       else 0) + string_newlines source ops' st'
  end.

(** A body of a quoted literal that the quote [q] closes: plain characters
    other than [q] and the backslash, and backslash pairs whose second
    character is not a line terminator. *)
Fixpoint closed_body (q : char) (s : str) : bool :=
  match s with
  | [] => true
  | c :: s' =>
      if N.eqb c BACKSLASH then
        match s' with
        | d :: s'' => negb (is_line_terminator d) && closed_body q s''
        | [] => false
        end
      else negb (N.eqb c q) && closed_body q s'
  end.

(** The decoding table of the specification: 0, r, n, t. *)
Definition escape_table (d : char) : option char :=
  if N.eqb d 48 then Some NUL
  else if N.eqb d 114 then Some CR
  else if N.eqb d 110 then Some LF
  else if N.eqb d 116 then Some TAB
  else None.

Definition decode_escape (d : char) : str :=
  if N.eqb d BACKSLASH then [BACKSLASH]
  else
    match escape_table d with
    | Some x => [x]
    | None => []
    end.

(** The escape decoder as the specification words it: a backslash pair is
    decoded by the table, a backslash pair with another backslash gives one
    backslash, any other pair gives nothing, a lone backslash at the end is
    kept. *)
Fixpoint unescape_spec (s : str) : str :=
  match s with
  | [] => []
  | c :: s' =>
      if N.eqb c BACKSLASH then
        match s' with
        | [] => [BACKSLASH]
        | d :: s'' => decode_escape d ++ unescape_spec s''
        end
      else c :: unescape_spec s'
  end.

(** The same with the two cases the code decides otherwise: a lone
    backslash at the end is dropped, and before a line terminator only the
    backslash is dropped. *)
Fixpoint unescape_ref (s : str) : str :=
  match s with
  | [] => []
  | c :: s' =>
      if N.eqb c BACKSLASH then
        match s' with
        | [] => []
        | d :: s'' =>
            if is_line_terminator d then d :: unescape_ref s''
            else decode_escape d ++ unescape_ref s''
        end
      else c :: unescape_ref s'
  end.

(** The characters the class [[^Q\\]] of the string expressions accepts. *)
Definition plain (q : char) (c : char) : bool := negb (char_in [q; BACKSLASH] c).

(** The repeated part of the string expressions: a backslash, a dot and a
    run of plain characters. *)
Definition escapeRe (q : char) : regex :=
  Seq (Lit BACKSLASH) (Seq Dot (Star (NoneOf [q; BACKSLASH]))).

(** [rest] is empty or starts with a character that [p] refuses. *)
Definition stops (p : char -> bool) (rest : str) : Prop :=
  match rest with
  | [] => True
  | c :: _ => p c = false
  end.

(** The characters [delimRe] accepts. *)
Definition is_delim (c : char) : bool := is_space c || char_in delim_chars c.

(** Neither quote character. *)
Definition no_quote (c : char) : bool := negb (N.eqb c DQUOTE || N.eqb c SQUOTE).

(** [st'] is [st] after the characters [seg] have been consumed and their
    newlines counted. *)
Definition advances (source : str) (st st' : state) : Prop :=
  exists seg,
    skipn (offset st) source = seg ++ skipn (offset st') source /\
    offset st' = length seg + offset st /\
    line st' = (line st + newlines seg)%Z.

(** The effect of an operation on cursor and line: the cursor moves
    forward within the source, and the line grows by the newlines passed
    over, unless [readString] did the reading ([quoted]). *)
Definition effect (source : str) (quoted : bool) (st st' : state) : Prop :=
  offset st <= offset st' <= length source /\
  line st' = (line st + if quoted then 0
                        else newlines (substring source (offset st) (offset st')))%Z.

(** ** Notions the further properties use *)

(** The state after the tokens [ts] have been pushed back, in this order. *)
Definition pushes (ts : list str) (st : state) : state :=
  fold_left (fun s t => snd (push t s)) ts st.

Definition no_backslash (c : char) : bool := negb (N.eqb c BACKSLASH).

Definition not_LF (c : char) : bool := negb (N.eqb c LF).

(** One of the two quote tokens. *)
Definition is_quote (t : str) : bool :=
  str_eqb t [DQUOTE] || str_eqb t [SQUOTE].

(** The shape of a token [t] that the scanner has cut out of the source,
    with [st'] the state after it: a character that is no whitespace followed
    by characters that are no delimiters, and by none if it is a delimiter
    itself; the characters of the source that end at the cursor; and one
    delimiter, the slash on its own, or a token that what follows could not
    have made longer. *)
Definition token_shape (source : str) (t : str) (st' : state) : Prop :=
  (exists (c : char) (tok : str),
      t = c :: tok /\ is_space c = false /\
      forallb (fun c : char => negb (is_delim c)) tok = true /\
      (is_delim c = true -> tok = [])) /\
  length t <= offset st' <= length source /\
  substring source (offset st' - length t) (offset st') = t /\
  (match t with
   | [c] => is_delim c = true \/ c = SLASH
   | _ => False
   end \/
   stops (fun c : char => negb (is_delim c)) (skipn (offset st') source)).

(** A token that is no quote and no slash at its start: one delimiter that
    is no whitespace, or a run of characters that are no delimiters. *)
Definition plain_token (w : str) : bool :=
  match w with
  | [] => false
  | c :: tok =>
      negb (is_space c) && negb (N.eqb c SLASH) && no_quote c &&
      forallb (fun x : char => negb (is_delim x)) tok &&
      (negb (is_delim c) || match tok with [] => true | _ :: _ => false end)
  end.

(** A gap between tokens: whitespace, not empty. *)
Definition gap (g : str) : bool :=
  match g with
  | [] => false
  | _ :: _ => forallb is_space g
  end.

(** Tokens laid out one after the other, each with the gap after it. *)
Definition layout (items : list (str * str)) : str :=
  concat (map (fun it : str * str => fst it ++ snd it) items).

(** The quote character whose expression [readString] runs for a pending
    delimiter. *)
Definition quote_of (delim : str) : char :=
  if str_eqb delim [SQUOTE] then SQUOTE else DQUOTE.

(** The source holds a closed literal of quote [q] that opens at index
    [from] or later. *)
Definition closed_literal_from (source : str) (q : char) (from : nat) : Prop :=
  exists pre body post : str,
    source = pre ++ q :: body ++ q :: post /\ closed_body q body = true /\
    from <= length pre.

(** The text [setComment] makes of the characters [s] between the comment
    markers. *)
Definition comment_text (s : str) : str :=
  trim (join [LF]
          (map (fun l => trim (replace_first setCommentRe [] l))
               (split_chr setCommentSplit [] s))).

(** A line of a comment text: no newline inside, no whitespace at either
    end. *)
Definition comment_line (l : str) : Prop :=
  forallb not_LF l = true /\ stops is_space l /\ stops is_space (rev l).

(** The lines without the empty ones in front. *)
Fixpoint drop_empty (L : list str) : list str :=
  match L with
  | [] :: L' => drop_empty L'
  | _ => L
  end.

(** The characters of the class of [setCommentRe]: star and slash. *)
Definition is_mark (c : char) : bool := char_in [STAR; SLASH] c.

(** Whether no star followed by a slash closes a block comment in [rest],
    with [curr] the character before [rest]. *)
Fixpoint no_close (curr : char) (rest : str) : bool :=
  match rest with
  | [] => true
  | c :: rest' => negb (N.eqb curr STAR && N.eqb c SLASH) && no_close c rest'
  end.

(** The comment slot: type, text and line. *)
Definition comment_slot (st : state) : option str * option str * Z :=
  (commentType st, commentText st, commentLine st).

(** What [next] passes over on its way to a token: a run of whitespace, a
    line comment with the newline that ends it (slash, slash, [body],
    newline), or a block comment (slash, star, [seg], slash, where the slash
    closes because a star stands before it: the last character of [seg], or
    the star of the opening when [seg] is empty). *)
Inductive blank : Type :=
| Blank_space (ws : str)
| Blank_line (body : str)
| Blank_block (seg : str).

Definition blank_text (b : blank) : str :=
  match b with
  | Blank_space ws => ws
  | Blank_line body => SLASH :: SLASH :: body ++ [LF]
  | Blank_block seg => SLASH :: STAR :: seg ++ [SLASH]
  end.

(** The conditions on the parts: whitespace only; no newline in the body
    of a line comment; in a block comment no slash after a star before the
    last slash, and a star before the last slash. *)
Definition blank_ok (b : blank) : bool :=
  match b with
  | Blank_space ws => forallb is_space ws
  | Blank_line body => forallb not_LF body
  | Blank_block seg => no_close STAR seg && N.eqb (last seg STAR) STAR
  end.

Definition blanks_text (bs : list blank) : str := concat (map blank_text bs).

(** The state in which the loop of [next] is once it has passed [b], from
    the state [st] whose cursor stands at the start of [b]: cursor and line
    moved on, and the comment captured as the code decides it. *)
Definition pass_blank (source : str) (b : blank) (st : state) : state :=
  match b with
  | Blank_space ws => at_pos (length ws + offset st) (line st + newlines ws) st
  | Blank_line body =>
      let start := S (S (offset st)) in
      let st1 := at_pos (S (length body + start)) (line st) st in
      let st2 := if str_eqb (charAt source start) [SLASH]
                 then setComment source start (offset st1 - 1) st1
                 else st1 in
      set_line (line st2 + 1) st2
  | Blank_block seg =>
      let start := S (S (offset st)) in
      let st1 := at_pos (S (length seg + start)) (line st + newlines seg) st in
      if str_eqb (charAt source start) [STAR]
      then setComment source start (offset st1 - 2) st1
      else st1
  end.

Definition pass_blanks (source : str) (bs : list blank) (st : state) : state :=
  fold_left (fun s b => pass_blank source b s) bs st.

(** * Properties *)

(** ** The matcher *)

(** The equations of [rmatch], one for each construct. *)
Lemma rmatch_Star r1 i s cap k :
  rmatch (Star r1) i s cap k = star_loop r1 k (S (length s)) i s cap.
Proof. reflexivity. Qed.

Lemma rmatch_Seq r1 r2 i s cap k :
  rmatch (Seq r1 r2) i s cap k =
  rmatch r1 i s cap (fun i' s' cap' => rmatch r2 i' s' cap' k).
Proof. reflexivity. Qed.

Lemma rmatch_Chr p i s cap k :
  rmatch (Chr p) i s cap k =
  match s with
  | c :: s' => if p c then k (S i) s' cap else None
  | [] => None
  end.
Proof. reflexivity. Qed.

Lemma rmatch_Group r1 i s cap k :
  rmatch (Group r1) i s cap k =
  rmatch r1 i s cap (fun i' s' _ => k i' s' (Some (firstn (i' - i) s))).
Proof. reflexivity. Qed.

Lemma rmatch_Opt r1 i s cap k :
  rmatch (Opt r1) i s cap k =
  match rmatch r1 i s cap
          (fun i' s' cap' => if Nat.eqb i' i then None else k i' s' cap')
  with
  | Some res => Some res
  | None => k i s cap
  end.
Proof. reflexivity. Qed.

(** A star over a one-character class takes a whole run of the class when
    the continuation succeeds after it. *)
Lemma star_chr_run p k res run :
  forall rest n i cap,
    forallb p run = true -> stops p rest -> length run < n ->
    k (length run + i) rest cap = Some res ->
    star_loop (Chr p) k n i (run ++ rest) cap = Some res.
Proof.
  induction run as [|c run IH]; intros rest n i cap Hall Hstop Hn Hk.
  - destruct n as [|n]; [inversion Hn|]. cbn [star_loop length app] in *.
    rewrite rmatch_Chr. destruct rest as [|c rest]; [exact Hk|].
    cbn in Hstop. rewrite Hstop. exact Hk.
  - destruct n as [|n]; [inversion Hn|].
    cbn [forallb] in Hall. apply andb_true_iff in Hall as [Hc Hall].
    cbn [star_loop app]. rewrite rmatch_Chr, Hc.
    replace (Nat.eqb (S i) i) with false
      by (symmetry; apply Nat.eqb_neq; lia).
    fold (star_loop (Chr p) k).
    rewrite (IH rest n (S i) cap Hall Hstop); [reflexivity| cbn in Hn; lia |].
    rewrite <- Hk. cbn [length]. f_equal. lia.
Qed.

(** ** The bound of the star loop *)

(** The matcher calls its continuation at positions of the subject only:
    two continuations that agree on those give the same result. *)
Lemma rmatch_ext r :
  forall i s cap (k1 k2 : cont),
    (forall i' s' cap', i' + length s' = i + length s -> i <= i' ->
                        k1 i' s' cap' = k2 i' s' cap') ->
    rmatch r i s cap k1 = rmatch r i s cap k2.
Proof.
  induction r as [| p | | r1 IH1 r2 IH2 | r1 IH1 | r1 IH1 | r1 IH1];
    intros i s cap k1 k2 H.
  - cbn [rmatch]. apply H; lia.
  - rewrite !rmatch_Chr. destruct s as [|c s']; [reflexivity|].
    destruct (p c); [|reflexivity]. apply H; cbn [length]; lia.
  - cbn [rmatch]. destruct (Nat.eqb i 0); [|reflexivity]. apply H; lia.
  - rewrite !rmatch_Seq. apply IH1. intros i' s' cap' Hp Hi.
    apply IH2. intros i'' s'' cap'' Hp' Hi'. apply H; lia.
  - rewrite !rmatch_Star. generalize (S (length s)) as n. intros n.
    revert i s cap H. induction n as [|n IHn]; intros i s cap H.
    + cbn [star_loop]. apply H; lia.
    + cbn [star_loop]. fold (star_loop r1 k1). fold (star_loop r1 k2).
      rewrite (IH1 i s cap
                 (fun i' s' cap' => if Nat.eqb i' i then None
                                    else star_loop r1 k1 n i' s' cap')
                 (fun i' s' cap' => if Nat.eqb i' i then None
                                    else star_loop r1 k2 n i' s' cap')).
      * rewrite (H i s cap) by lia. reflexivity.
      * intros i' s' cap' Hp Hi. destruct (Nat.eqb i' i); [reflexivity|].
        apply IHn. intros i'' s'' cap'' Hp' Hi'. apply H; lia.
  - rewrite !rmatch_Opt.
    rewrite (IH1 i s cap
               (fun i' s' cap' => if Nat.eqb i' i then None else k1 i' s' cap')
               (fun i' s' cap' => if Nat.eqb i' i then None else k2 i' s' cap')).
    + rewrite (H i s cap) by lia. reflexivity.
    + intros i' s' cap' Hp Hi. destruct (Nat.eqb i' i); [reflexivity|].
      apply H; lia.
  - rewrite !rmatch_Group. apply IH1. intros i' s' cap' Hp Hi. apply H; lia.
Qed.

(** Every round of the star loop consumes a character, so a counter above
    the length of the subject is as good as any other: the rounds never use
    it up. *)
Lemma star_loop_bound r1 k m :
  forall s i cap n n',
    length s <= m -> length s < n -> length s < n' ->
    star_loop r1 k n i s cap = star_loop r1 k n' i s cap.
Proof.
  induction m as [|m IH]; intros s i cap n n' Hm Hn Hn';
    (destruct n as [|n]; [lia|]); (destruct n' as [|n']; [lia|]);
    cbn [star_loop]; fold (star_loop r1 k).
  - rewrite (rmatch_ext r1 i s cap
               (fun i' s' cap' => if Nat.eqb i' i then None
                                  else star_loop r1 k n i' s' cap')
               (fun i' s' cap' => if Nat.eqb i' i then None
                                  else star_loop r1 k n' i' s' cap'));
      [reflexivity|].
    intros i' s' cap' Hp Hi. destruct (Nat.eqb_spec i' i); [reflexivity|]. lia.
  - rewrite (rmatch_ext r1 i s cap
               (fun i' s' cap' => if Nat.eqb i' i then None
                                  else star_loop r1 k n i' s' cap')
               (fun i' s' cap' => if Nat.eqb i' i then None
                                  else star_loop r1 k n' i' s' cap'));
      [reflexivity|].
    intros i' s' cap' Hp Hi. destruct (Nat.eqb_spec i' i); [reflexivity|].
    apply IH; lia.
Qed.

(** ** Where a match ends *)

(** A successful match has called its continuation after consuming a
    prefix of the subject. *)
Lemma rmatch_inv r :
  forall i s cap k res,
    rmatch r i s cap k = Some res ->
    exists (seg s' : str) cap', s = seg ++ s' /\ k (length seg + i) s' cap' = Some res.
Proof.
  induction r as [| p | | r1 IH1 r2 IH2 | r1 IH1 | r1 IH1 | r1 IH1];
    intros i s cap k res H.
  - exists [], s, cap. split; [reflexivity | exact H].
  - rewrite rmatch_Chr in H. destruct s as [|c s']; [discriminate|].
    destruct (p c); [|discriminate].
    exists [c], s', cap. split; [reflexivity | exact H].
  - cbn [rmatch] in H. destruct (Nat.eqb i 0); [|discriminate].
    exists [], s, cap. split; [reflexivity | exact H].
  - rewrite rmatch_Seq in H.
    apply IH1 in H as (seg1 & s1 & cap1 & -> & H).
    apply IH2 in H as (seg2 & s2 & cap2 & -> & H).
    exists (seg1 ++ seg2), s2, cap2. split; [apply app_assoc|].
    rewrite length_app. rewrite <- H. f_equal. lia.
  - rewrite rmatch_Star in H.
    remember (S (length s)) as n eqn:Hn. clear Hn. revert i s cap H.
    induction n as [|n IHn]; intros i s cap H.
    + exists [], s, cap. split; [reflexivity | exact H].
    + cbn [star_loop] in H. fold (star_loop r1 k) in H.
      destruct (rmatch r1 i s cap _) eqn:E.
      * injection H as ->. apply IH1 in E as (seg1 & s1 & cap1 & -> & E).
        destruct (Nat.eqb (length seg1 + i) i); [discriminate|].
        apply IHn in E as (seg2 & s2 & cap2 & -> & E).
        exists (seg1 ++ seg2), s2, cap2. split; [apply app_assoc|].
        rewrite length_app. rewrite <- E. f_equal. lia.
      * exists [], s, cap. split; [reflexivity | exact H].
  - rewrite rmatch_Opt in H.
    destruct (rmatch r1 i s cap _) eqn:E.
    + injection H as ->. apply IH1 in E as (seg1 & s1 & cap1 & -> & E).
      destruct (Nat.eqb (length seg1 + i) i); [discriminate|].
      exists seg1, s1, cap1. split; [reflexivity | exact E].
    + exists [], s, cap. split; [reflexivity | exact H].
  - rewrite rmatch_Group in H.
    apply IH1 in H as (seg1 & s1 & cap1 & -> & H).
    exists seg1, s1, (Some (firstn (length seg1 + i - i) (seg1 ++ s1))).
    split; [reflexivity | exact H].
Qed.

Lemma search_inv r s :
  forall i b e cap,
    search r i s = Some (b, e, cap) ->
    exists pre s' : str, s = pre ++ s' /\ b = length pre + i /\
                   match_at r b s' = Some (e, cap).
Proof.
  induction s as [|c s IH]; intros i b e cap H; cbn [search] in H.
  - destruct (match_at r i []) as [[e' cap']|] eqn:E; [|discriminate].
    injection H as <- <- <-. exists [], []. repeat split. exact E.
  - destruct (match_at r i (c :: s)) as [[e' cap']|] eqn:E.
    + injection H as <- <- <-. exists [], (c :: s). repeat split. exact E.
    + apply IH in H as (pre & s' & -> & -> & H).
      exists (c :: pre), s'. repeat split; [cbn [length]; lia|].
      exact H.
Qed.

(** ** Strings and cursors *)

Lemma str_eqb_eq a b : str_eqb a b = true <-> a = b.
Proof.
  revert b. induction a as [|x a IH]; intros [|y b]; cbn [str_eqb];
    try (split; [discriminate|discriminate]); try tauto.
  rewrite andb_true_iff, N.eqb_eq, IH. split.
  - intros [-> ->]. reflexivity.
  - intros H. injection H as -> ->. auto.
Qed.

Lemma str_eqb_refl a : str_eqb a a = true.
Proof. apply str_eqb_eq. reflexivity. Qed.

Lemma skipn_prefix (pre rest : str) : skipn (length pre) (pre ++ rest) = rest.
Proof. rewrite skipn_app, skipn_all, Nat.sub_diag. reflexivity. Qed.

Lemma skipn_split (s : str) o seg r :
  skipn o s = seg ++ r -> skipn (length seg + o) s = r.
Proof.
  intros H. rewrite <- skipn_skipn, H, skipn_app, Nat.sub_diag, skipn_all.
  reflexivity.
Qed.

Lemma skipn_bound (s : str) o seg r :
  skipn o s = seg ++ r -> seg <> [] -> length seg + o <= length s.
Proof.
  intros H Hseg. assert (Hl : length (skipn o s) = length seg + length r)
    by (rewrite H; apply length_app).
  rewrite length_skipn in Hl. destruct seg; [congruence|]. cbn [length] in *. lia.
Qed.

Lemma skipn_end (s : str) o seg :
  skipn o s = seg -> seg <> [] -> length seg + o = length s.
Proof.
  intros H Hseg. assert (Hl : length (skipn o s) = length seg) by (rewrite H; reflexivity).
  rewrite length_skipn in Hl. destruct seg; [congruence|]. cbn [length] in *. lia.
Qed.

Lemma charAt_skipn (s : str) o c r : skipn o s = c :: r -> charAt s o = [c].
Proof.
  intros H. unfold charAt.
  rewrite <- (firstn_skipn o s) at 1.
  assert (Ho : o <= length s).
  { assert (Hc : [c] <> []) by discriminate.
    pose proof (skipn_bound s o [c] r H Hc) as Hb. cbn [length] in Hb. lia. }
  rewrite nth_error_app2; rewrite length_firstn, Nat.min_l by lia; [|lia].
  rewrite Nat.sub_diag, H. reflexivity.
Qed.

Lemma substring_skipn (s : str) o seg r :
  skipn o s = seg ++ r -> substring s o (length seg + o) = seg.
Proof.
  intros H. unfold substring. destruct seg as [|c seg].
  - cbn [length]. rewrite Nat.add_0_l, Nat.min_id, Nat.max_id, Nat.sub_diag.
    reflexivity.
  - pose proof (skipn_bound s o (c :: seg) r H) as Hb.
    assert (Hne : c :: seg <> []) by discriminate. specialize (Hb Hne).
    rewrite (Nat.min_l o) by lia. rewrite (Nat.max_r o) by lia.
    rewrite (Nat.min_l o), Nat.min_l by lia.
    replace (length (c :: seg) + o - o) with (length (c :: seg)) by lia.
    rewrite H, firstn_app, Nat.sub_diag, firstn_all. cbn [firstn]. apply app_nil_r.
Qed.

Lemma firstn_plus (n m : nat) (l : str) :
  firstn (n + m) l = firstn n l ++ firstn m (skipn n l).
Proof.
  revert l. induction n as [|n IH]; intros l; [reflexivity|].
  destruct l as [|x l]; cbn [Nat.add firstn skipn app].
  - rewrite firstn_nil. reflexivity.
  - rewrite IH. reflexivity.
Qed.

Lemma substring_plus (s : str) (a b c : nat) :
  a <= b -> b <= c -> c <= length s ->
  substring s a c = substring s a b ++ substring s b c.
Proof.
  intros Hab Hbc Hc. unfold substring.
  rewrite !(Nat.min_l a), !(Nat.max_r a), !(Nat.min_l b), !(Nat.max_r b) by lia.
  rewrite !Nat.min_l by lia.
  replace (c - a) with ((b - a) + (c - b)) by lia.
  rewrite firstn_plus, skipn_skipn.
  replace (b - a + a) with b by lia. reflexivity.
Qed.

(** ** The string expressions *)

Lemma plain_quote q : plain q q = false.
Proof. unfold plain, char_in. cbn. rewrite N.eqb_refl. reflexivity. Qed.

Lemma plain_backslash q : plain q BACKSLASH = false.
Proof.
  unfold plain, char_in. cbn [existsb]. rewrite N.eqb_refl.
  destruct (N.eqb BACKSLASH q); reflexivity.
Qed.

Lemma plain_other q c :
  N.eqb c BACKSLASH = false -> N.eqb c q = false -> plain q c = true.
Proof.
  intros H1 H2. unfold plain, char_in. cbn [existsb]. rewrite H1, H2. reflexivity.
Qed.

(** A closed body is a run of plain characters followed by nothing or by a
    backslash pair and a closed body. *)
Lemma closed_body_split q s :
  closed_body q s = true ->
  exists run b : str,
    s = run ++ b /\ forallb (plain q) run = true /\ length b <= length s /\
    (b = [] \/
     exists (d : char) (b' : str), b = BACKSLASH :: d :: b' /\ is_line_terminator d = false /\
                  closed_body q b' = true).
Proof.
  induction s as [|c s IH]; intros H.
  - exists [], []. repeat split; auto.
  - cbn [closed_body] in H. destruct (N.eqb c BACKSLASH) eqn:Hc.
    + apply N.eqb_eq in Hc. subst c. destruct s as [|d s]; [discriminate|].
      apply andb_true_iff in H as [Hd Hb]. apply negb_true_iff in Hd.
      exists [], (BACKSLASH :: d :: s). repeat split; auto.
      right. exists d, s. auto.
    + apply andb_true_iff in H as [Hq Hb]. apply negb_true_iff in Hq.
      destruct (IH Hb) as (run & b & -> & Hrun & Hlen & Hb').
      exists (c :: run), b. repeat split; auto.
      * cbn [forallb]. rewrite (plain_other _ _ Hc Hq). exact Hrun.
      * cbn [length]. lia.
Qed.

Lemma stops_tail q b post :
  (b = [] \/ exists (d : char) (b' : str), b = BACKSLASH :: d :: b' /\ is_line_terminator d = false /\
                          closed_body q b' = true) ->
  stops (plain q) (b ++ q :: post).
Proof.
  intros [-> | (d & b' & -> & _)]; cbn.
  - apply plain_quote.
  - apply plain_backslash.
Qed.

(** The star over backslash pairs takes all the pairs of a closed body up
    to the closing quote when the continuation succeeds there. *)
Lemma escapes_loop q post k res :
  q <> BACKSLASH ->
  forall m b n i cap,
    length b <= m ->
    (b = [] \/ exists (d : char) (b' : str), b = BACKSLASH :: d :: b' /\ is_line_terminator d = false /\
                            closed_body q b' = true) ->
    length b < n ->
    k (length b + i) (q :: post) cap = Some res ->
    star_loop (escapeRe q) k n i (b ++ q :: post) cap = Some res.
Proof.
  intros Hq. induction m as [|m IH]; intros b n i cap Hm Hb Hn Hk;
    (destruct n as [|n]; [inversion Hn|]).
  - destruct b; [|inversion Hm]. cbn [star_loop app length] in *.
    unfold escapeRe at 1. rewrite rmatch_Seq. unfold Lit. rewrite rmatch_Chr.
    replace (N.eqb BACKSLASH q) with false
      by (symmetry; apply N.eqb_neq; congruence).
    exact Hk.
  - destruct Hb as [-> | (d & b' & -> & Hd & Hb')].
    + cbn [star_loop app length] in *.
      unfold escapeRe at 1. rewrite rmatch_Seq. unfold Lit. rewrite rmatch_Chr.
      replace (N.eqb BACKSLASH q) with false
        by (symmetry; apply N.eqb_neq; congruence).
      exact Hk.
    + cbn [star_loop app]. fold (star_loop (escapeRe q) k).
      unfold escapeRe at 1. rewrite rmatch_Seq. unfold Lit at 1.
      rewrite rmatch_Chr, N.eqb_refl, rmatch_Seq. unfold Dot.
      rewrite rmatch_Chr, Hd. cbn [negb]. rewrite rmatch_Star.
      destruct (closed_body_split q b' Hb') as (run & b2 & -> & Hrun & Hlen & Hb2).
      rewrite <- app_assoc.
      cbn [length] in Hm, Hn, Hk. rewrite length_app in Hm, Hn, Hk.
      rewrite (star_chr_run (plain q) _ res run); [reflexivity|exact Hrun| | |].
      * apply stops_tail; exact Hb2.
      * rewrite !length_app. lia.
      * replace (Nat.eqb (length run + S (S i)) i) with false
          by (symmetry; apply Nat.eqb_neq; lia).
        apply IH; [lia|exact Hb2|lia|].
        rewrite <- Hk. f_equal. lia.
Qed.

(** A string expression matches a quote, a closed body and the quote, and
    its group is the body. *)
Lemma stringRe_match q body post i :
  q <> BACKSLASH -> closed_body q body = true ->
  match_at (stringRe q) i (q :: body ++ q :: post)
  = Some (length body + 2 + i, Some body).
Proof.
  intros Hq Hbody. unfold match_at, stringRe.
  rewrite rmatch_Seq. unfold Lit at 1. rewrite rmatch_Chr, N.eqb_refl.
  rewrite rmatch_Seq, rmatch_Group, rmatch_Seq, rmatch_Star.
  destruct (closed_body_split q body Hbody) as (run & b & -> & Hrun & Hlen & Hb).
  rewrite <- app_assoc.
  apply (star_chr_run (plain q)); [exact Hrun| apply stops_tail; exact Hb | rewrite !length_app; lia |].
  rewrite rmatch_Star. fold (escapeRe q).
  apply escapes_loop with (m := length b); [exact Hq|lia|exact Hb|rewrite length_app; cbn [length]; lia|].
  unfold Lit. rewrite rmatch_Chr, N.eqb_refl.
  f_equal. f_equal.
  - rewrite length_app. lia.
  - f_equal. replace (length b + (length run + S i) - S i) with (length (run ++ b))
      by (rewrite length_app; lia).
    rewrite app_assoc. rewrite firstn_app, Nat.sub_diag, firstn_all. cbn. apply app_nil_r.
Qed.

(** A match of a string expression spans the two quotes at least. *)
Lemma stringRe_span q i s e cap :
  match_at (stringRe q) i s = Some (e, cap) ->
  i + 2 <= e /\ e <= i + length s.
Proof.
  unfold match_at, stringRe. rewrite rmatch_Seq. unfold Lit at 1.
  rewrite rmatch_Chr. destruct s as [|c s]; [discriminate|].
  destruct (N.eqb q c); [|discriminate].
  rewrite rmatch_Seq. intros H.
  apply rmatch_inv in H as (seg & s' & cap' & -> & H).
  unfold Lit in H. rewrite rmatch_Chr in H.
  destruct s' as [|c' s'']; [discriminate|].
  destruct (N.eqb q c'); [|discriminate].
  injection H as <- _. cbn [length]. rewrite length_app. cbn [length]. lia.
Qed.

(** [exec] on a string expression: the match ends after [lastIndex + 2] at
    least and within the subject; [lastIndex] becomes its end. *)
Lemma exec_stringRe q li s b e cap li' :
  exec (stringRe q) li s = (Some (b, e, cap), li') ->
  li' = e /\ li + 2 <= e /\ e <= length s.
Proof.
  unfold exec. destruct (Nat.ltb (length s) li) eqn:Hli; [discriminate|].
  apply Nat.ltb_ge in Hli.
  destruct (search _ _ _) as [[[b' e'] cap']|] eqn:E; [|discriminate].
  intros H. injection H as <- <- <- <-.
  apply search_inv in E as (pre & s' & Hs & -> & E).
  apply stringRe_span in E as [E1 E2].
  assert (Hl : length (skipn li s) = length pre + length s')
    by (rewrite Hs; apply length_app).
  rewrite length_skipn in Hl. repeat split; lia.
Qed.

Lemma exec_stringRe_closed (pre body post : str) (q : char) :
  q <> BACKSLASH -> closed_body q body = true ->
  exec (stringRe q) (length pre) (pre ++ q :: body ++ q :: post)
  = (Some (length pre, length body + 2 + length pre, Some body),
     length body + 2 + length pre).
Proof.
  intros Hq Hb. unfold exec.
  replace (Nat.ltb _ _) with false
    by (symmetry; apply Nat.ltb_ge; rewrite length_app; lia).
  rewrite skipn_prefix. cbn [search].
  rewrite (stringRe_match q body post (length pre) Hq Hb). reflexivity.
Qed.

(** ** The escape expression *)

(** What [unescapeRe] matches at a position: a backslash with the next
    character unless that is a line terminator or missing. *)
Lemma unescapeRe_match i s :
  match_at unescapeRe i s =
  match s with
  | c :: s' =>
      if N.eqb c BACKSLASH then
        match s' with
        | d :: _ => if is_line_terminator d then Some (S i, Some [])
                    else Some (S (S i), Some [d])
        | [] => Some (S i, Some [])
        end
      else None
  | [] => None
  end.
Proof.
  unfold match_at, unescapeRe, Lit, Dot.
  rewrite rmatch_Seq, rmatch_Chr. destruct s as [|c s']; [reflexivity|].
  rewrite (N.eqb_sym BACKSLASH c). destruct (N.eqb c BACKSLASH); [|reflexivity].
  rewrite rmatch_Group, rmatch_Opt, rmatch_Chr.
  destruct s' as [|d s'']; [rewrite Nat.sub_diag; reflexivity|].
  destruct (is_line_terminator d); cbn [negb].
  - rewrite Nat.sub_diag. reflexivity.
  - replace (Nat.eqb (S (S i)) (S i)) with false
      by (symmetry; apply Nat.eqb_neq; lia).
    replace (S (S i) - S i) with 1 by lia. reflexivity.
Qed.

Lemma unescape_fn_pair m d : unescape_fn m (Some [d]) = decode_escape d.
Proof.
  unfold unescape_fn, decode_escape, group1, unescapeMap, escape_table.
  change (js "0") with [48%N]. change (js "r") with [114%N].
  change (js "n") with [110%N]. change (js "t") with [116%N].
  cbn [str_eqb]. rewrite !andb_true_r, orb_false_r.
  destruct (N.eqb d BACKSLASH) eqn:Hb.
  - apply N.eqb_eq in Hb. subst d. reflexivity.
  - destruct (N.eqb d 48); [reflexivity|].
    destruct (N.eqb d 114); [reflexivity|].
    destruct (N.eqb d 110); [reflexivity|].
    destruct (N.eqb d 116); reflexivity.
Qed.

Lemma unescape_fn_empty m : unescape_fn m (Some []) = [].
Proof. reflexivity. Qed.

(** The replacement loop of [unescape] is the reference decoder. *)
Lemma replace_unescape n :
  forall s i, length s <= n ->
    replace_loop unescapeRe unescape_fn 0 i s = unescape_ref s.
Proof.
  induction n as [|n IH]; intros s i Hlen.
  - destruct s; [|inversion Hlen]. reflexivity.
  - destruct s as [|c s']; [reflexivity|].
    cbn [replace_loop]. rewrite unescapeRe_match. cbn [unescape_ref].
    cbn [length] in Hlen.
    destruct (N.eqb c BACKSLASH).
    + destruct s' as [|d s''].
      { rewrite unescape_fn_empty.
        replace (Nat.eqb (S i) i) with false
          by (symmetry; apply Nat.eqb_neq; lia).
        replace (S i - i - 1) with 0 by lia. reflexivity. }
      destruct (is_line_terminator d) eqn:Hd.
      * rewrite unescape_fn_empty.
        replace (Nat.eqb (S i) i) with false
          by (symmetry; apply Nat.eqb_neq; lia).
        replace (S i - i - 1) with 0 by lia. cbn [app].
        rewrite IH by lia.
        (* the line terminator is copied *)
        cbn [unescape_ref].
        replace (N.eqb d BACKSLASH) with false; [reflexivity|].
        symmetry. apply N.eqb_neq. intros ->. discriminate Hd.
      * rewrite unescape_fn_pair.
        replace (Nat.eqb (S (S i)) i) with false
          by (symmetry; apply Nat.eqb_neq; lia).
        replace (S (S i) - i - 1) with 1 by lia.
        cbn [replace_loop]. cbn [length] in Hlen. rewrite IH by lia. reflexivity.
    + rewrite IH by lia. reflexivity.
Qed.

(** ** Character classes *)

Lemma test_whitespace c : test whitespaceRe [c] = is_space c.
Proof.
  unfold test, whitespaceRe. cbn [search]. unfold match_at.
  rewrite !rmatch_Chr. destruct (is_space c); reflexivity.
Qed.

Lemma test_delim c :
  test_g delimRe 0 [c] = (is_delim c, if is_delim c then 1 else 0).
Proof.
  unfold test_g, exec, delimRe. cbn [length Nat.ltb Nat.leb skipn search].
  unfold match_at. rewrite !rmatch_Chr. fold (is_delim c).
  destruct (is_delim c); reflexivity.
Qed.

Lemma not_space_not_LF c : is_space c = false -> N.eqb c LF = false.
Proof.
  intros H. destruct (N.eqb c LF) eqn:E; [|reflexivity].
  apply N.eqb_eq in E. subst c. discriminate H.
Qed.

(** ** Counting newlines *)

Lemma newlines_app a b : newlines (a ++ b) = (newlines a + newlines b)%Z.
Proof. induction a as [|c a IH]; cbn [newlines app]; [reflexivity | lia]. Qed.

Lemma newlines_none p s :
  p LF = false -> forallb p s = true -> newlines s = 0%Z.
Proof.
  intros Hp. induction s as [|c s IH]; intros H; [reflexivity|].
  cbn [forallb] in H. apply andb_true_iff in H as [Hc Hs].
  cbn [newlines]. rewrite (IH Hs).
  destruct (N.eqb c LF) eqn:E; [|reflexivity].
  apply N.eqb_eq in E. subst c. congruence.
Qed.

Lemma newlines_no_LF (seg : str) :
  forallb (fun c : char => negb (N.eqb c LF)) seg = true -> newlines seg = 0%Z.
Proof. apply newlines_none. reflexivity. Qed.

Lemma newlines_token (tok : str) :
  forallb (fun c : char => negb (is_delim c)) tok = true -> newlines tok = 0%Z.
Proof. apply newlines_none. reflexivity. Qed.

Lemma newlines_slash s : newlines (SLASH :: s) = newlines s.
Proof. reflexivity. Qed.

Lemma newlines_star s : newlines (STAR :: s) = newlines s.
Proof. reflexivity. Qed.

Lemma newlines_LF : newlines [LF] = 1%Z.
Proof. reflexivity. Qed.

Lemma newlines_nil : newlines [] = 0%Z.
Proof. reflexivity. Qed.

Create Rewrite HintDb newlines.
#[local] Hint Rewrite newlines_app newlines_slash newlines_star newlines_LF
  newlines_nil app_nil_l : newlines.
#[local] Hint Rewrite <- app_comm_cons : newlines.

(** ** The loops of [next] *)

(** What the whitespace loop does on a run of whitespace followed by
    another character. *)
Lemma skip_whitespace_run ws :
  forall c rest off ln,
    forallb is_space ws = true -> is_space c = false ->
    skip_whitespace (ws ++ c :: rest) off ln
    = WsAt (c :: rest) (length ws + off) (ln + newlines ws).
Proof.
  induction ws as [|w ws IH]; intros c rest off ln Hws Hc.
  - cbn [app skip_whitespace length newlines]. rewrite test_whitespace, Hc.
    f_equal; lia.
  - cbn [forallb] in Hws. apply andb_true_iff in Hws as [Hw Hws].
    cbn [app skip_whitespace]. rewrite test_whitespace, Hw.
    destruct (ws ++ c :: rest) eqn:E; [destruct ws; discriminate|].
    rewrite <- E, IH by assumption. cbn [length newlines].
    destruct (N.eqb w LF); f_equal; lia.
Qed.

(** What it does on any input: it consumes a run [ws] of whitespace and
    counts its newlines; it reports the end of the source exactly when the
    run is not empty and nothing follows. *)
Lemma skip_whitespace_spec rest :
  forall off ln,
  exists ws rest' : str,
    rest = ws ++ rest' /\ forallb is_space ws = true /\
    ((skip_whitespace rest off ln
      = WsAt rest' (length ws + off) (ln + newlines ws)
      /\ stops is_space rest' /\ (rest' = [] -> ws = []))
     \/
     (skip_whitespace rest off ln
      = WsEof (length ws + off) (ln + newlines ws)
      /\ rest' = [] /\ ws <> [])).
Proof.
  induction rest as [|c rest IH]; intros off ln.
  - exists [], []. repeat split. left. repeat split.
    cbn. f_equal; lia.
  - cbn [skip_whitespace]. rewrite test_whitespace.
    destruct (is_space c) eqn:Hc.
    + destruct rest as [|d rest].
      * exists [c], []. repeat split; [cbn; rewrite Hc; reflexivity|].
        right. repeat split; [|discriminate].
        cbn [length newlines]. destruct (N.eqb c LF); f_equal; lia.
      * destruct (IH (S off) (if N.eqb c LF then (ln + 1)%Z else ln))
          as (ws & rest' & E & Hws & H).
        exists (c :: ws), rest'. split; [cbn; rewrite E; reflexivity|].
        split; [cbn; rewrite Hc; exact Hws|].
        cbn [length newlines].
        replace (S (length ws) + off) with (length ws + S off) by lia.
        replace (ln + ((if N.eqb c LF then 1 else 0) + newlines ws))%Z
          with ((if N.eqb c LF then (ln + 1)%Z else ln) + newlines ws)%Z
          by (destruct (N.eqb c LF); lia).
        destruct H as [(H1 & H2 & H3) | (H1 & H2 & H3)].
        -- left. repeat split; [exact H1|exact H2|].
           intros ->. rewrite H3 in E by reflexivity. discriminate.
        -- right. repeat split; [exact H1|exact H2|discriminate].
    + exists [], (c :: rest). repeat split. left.
      split; [cbn; f_equal; lia|]. split; [exact Hc|discriminate].
Qed.

(** The line loop stops at the first newline or at the end. *)
Lemma line_end_spec rest :
  forall off,
  exists seg rest' : str,
    rest = seg ++ rest' /\ forallb (fun c : char => negb (N.eqb c LF)) seg = true /\
    ((line_end rest off = (true, length seg + off)
      /\ exists rest'', rest' = LF :: rest'')
     \/ (line_end rest off = (false, length seg + off) /\ rest' = [])).
Proof.
  induction rest as [|c rest IH]; intros off.
  - exists [], []. repeat split. right. split; reflexivity.
  - cbn [line_end]. destruct (N.eqb c LF) eqn:Hc.
    + apply N.eqb_eq in Hc. subst c. exists [], (LF :: rest).
      repeat split. left. split; [reflexivity|]. exists rest. reflexivity.
    + destruct (IH (S off)) as (seg & rest' & E & Hseg & H).
      exists (c :: seg), rest'. split; [cbn; rewrite E; reflexivity|].
      split; [cbn; rewrite Hc; exact Hseg|].
      cbn [length]. replace (S (length seg) + off) with (length seg + S off) by lia.
      exact H.
Qed.

(** The block loop consumes up to the closing slash, or everything. *)
Lemma block_end_spec rest :
  forall curr off ln,
    (exists seg rest' : str,
        rest = seg ++ SLASH :: rest' /\
        block_end rest curr off ln
        = BlockEnd (S (length seg) + off) (ln + newlines (curr :: seg)))
    \/ block_end rest curr off ln
       = BlockThrow (S (length rest) + off) (ln + newlines (curr :: rest)).
Proof.
  induction rest as [|c rest IH]; intros curr off ln.
  - right. cbn. f_equal. destruct (N.eqb curr LF); lia.
  - cbn [block_end].
    destruct (N.eqb curr STAR && N.eqb c SLASH) eqn:Hex.
    + apply andb_true_iff in Hex as [H1 H2]. apply N.eqb_eq in H2. subst c.
      left. exists [], rest. split; [reflexivity|].
      cbn [length newlines]. f_equal. destruct (N.eqb curr LF); lia.
    + destruct (IH c (S off) (if N.eqb curr LF then (ln + 1)%Z else ln))
        as [(seg & rest' & E & H) | H].
      * left. exists (c :: seg), rest'. split; [cbn; rewrite E; reflexivity|].
        rewrite H. cbn [length newlines]. f_equal; [lia|].
        destruct (N.eqb curr LF); lia.
      * right. rewrite H. cbn [length newlines]. f_equal; [lia|].
        destruct (N.eqb curr LF); lia.
Qed.

(** The token loop stops at the first delimiter or at the end. *)
Lemma token_end_spec rest :
  forall e,
  exists tok rest' : str,
    rest = tok ++ rest' /\ forallb (fun c : char => negb (is_delim c)) tok = true /\
    token_end rest e 0 = length tok + e /\
    stops (fun c : char => negb (is_delim c)) rest'.
Proof.
  induction rest as [|c rest IH]; intros e.
  - exists [], []. repeat split.
  - cbn [token_end]. rewrite test_delim. destruct (is_delim c) eqn:Hc.
    + exists [], (c :: rest). repeat split. cbn. rewrite Hc. reflexivity.
    + destruct (IH (S e)) as (tok & rest' & E & Htok & H & Hs).
      exists (c :: tok), rest'. split; [cbn; rewrite E; reflexivity|].
      split; [cbn; rewrite Hc; exact Htok|]. split; [|exact Hs].
      rewrite H. cbn [length]. lia.
Qed.

(** ** Consuming characters *)

Lemma advances_intro source st st' seg r :
  skipn (offset st) source = seg ++ r ->
  offset st' = length seg + offset st ->
  line st' = (line st + newlines seg)%Z ->
  advances source st st'.
Proof.
  intros H Ho Hl. exists seg. rewrite Ho, (skipn_split _ _ _ _ H). auto.
Qed.

Lemma advances_refl source st : advances source st st.
Proof. apply advances_intro with (seg := []) (r := skipn (offset st) source); cbn; auto; lia. Qed.

Lemma advances_trans source st1 st2 st3 :
  advances source st1 st2 -> advances source st2 st3 -> advances source st1 st3.
Proof.
  intros (s1 & H1 & O1 & L1) (s2 & H2 & O2 & L2).
  exists (s1 ++ s2). rewrite H1, H2, <- app_assoc, length_app, newlines_app.
  repeat split; lia.
Qed.

Lemma advances_bound source st st' :
  advances source st st' -> offset st <= length source ->
  offset st <= offset st' <= length source.
Proof.
  intros (seg & H & O & L) Hb. split; [lia|].
  destruct seg as [|c seg]; [cbn in O; lia|].
  rewrite O. apply skipn_bound with (r := skipn (offset st') source); [exact H|discriminate].
Qed.

Lemma effect_advances source st st' :
  offset st <= length source -> advances source st st' ->
  effect source false st st'.
Proof.
  intros Hb Hadv. split; [apply advances_bound; assumption|].
  destruct Hadv as (seg & H & Ho & Hl).
  rewrite Ho, (substring_skipn _ _ _ _ H). exact Hl.
Qed.

Lemma effect_same source b st st' :
  offset st <= length source ->
  offset st' = offset st -> line st' = line st -> effect source b st st'.
Proof.
  intros Hb Ho Hl. split; [lia|]. rewrite Ho, Hl.
  destruct b; [lia|].
  unfold substring. rewrite Nat.min_id, Nat.max_id, Nat.sub_diag. cbn. lia.
Qed.

Lemma effect_ext source b st st' st'' :
  offset st'' = offset st' -> line st'' = line st' ->
  effect source b st st' -> effect source b st st''.
Proof. unfold effect. intros -> ->. auto. Qed.

(** ** One round of the loop *)

(** Whatever way a round ends, it has consumed characters and counted
    their newlines, left stack and pending delimiter alone, and moved on if
    it asks for another round. *)
Lemma scan_step_spec source st :
  match scan_step source st with
  | StepReturn v st' =>
      advances source st st' /\ stack st' = stack st /\
      stringDelim st' = stringDelim st /\
      (v = None /\ offset st' = length source \/
       v = Some [SLASH] /\ commentText st' = commentText st /\
       commentType st' = commentType st /\ commentLine st' = commentLine st)
  | StepThrow e st' =>
      advances source st st' /\ stack st' = stack st /\
      stringDelim st' = stringDelim st /\ e = Illegal Comment (line st')
  | StepRepeat st' =>
      advances source st st' /\ stack st' = stack st /\
      stringDelim st' = stringDelim st /\ offset st < offset st'
  | StepLeave st' =>
      advances source st st' /\ stack st' = stack st /\
      stringDelim st' = stringDelim st /\
      stops is_space (skipn (offset st') source) /\
      (offset st <= length source -> offset st' < length source)
  end.
Proof.
  unfold scan_step.
  destruct (Nat.eqb (offset st) (length source)) eqn:Hend.
  { apply Nat.eqb_eq in Hend. repeat split; auto using advances_refl. }
  apply Nat.eqb_neq in Hend.
  destruct (skip_whitespace_spec (skipn (offset st) source) (offset st) (line st))
    as (ws & rest' & E & Hws & [(-> & Hstop & Hnil) | (-> & -> & Hne)]).
  2:{ rewrite app_nil_r in E. repeat split.
      - apply advances_intro with (seg := ws) (r := []); simpl_st; auto.
        rewrite app_nil_r; exact E.
      - left. split; [reflexivity|]. simpl_st. apply skipn_end; assumption. }
  assert (Hadv : forall st', offset st' = length ws + offset st ->
                             line st' = (line st + newlines ws)%Z ->
                             advances source st st').
  { intros st' Ho Hl. apply advances_intro with (seg := ws) (r := rest'); auto. }
  destruct rest' as [|c rest1].
  { pose proof (Hnil eq_refl) as Hw. subst ws. cbn in E.
    repeat split; auto.
    - simpl_st. cbn [length Nat.add]. rewrite E. exact I.
    - simpl_st. cbn [length Nat.add]. intros Hb.
      assert (H : length (skipn (offset st) source) = 0) by (rewrite E; reflexivity).
      rewrite length_skipn in H. lia. }
  assert (Hlt : length ws + offset st < length source).
  { assert (Hne : ws ++ [c] <> []) by (destruct ws; discriminate).
    pose proof (skipn_bound source (offset st) (ws ++ [c]) rest1) as Hb.
    rewrite <- app_assoc in Hb. specialize (Hb E Hne).
    rewrite length_app in Hb. cbn [length] in Hb. lia. }
  destruct (N.eqb c SLASH) eqn:Hc.
  2:{ repeat split; auto. simpl_st. rewrite (skipn_split _ _ _ _ E). exact Hstop. }
  apply N.eqb_eq in Hc. subst c.
  assert (Hsl : newlines [SLASH] = 0%Z) by reflexivity.
  destruct rest1 as [|d rest2].
  { repeat split.
    apply advances_intro with (seg := ws ++ [SLASH]) (r := []).
    - rewrite <- app_assoc. exact E.
    - simpl_st. rewrite length_app. cbn [length]. lia.
    - simpl_st. autorewrite with newlines. lia. }
  destruct (N.eqb d SLASH) eqn:Hd.
  { apply N.eqb_eq in Hd. subst d.
    destruct (line_end_spec rest2 (S (S (length ws + offset st))))
      as (seg & r & -> & Hseg & [(-> & r' & ->) | (-> & ->)]).
    - assert (Hadv2 : forall st', offset st' = S (length seg + S (S (length ws + offset st))) ->
                             line st' = (line st + newlines ws + 1)%Z ->
                             advances source st st').
      { intros st' Ho Hl.
        apply advances_intro with (seg := ws ++ [SLASH; SLASH] ++ seg ++ [LF]) (r := r').
        - rewrite E. rewrite <- !app_assoc. reflexivity.
        - rewrite Ho, !length_app. cbn [length]. lia.
        - rewrite Hl. autorewrite with newlines. rewrite (newlines_no_LF seg Hseg). lia. }
      destruct (str_eqb _ _); repeat split; try (apply Hadv2; reflexivity); simpl_st; lia.
    - rewrite app_nil_r in E. repeat split.
      + apply advances_intro with (seg := ws ++ [SLASH; SLASH] ++ seg) (r := []).
        * rewrite E, app_nil_r. reflexivity.
        * simpl_st. rewrite !length_app. cbn [length]. lia.
        * simpl_st. autorewrite with newlines. rewrite (newlines_no_LF seg Hseg). lia.
      + left. split; [reflexivity|]. simpl_st.
        assert (Hne : ws ++ SLASH :: SLASH :: seg <> []) by (destruct ws; discriminate).
        pose proof (skipn_end source (offset st) _ E Hne) as He.
        rewrite length_app in He. cbn [length] in He. lia. }
  destruct (N.eqb d STAR) eqn:Hd2.
  { apply N.eqb_eq in Hd2. subst d.
    destruct (block_end_spec rest2 STAR (S (length ws + offset st)) (line st + newlines ws))
      as [(seg & r & -> & ->) | ->].
    - assert (Hadv2 : forall st', offset st' = S (S (length seg) + S (length ws + offset st)) ->
                             line st' = (line st + newlines ws + newlines (STAR :: seg))%Z ->
                             advances source st st').
      { intros st' Ho Hl.
        apply advances_intro with (seg := ws ++ [SLASH; STAR] ++ seg ++ [SLASH]) (r := r).
        - rewrite E. rewrite <- !app_assoc. reflexivity.
        - rewrite Ho, !length_app. cbn [length]. lia.
        - rewrite Hl. autorewrite with newlines. lia. }
      destruct (str_eqb _ _); repeat split; try (apply Hadv2; reflexivity); simpl_st; lia.
    - repeat split.
      apply advances_intro with (seg := ws ++ [SLASH; STAR] ++ rest2) (r := []).
      + rewrite E, app_nil_r. reflexivity.
      + simpl_st. rewrite !length_app. cbn [length]. lia.
      + simpl_st. autorewrite with newlines. lia. }
  repeat split.
  - apply advances_intro with (seg := ws ++ [SLASH]) (r := d :: rest2).
    + rewrite <- app_assoc. exact E.
    + simpl_st. rewrite length_app. cbn [length]. lia.
    + simpl_st. autorewrite with newlines. lia.
  - right. repeat split.
Qed.

(** ** The token after the loop *)

(** At a character that is no whitespace the token is that character
    and, unless it is a delimiter, the run of non-delimiters after it. *)
Lemma scan_token_spec source st c rest :
  skipn (offset st) source = c :: rest -> is_space c = false ->
  exists tok : str,
    forallb (fun c : char => negb (is_delim c)) tok = true /\
    skipn (offset st) source = (c :: tok) ++ skipn (S (length tok + offset st)) source /\
    scan_token source st
    = (Ret (Some (c :: tok)),
       let st1 := set_offset (S (length tok + offset st)) st in
       if str_eqb (c :: tok) [DQUOTE] || str_eqb (c :: tok) [SQUOTE]
       then set_stringDelim (Some (c :: tok)) st1 else st1).
Proof.
  intros E Hc. unfold scan_token.
  rewrite (charAt_skipn _ _ _ _ E), test_delim.
  assert (E1 : skipn (S (offset st)) source = rest)
    by (apply (skipn_split source (offset st) [c] rest E)).
  destruct (is_delim c) eqn:Hd.
  - exists []. split; [reflexivity|]. cbn [length Nat.add app].
    rewrite E1. split; [exact E|].
    rewrite (substring_skipn source (offset st) [c] rest E : substring _ _ (S (offset st)) = _).
    reflexivity.
  - rewrite E1.
    destruct (token_end_spec rest (S (offset st))) as (tok & rest' & -> & Htok & -> & Hs).
    exists tok. split; [exact Htok|].
    assert (E2 : skipn (offset st) source = (c :: tok) ++ rest') by exact E.
    replace (length tok + S (offset st)) with (S (length tok + offset st)) by lia.
    rewrite (skipn_split source (offset st) (c :: tok) rest' E2 :
               skipn (S (length tok + offset st)) source = _).
    split; [exact E2|].
    rewrite (substring_skipn source (offset st) (c :: tok) rest' E2 :
               substring _ _ (S (length tok + offset st)) = _).
    reflexivity.
Qed.

(** ** The whole loop *)

(** The end of the source, once reported, is where the cursor stands. *)
Lemma scan_null source n :
  forall st st',
    scan source n st = (Ret None, st') ->
    offset st' = length source /\ stack st' = stack st /\
    stringDelim st' = stringDelim st.
Proof.
  induction n as [|n IH]; intros st st' H; cbn [scan] in H; [discriminate|].
  pose proof (scan_step_spec source st) as S.
  destruct (scan_step source st) as [v st1 | e st1 | st1 | st1].
  - injection H as -> ->. destruct S as (_ & S1 & S2 & [[_ S3] | [S3 _]]);
      [auto | discriminate].
  - discriminate.
  - destruct S as (_ & S1 & S2 & _). apply IH in H as (H1 & H2 & H3).
    repeat split; congruence.
  - unfold scan_token in H. destruct (test_g _ _ _). discriminate.
Qed.

(** The loop consumes characters and counts their newlines; it leaves the
    stack alone and within [length source - offset] rounds it is done. *)
Lemma scan_spec source n :
  forall st r st',
    offset st <= length source ->
    scan source n st = (r, st') ->
    advances source st st' /\ stack st' = stack st /\
    (length source - offset st < n -> r <> Diverge).
Proof.
  induction n as [|n IH]; intros st r st' Hb H; cbn [scan] in H.
  - injection H as <- <-. repeat split; [apply advances_refl | lia].
  - pose proof (scan_step_spec source st) as S.
    destruct (scan_step source st) as [v st1 | e st1 | st1 | st1].
    + injection H as <- <-. destruct S as (S0 & S1 & _).
      repeat split; [assumption..|discriminate].
    + injection H as <- <-. destruct S as (S0 & S1 & _).
      repeat split; [assumption..|discriminate].
    + destruct S as (S0 & S1 & S2 & S3).
      pose proof (advances_bound _ _ _ S0 Hb) as Hb1.
      apply IH in H as (H0 & H1 & H2); [|lia].
      repeat split; [eapply advances_trans; eassumption | congruence |].
      intros Hn. apply H2. lia.
    + destruct S as (S0 & S1 & S2 & S3 & S4).
      pose proof (advances_bound _ _ _ S0 Hb) as Hb1.
      specialize (S4 Hb).
      destruct (skipn (offset st1) source) as [|c rest] eqn:E.
      { assert (Hl : length (skipn (offset st1) source) = 0) by (rewrite E; reflexivity).
        rewrite length_skipn in Hl. lia. }
      cbn [stops] in S3.
      destruct (scan_token_spec source st1 c rest E S3) as (tok & Htok & E2 & Htk).
      assert (Hadv : advances source st1 (set_offset (S (length tok + offset st1)) st1)).
      { apply advances_intro with (seg := c :: tok)
                                   (r := skipn (S (length tok + offset st1)) source).
        - exact E2.
        - reflexivity.
        - cbn [line set_offset newlines].
          rewrite (not_space_not_LF c S3), (newlines_token tok Htok). lia. }
      rewrite Htk in H. cbv zeta in H.
      destruct (str_eqb (c :: tok) [DQUOTE] || str_eqb (c :: tok) [SQUOTE]);
        injection H as <- <-;
        (repeat split; [eapply advances_trans; [exact S0|exact Hadv] | exact S1 | discriminate]).
Qed.

(** ** [next] *)

Lemma next_pop source st t l :
  stack st = t :: l -> next source st = (Ret (Some t), set_stack l st).
Proof. intros H. unfold next. rewrite H. reflexivity. Qed.

Lemma next_scan source st :
  stack st = [] -> reads_string st = false ->
  next source st = scan source (S (length source)) st.
Proof.
  intros Hs Hr. unfold next, reads_string in *. rewrite Hs in *.
  destruct (stringDelim st) as [[|c d]|]; [reflexivity|discriminate|reflexivity].
Qed.

Lemma next_readString source st :
  reads_string st = true ->
  exists delim, stringDelim st = Some delim /\ delim <> [] /\ stack st = [] /\
                next source st = readString source delim st.
Proof.
  unfold reads_string, next. destruct (stack st); [|discriminate].
  destruct (stringDelim st) as [[|c d]|]; try discriminate.
  intros _. exists (c :: d). repeat split. discriminate.
Qed.

(** What [readString] leaves: the line as it was, the cursor after the
    match, the delimiter on the stack and no delimiter pending. *)
Lemma readString_spec source delim st r st' :
  readString source delim st = (r, st') ->
  (r = Throw (Illegal String_ (line st)) /\ st' = st) \/
  (exists body e,
      r = Ret (Some (unescape body)) /\
      offset st - 1 + 2 <= e <= length source /\
      st' = set_stringDelim None (set_stack (stack st ++ [delim]) (set_offset e st))).
Proof.
  unfold readString.
  destruct (exec _ _ _) as [[[[b e] cap]|] li] eqn:E; intros H; injection H as <- <-.
  - right. exists (group1 cap), e.
    assert (Hq : exists q, (if str_eqb delim [SQUOTE] then stringSingleRe else stringDoubleRe)
                           = stringRe q)
      by (destruct (str_eqb delim [SQUOTE]); eexists; reflexivity).
    destruct Hq as [q Hq]. rewrite Hq in E.
    apply exec_stringRe in E as (-> & E1 & E2). repeat split; assumption.
  - left. split; reflexivity.
Qed.

(** [next] always comes back: the rounds of the loop never use up their
    bound. *)
Lemma next_returns source st : fst (next source st) <> Diverge.
Proof.
  unfold next. destruct (stack st) as [|t l]; [|discriminate].
  assert (Hscan : fst (scan source (S (length source)) st) <> Diverge).
  { destruct (Nat.le_gt_cases (offset st) (length source)) as [Hb | Hb].
    - destruct (scan source (S (length source)) st) as [r st'] eqn:E.
      apply scan_spec in E as (_ & _ & H); [apply H; lia | exact Hb].
    - cbn [scan]. unfold scan_step.
      replace (Nat.eqb (offset st) (length source)) with false
        by (symmetry; apply Nat.eqb_neq; lia).
      rewrite skipn_all2 by lia. cbn [skip_whitespace].
      unfold scan_token. destruct (test_g _ _ _). discriminate. }
  destruct (stringDelim st) as [[|c d]|]; try exact Hscan.
  destruct (readString source (c :: d) st) as [r st'] eqn:E.
  apply readString_spec in E as [[-> _] | (body & e & -> & _)]; discriminate.
Qed.

(** The end of the source is stable: the state in which [next] has
    returned [null] makes it return [null] again and stay. *)
Lemma next_null_stable source st st' :
  next source st = (Ret None, st') -> next source st' = (Ret None, st').
Proof.
  intros H.
  assert (Hs : stack st = []).
  { destruct (stack st) as [|t l] eqn:Hs; [reflexivity|].
    rewrite (next_pop source st t l Hs) in H. discriminate. }
  assert (Hr : reads_string st = false).
  { destruct (reads_string st) eqn:Hr; [|reflexivity].
    destruct (next_readString source st Hr) as (delim & _ & _ & _ & E).
    rewrite E in H.
    apply readString_spec in H as [[H _] | (body & e & H & _)]; discriminate. }
  rewrite (next_scan source st Hs Hr) in H.
  apply scan_null in H as (Ho & Hst & Hd).
  assert (Hr' : reads_string st' = false)
    by (unfold reads_string in *; rewrite Hst, Hd, Hs in *; exact Hr).
  rewrite (next_scan source st' (eq_trans Hst Hs) Hr').
  cbn [scan]. unfold scan_step. rewrite Ho, Nat.eqb_refl. reflexivity.
Qed.

Lemma next_null_stack source st st' :
  next source st = (Ret None, st') -> stack st = [].
Proof.
  intros H. destruct (stack st) as [|t l] eqn:Hs; [reflexivity|].
  rewrite (next_pop source st t l Hs) in H. discriminate.
Qed.

Lemma next_effect source st r st' :
  offset st <= length source -> next source st = (r, st') ->
  effect source (reads_string st) st st'.
Proof.
  intros Hb H. destruct (reads_string st) eqn:Hr.
  - destruct (next_readString source st Hr) as (delim & _ & _ & _ & E).
    rewrite E in H.
    apply readString_spec in H as [[_ ->] | (body & e & _ & He & ->)].
    + apply effect_same; auto.
    + split; cbn; lia.
  - destruct (stack st) as [|t l] eqn:Hs.
    + rewrite (next_scan source st Hs Hr) in H.
      apply scan_spec in H as (H & _); [|exact Hb].
      apply effect_advances; assumption.
    + rewrite (next_pop source st t l Hs) in H. injection H as <- <-.
      apply effect_same; auto.
Qed.

Lemma nexts_step source n :
  forall st,
    snd (nexts source (S n) st)
    = snd (next source (snd (nexts source n st))).
Proof.
  induction n as [|n IH]; intros st.
  - cbn [nexts snd]. destruct (next source st) as [r st1]. reflexivity.
  - remember (S n) as k. cbn [nexts]. subst k.
    destruct (next source st) as [r st1] eqn:E.
    specialize (IH st1).
    destruct (nexts source (S n) st1) as [rs st2] eqn:E2.
    cbn [snd] in *. rewrite IH.
    cbn [nexts]. rewrite E.
    destruct (nexts source n st1) as [rs' st3]. reflexivity.
Qed.

Lemma next_at_quote (pre post : str) (q : char) (st : state) :
  q = DQUOTE \/ q = SQUOTE ->
  stack st = [] -> stringDelim st = None -> offset st = length pre ->
  next (pre ++ q :: post) st
  = (Ret (Some [q]), set_stringDelim (Some [q]) (set_offset (S (length pre)) st)).
Proof.
  intros Hq Hs Hd Ho.
  assert (Hsp : is_space q = false) by (destruct Hq; subst q; reflexivity).
  assert (Hsl : N.eqb q SLASH = false) by (destruct Hq; subst q; reflexivity).
  assert (Hdl : is_delim q = true) by (destruct Hq; subst q; reflexivity).
  assert (Hr : reads_string st = false) by (unfold reads_string; rewrite Hs, Hd; reflexivity).
  assert (E : skipn (offset st) (pre ++ q :: post) = q :: post)
    by (rewrite Ho; apply skipn_prefix).
  rewrite (next_scan _ st Hs Hr). cbn [scan]. unfold scan_step.
  replace (Nat.eqb (offset st) _) with false
    by (symmetry; apply Nat.eqb_neq; rewrite Ho, length_app; cbn [length]; lia).
  rewrite E. cbn [skip_whitespace]. rewrite test_whitespace, Hsp, Hsl.
  assert (Hat : at_pos (offset st) (line st) st = st) by (destruct st; reflexivity).
  rewrite Hat. unfold scan_token.
  rewrite (charAt_skipn _ _ _ _ E), test_delim, Hdl.
  rewrite (substring_skipn _ (offset st) [q] post E : substring _ _ (S (offset st)) = _).
  rewrite Ho. destruct Hq; subst q; reflexivity.
Qed.

(** ** [peek] and [skip] *)

Lemma peek_buffered source st t l :
  stack st = t :: l -> peek source st = (Ret (Some t), st).
Proof. intros H. unfold peek. rewrite H. reflexivity. Qed.

Lemma peek_empty source st :
  stack st = [] ->
  peek source st =
  match next source st with
  | (Ret (Some t), st') =>
      (Ret (hd_error (stack st' ++ [t])), set_stack (stack st' ++ [t]) st')
  | other => other
  end.
Proof.
  intros H. unfold peek, bind, ret, push. rewrite H.
  destruct (next source st) as [[[t|]| e |] st']; reflexivity.
Qed.

(** A token that [peek] reports is the first of the stack. *)
Lemma peek_some source st t st' :
  peek source st = (Ret (Some t), st') -> exists l, stack st' = t :: l.
Proof.
  intros H. destruct (stack st) as [|t0 l] eqn:Hs.
  - rewrite (peek_empty source st Hs) in H.
    destruct (next source st) as [[[t1|]| e |] st1]; try discriminate.
    injection H as H <-. cbn [stack set_stack].
    destruct (stack st1 ++ [t1]) as [|x l] eqn:E; [discriminate|].
    injection H as ->. exists l. reflexivity.
  - rewrite (peek_buffered source st t0 l Hs) in H. injection H as <- <-.
    exists l. exact Hs.
Qed.

(** When [peek] reports the end, [next] has just reported it. *)
Lemma peek_none source st st' :
  peek source st = (Ret None, st') ->
  stack st = [] /\ next source st = (Ret None, st').
Proof.
  intros H. destruct (stack st) as [|t0 l] eqn:Hs.
  - split; [reflexivity|]. rewrite (peek_empty source st Hs) in H.
    destruct (next source st) as [[[t1|]| e |] st1]; try discriminate.
    + injection H as H _. destruct (stack st1); discriminate.
    + exact H.
  - rewrite (peek_buffered source st t0 l Hs) in H. discriminate.
Qed.

(** [peek] is idempotent: what it has reported it reports again, and the
    second call changes nothing. *)
Lemma peek_again source st a st' :
  peek source st = (Ret a, st') -> peek source st' = (Ret a, st').
Proof.
  intros H. destruct a as [t|].
  - apply peek_some in H as [l H]. exact (peek_buffered source st' t l H).
  - apply peek_none in H as [_ H]. apply next_null_stable in H.
    rewrite (peek_empty source st' (next_null_stack source st' st' H)), H.
    reflexivity.
Qed.

(** [next] after [peek] returns the token [peek] reported. *)
Lemma peek_then_next source st a st' :
  peek source st = (Ret a, st') -> fst (next source st') = Ret a.
Proof.
  intros H. destruct a as [t|].
  - apply peek_some in H as [l H]. rewrite (next_pop source st' t l H). reflexivity.
  - apply peek_none in H as [_ H]. apply next_null_stable in H. rewrite H. reflexivity.
Qed.

(** Outside a pending string, [peek] is transparent: [next] after it
    does what [next] would have done without it. *)
Lemma peek_transparent source st a st1 :
  offset st <= length source -> reads_string st = false ->
  peek source st = (Ret a, st1) -> next source st1 = next source st.
Proof.
  intros Hb Hr Hp. destruct (stack st) as [|t0 l] eqn:Hs.
  - rewrite (peek_empty source st Hs) in Hp.
    destruct (next source st) as [[[t|]| e |] st'] eqn:E; try discriminate.
    + injection Hp as _ <-.
      rewrite (next_scan source st Hs Hr) in E.
      apply scan_spec in E as (_ & Hst & _); [|exact Hb].
      rewrite Hst, Hs. cbn [app]. unfold next. cbn [stack set_stack].
      rewrite Hs in Hst. destruct st' as [o ln ct cx cl sk sd].
      cbn [stack] in Hst. subst sk. reflexivity.
    + injection Hp as _ <-. exact (next_null_stable source st st' E).
  - rewrite (peek_buffered source st t0 l Hs) in Hp. injection Hp as _ <-.
    reflexivity.
Qed.

Lemma peek_effect source st r st' :
  offset st <= length source -> peek source st = (r, st') ->
  effect source (reads_string st) st st'.
Proof.
  intros Hb H. destruct (stack st) as [|t0 l] eqn:Hs.
  - rewrite (peek_empty source st Hs) in H.
    destruct (next source st) as [r1 st1] eqn:E.
    apply next_effect in E; [|exact Hb].
    destruct r1 as [[t|]| e |]; injection H as <- <-; exact E.
  - rewrite (peek_buffered source st t0 l Hs) in H. injection H as <- <-.
    apply effect_same; auto.
Qed.

(** The operations built on [next] come back as well. *)
Lemma peek_returns source st : fst (peek source st) <> Diverge.
Proof.
  destruct (stack st) as [|t l] eqn:Hs.
  - rewrite (peek_empty source st Hs).
    pose proof (next_returns source st) as H.
    destruct (next source st) as [[[t|]| e |] st']; cbn [fst] in *;
      try discriminate. exact H.
  - rewrite (peek_buffered source st t l Hs). discriminate.
Qed.

(** What [skip] does, from what [peek] reports. *)
Lemma skip_spec source expected optional st :
  skip source expected optional st =
  match peek source st with
  | (Ret actual, st1) =>
      if opt_str_eqb actual (Some expected) then
        (Ret true, set_stack (tl (stack st1)) st1)
      else if optional then (Ret false, st1)
      else (Throw (Illegal (Token actual expected) (line st1)), st1)
  | (Throw e, st1) => (Throw e, st1)
  | (Diverge, st1) => (Diverge, st1)
  end.
Proof.
  unfold skip, bind. destruct (peek source st) as [[a| e |] st1] eqn:E; try reflexivity.
  destruct (opt_str_eqb a (Some expected)) eqn:Ha.
  - destruct a as [t|]; [|discriminate].
    apply peek_some in E as [l E]. rewrite (next_pop source st1 t l E), E. reflexivity.
  - destruct optional; reflexivity.
Qed.

Lemma skip_effect source expected optional st :
  offset st <= length source ->
  effect source (reads_string st) st (snd (skip source expected optional st)).
Proof.
  intros Hb. rewrite skip_spec.
  destruct (peek source st) as [r st1] eqn:E.
  apply peek_effect in E; [|exact Hb].
  destruct r as [a| e |]; cbn [snd]; try exact E.
  destruct (opt_str_eqb a (Some expected)); [|destruct optional]; exact E.
Qed.

Lemma skip_returns source expected optional st :
  fst (skip source expected optional st) <> Diverge.
Proof.
  rewrite skip_spec. pose proof (peek_returns source st) as H.
  destruct (peek source st) as [[a| e |] st1]; cbn [fst] in *;
    try discriminate; [|congruence].
  destruct (opt_str_eqb a (Some expected)); [|destruct optional]; discriminate.
Qed.

(** ** [cmnt] *)

Lemma cmnt_no_argument source st :
  cmnt source None st =
  let r := and_or_null (Z.eqb (commentLine st) (line st - 1)) (commentText st) in
  if truthy r then (Ret r, set_comment None None 0 st) else (Ret r, st).
Proof.
  unfold cmnt, bind, ret. cbv zeta.
  destruct (truthy (and_or_null _ _)); reflexivity.
Qed.

Lemma cmnt_with_argument source tl st :
  cmnt source (Some tl) st =
  match (if negb (truthy (commentText st)) then peek source st
         else (Ret None, st)) with
  | (Ret _, st1) =>
      let r := and_or_null (Z.eqb (commentLine st1) tl
                            && opt_str_eqb (commentType st1) (Some [SLASH]))
                           (commentText st1) in
      if truthy r then (Ret r, set_comment None None 0 st1) else (Ret r, st1)
  | (Throw e, st1) => (Throw e, st1)
  | (Diverge, st1) => (Diverge, st1)
  end.
Proof.
  unfold cmnt, bind, ret. cbv zeta.
  destruct (negb (truthy (commentText st))).
  - destruct (peek source st) as [[a| e |] st1]; try reflexivity.
    destruct (truthy (and_or_null _ _)); reflexivity.
  - destruct (truthy (and_or_null _ _)); reflexivity.
Qed.

Lemma and_or_null_some cond v r :
  and_or_null cond v = Some r -> v = Some r /\ r <> [] /\ cond = true.
Proof.
  unfold and_or_null. destruct cond; [|discriminate].
  destruct v as [[|c t]|]; cbn; try discriminate.
  intros H. injection H as <-. repeat split. discriminate.
Qed.

(** A result of [cmnt] that is not [null] leaves the comment slot empty. *)
Lemma cmnt_some_clears source tl st r st' :
  cmnt source tl st = (Ret (Some r), st') ->
  commentType st' = None /\ commentText st' = None /\ commentLine st' = 0%Z.
Proof.
  destruct tl as [tl|].
  - rewrite cmnt_with_argument.
    destruct (if negb (truthy (commentText st)) then peek source st else (Ret None, st))
      as [[a| e |] st1]; try discriminate.
    cbv zeta. destruct (truthy _) eqn:E.
    + intros H. injection H as _ <-. repeat split.
    + intros H. injection H as H _. rewrite H in E. cbn in E.
      apply and_or_null_some in H as (_ & H & _). destruct r; [congruence|discriminate].
  - rewrite cmnt_no_argument. cbv zeta. destruct (truthy _) eqn:E.
    + intros H. injection H as _ <-. repeat split.
    + intros H. injection H as H _. rewrite H in E. cbn in E.
      apply and_or_null_some in H as (_ & H & _). destruct r; [congruence|discriminate].
Qed.

Lemma cmnt_effect source tl st :
  offset st <= length source ->
  effect source (op_reads_string (OpCmnt tl) st) st (snd (cmnt source tl st)).
Proof.
  intros Hb. destruct tl as [tl|]; cbn [op_reads_string].
  - rewrite cmnt_with_argument.
    destruct (negb (truthy (commentText st))); cbn [andb].
    + destruct (peek source st) as [r st1] eqn:E.
      apply peek_effect in E; [|exact Hb].
      destruct r as [a| e |]; try exact E. cbv zeta.
      destruct (truthy _); exact E.
    + cbv zeta. destruct (truthy _); apply effect_same; auto.
  - rewrite cmnt_no_argument. cbv zeta.
    destruct (truthy _); apply effect_same; auto.
Qed.

Lemma cmnt_returns source tl st : fst (cmnt source tl st) <> Diverge.
Proof.
  destruct tl as [tl|].
  - rewrite cmnt_with_argument. pose proof (peek_returns source st) as H.
    destruct (negb (truthy (commentText st))).
    + destruct (peek source st) as [[a| e |] st1]; cbn [fst] in *;
        try discriminate; [|congruence].
      cbv zeta. destruct (truthy _); discriminate.
    + cbv zeta. destruct (truthy _); discriminate.
  - rewrite cmnt_no_argument. cbv zeta. destruct (truthy _); discriminate.
Qed.

(** ** Sequences of operations *)

(** Every operation moves the cursor forward within the source and adds
    to the line the newlines it passes, those read by [readString] apart. *)
Lemma run_op_effect source o st :
  offset st <= length source ->
  effect source (op_reads_string o st) st (run_op source o st).
Proof.
  intros Hb. destruct o as [| | t | e o | | tl]; cbn [run_op op_reads_string].
  - destruct (next source st) as [r st'] eqn:E. exact (next_effect source st r st' Hb E).
  - destruct (peek source st) as [r st'] eqn:E. exact (peek_effect source st r st' Hb E).
  - apply effect_same; auto.
  - apply skip_effect. exact Hb.
  - apply effect_same; auto.
  - apply cmnt_effect. exact Hb.
Qed.

Lemma run_lines source ops :
  forall st,
    offset st <= length source ->
    offset st <= offset (run source ops st) <= length source /\
    line (run source ops st)
    = (line st + newlines (substring source (offset st) (offset (run source ops st)))
       - string_newlines source ops st)%Z.
Proof.
  induction ops as [|o ops IH]; intros st Hb.
  - cbn [run fold_left string_newlines]. split; [lia|].
    unfold substring. rewrite Nat.min_id, Nat.max_id, Nat.sub_diag. cbn. lia.
  - change (run source (o :: ops) st) with (run source ops (run_op source o st)).
    cbn [string_newlines].
    destruct (run_op_effect source o st Hb) as [Ho Hl].
    destruct (IH (run_op source o st)) as [Ho' Hl']; [lia|].
    split; [lia|].
    rewrite (substring_plus source (offset st) (offset (run_op source o st))) by lia.
    rewrite newlines_app, Hl', Hl.
    destruct (op_reads_string o st); lia.
Qed.

(** ** Sources without quotes *)

Lemma skipn_head_in (s : str) o c r : skipn o s = c :: r -> In c s.
Proof.
  intros H. rewrite <- (firstn_skipn o s), H. apply in_or_app. right. left.
  reflexivity.
Qed.

Lemma scan_token_unquoted source st c rest :
  forallb no_quote source = true ->
  skipn (offset st) source = c :: rest -> is_space c = false ->
  stringDelim (snd (scan_token source st)) = stringDelim st.
Proof.
  intros Hq E Hc.
  destruct (scan_token_spec source st c rest E Hc) as (tok & _ & _ & ->).
  cbn [snd]. cbv zeta.
  assert (Hn : no_quote c = true).
  { rewrite forallb_forall in Hq. apply Hq. exact (skipn_head_in _ _ _ _ E). }
  unfold no_quote in Hn. apply negb_true_iff, orb_false_iff in Hn as [H1 H2].
  cbn [str_eqb]. rewrite H1, H2. reflexivity.
Qed.

Lemma scan_unquoted source n :
  forallb no_quote source = true ->
  forall st, offset st <= length source ->
             stringDelim (snd (scan source n st)) = stringDelim st.
Proof.
  intros Hq. induction n as [|n IH]; intros st Hb; [reflexivity|].
  cbn [scan]. pose proof (scan_step_spec source st) as S.
  destruct (scan_step source st) as [v st1 | e st1 | st1 | st1].
  - destruct S as (_ & _ & S & _). exact S.
  - destruct S as (_ & _ & S & _). exact S.
  - destruct S as (S0 & _ & S & _). rewrite IH; [exact S|].
    apply (advances_bound _ _ _ S0 Hb).
  - destruct S as (S0 & _ & S & S3 & S4). specialize (S4 Hb).
    destruct (skipn (offset st1) source) as [|c rest] eqn:E.
    { assert (Hl : length (skipn (offset st1) source) = 0) by (rewrite E; reflexivity).
      rewrite length_skipn in Hl. lia. }
    rewrite (scan_token_unquoted source st1 c rest Hq E S3). exact S.
Qed.

(** In a source without quote characters no string is ever pending. *)
Lemma run_op_unquoted source o st :
  forallb no_quote source = true ->
  offset st <= length source -> stringDelim st = None ->
  stringDelim (run_op source o st) = None.
Proof.
  intros Hq Hb Hd.
  assert (Hr : reads_string st = false)
    by (unfold reads_string; rewrite Hd; destruct (stack st); reflexivity).
  assert (Hnext : stringDelim (snd (next source st)) = None).
  { destruct (stack st) as [|t l] eqn:Hs.
    - rewrite (next_scan source st Hs Hr), scan_unquoted; assumption.
    - rewrite (next_pop source st t l Hs). exact Hd. }
  assert (Hpeek : stringDelim (snd (peek source st)) = None).
  { destruct (stack st) as [|t l] eqn:Hs.
    - rewrite (peek_empty source st Hs).
      destruct (next source st) as [[[t|]| e |] st']; exact Hnext.
    - rewrite (peek_buffered source st t l Hs). exact Hd. }
  destruct o as [| | t | e o | | tl]; cbn [run_op].
  - exact Hnext.
  - exact Hpeek.
  - exact Hd.
  - rewrite skip_spec. destruct (peek source st) as [[a| e' |] st1];
      cbn [snd] in *; try exact Hpeek.
    destruct (opt_str_eqb a (Some e)); [|destruct o]; exact Hpeek.
  - exact Hd.
  - destruct tl as [tl|].
    + rewrite cmnt_with_argument. destruct (negb (truthy (commentText st))).
      * destruct (peek source st) as [[a| e' |] st1]; cbn [snd] in *;
          try exact Hpeek.
        cbv zeta. destruct (truthy _); exact Hpeek.
      * cbv zeta. destruct (truthy _); exact Hd.
    + rewrite cmnt_no_argument. cbv zeta. destruct (truthy _); exact Hd.
Qed.

Lemma string_newlines_unquoted source ops :
  forallb no_quote source = true ->
  forall st, offset st <= length source -> stringDelim st = None ->
             string_newlines source ops st = 0%Z.
Proof.
  intros Hq. induction ops as [|o ops IH]; intros st Hb Hd; [reflexivity|].
  cbn [string_newlines].
  assert (Hr : op_reads_string o st = false).
  { assert (reads_string st = false)
      by (unfold reads_string; rewrite Hd; destruct (stack st); reflexivity).
    destruct o as [| | t | e o | | [tl|]]; cbn [op_reads_string];
      rewrite ?H, ?andb_false_r; reflexivity. }
  rewrite Hr, IH; [reflexivity | | apply run_op_unquoted; assumption].
  pose proof (run_op_effect source o st Hb) as [Ho _]. lia.
Qed.

(** For a source without quote characters the line counter is exact:
    after any sequence of operations on a fresh tokenizer, [line()] is 1
    plus the newlines among the characters consumed so far. *)
Lemma line_exact_unquoted (source : str) (ops : list op) :
  forallb no_quote source = true ->
  line (run source ops init)
  = (1 + newlines (firstn (offset (run source ops init)) source))%Z.
Proof.
  intros Hq. destruct (run_lines source ops init) as [Ho Hl]; [cbn; lia|].
  rewrite (string_newlines_unquoted source ops Hq init) in Hl;
    [|cbn; lia|reflexivity].
  cbn [offset line init] in Ho, Hl. rewrite Hl. unfold substring.
  cbn [Nat.min Nat.max skipn].
  rewrite Nat.sub_0_r, (Nat.min_l _ _ (proj2 Ho)). lia.
Qed.

(** ** The pushback queue *)

(** Pushed tokens come back first, oldest first, before any scanning. *)
Lemma nexts_drain source (l : list str) :
  forall st,
    stack st = l ->
    nexts source (length l) st
    = (map (fun t => Ret (Some t)) l, set_stack [] st).
Proof.
  induction l as [|t l IH]; intros st Hs.
  - cbn [nexts length map]. f_equal. destruct st; cbn in Hs; subst; reflexivity.
  - cbn [nexts length map]. rewrite (next_pop source st t l Hs).
    rewrite (IH (set_stack l st) eq_refl). reflexivity.
Qed.

Lemma push_then_next source t st :
  stack st = [] -> next source (snd (push t st)) = (Ret (Some t), st).
Proof.
  intros Hs. unfold push. cbn [snd]. unfold next. cbn [stack set_stack].
  rewrite Hs. cbn [app]. f_equal.
  destruct st; cbn in Hs; subst; reflexivity.
Qed.

(** ** Worked examples *)

Example tokens_of_message :
  fst (nexts (js "message X { a = 1; }") 9 init)
  = map (fun t => Ret (Some (js t)))
        ["message"; "X"; "{"; "a"; "="; "1"; ";"; "}"]%string
    ++ [Ret None].
Proof. vm_compute. reflexivity. Qed.

Example plain_comment_not_captured :
  let source := js "// plain comment" ++ LF :: js "foo" in
  let st := snd (next source init) in
  fst (next source init) = Ret (Some (js "foo")) /\
  commentText st = None /\ fst (cmnt source None st) = Ret None.
Proof. cbv zeta. repeat split; vm_compute; reflexivity. Qed.

Example trailing_comment_found :
  let source := js "foo; /// about foo" ++ LF :: js "bar" in
  let st := snd (nexts source 2 init) in
  fst (nexts source 2 init) = [Ret (Some (js "foo")); Ret (Some (js ";"))] /\
  line st = 1%Z /\
  fst (cmnt source (Some 1%Z) st) = Ret (Some (js "about foo")).
Proof. cbv zeta. repeat split; vm_compute; reflexivity. Qed.

Example block_comment_normalized :
  let source := js "/**" ++ LF :: js " * one" ++ LF :: js " * two" ++ LF
                :: js " */" ++ LF :: js "x" in
  let st := snd (next source init) in
  fst (next source init) = Ret (Some (js "x")) /\
  commentType st = Some [STAR] /\
  commentText st = Some (js "one" ++ LF :: js "two") /\
  commentLine st = 4%Z /\ line st = 5%Z /\
  fst (cmnt source None st) = Ret (Some (js "one" ++ LF :: js "two")).
Proof. cbv zeta. repeat split; vm_compute; reflexivity. Qed.

Example unescape_known_and_unknown :
  unescape (js "a\nb\tc\\d\qe") = js "a" ++ LF :: js "b" ++ TAB :: js "c\de".
Proof. vm_compute. reflexivity. Qed.

Example unterminated_block_comment :
  fst (next (js "x /* never closed") (set_offset 1 init))
  = Throw (Illegal Comment 1).
Proof. vm_compute. reflexivity. Qed.

Example unterminated_string :
  fst (nexts (SQUOTE :: js "abc") 2 init)
  = [Ret (Some [SQUOTE]); Throw (Illegal String_ 1)].
Proof. vm_compute. reflexivity. Qed.

(** * Further properties

    What the code shows besides the statements of the specification, which
    come last. *)

(** ** The pushback queue and [peek] *)

Lemma pushes_stack ts : forall st, pushes ts st = set_stack (stack st ++ ts) st.
Proof.
  induction ts as [|t ts IH]; intros st.
  - cbn [pushes fold_left]. rewrite app_nil_r. destruct st; reflexivity.
  - change (pushes (t :: ts) st) with (pushes ts (snd (push t st))).
    rewrite IH. unfold push. cbn [snd stack set_stack]. rewrite <- app_assoc.
    reflexivity.
Qed.

(** X1: tokens pushed back with [push] are returned by [next] first in,
    first out, behind the tokens already waiting on the stack and before
    anything is scanned; once they are drained the state is the one before
    the pushes, with an empty stack. *)
Theorem pushback_fifo (source : str) (ts : list str) (st : state) :
  nexts source (length (stack st ++ ts)) (pushes ts st)
  = (map (fun t => Ret (Some t)) (stack st ++ ts), set_stack [] st).
Proof.
  rewrite pushes_stack.
  rewrite (nexts_drain source (stack st ++ ts) (set_stack (stack st ++ ts) st) eq_refl).
  reflexivity.
Qed.

(** X2: [peek] and the [next] after it agree in every state: what [peek]
    has reported it reports again without changing the state, and the next
    call of [next] returns that very token.  When no string is pending,
    [next] after [peek] does exactly what [next] would have done without the
    [peek], result and state. *)
Theorem peek_then_next_agree (source : str) (st : state) (a : option str)
        (st' : state) :
  peek source st = (Ret a, st') ->
  peek source st' = (Ret a, st') /\
  fst (next source st') = Ret a /\
  (offset st <= length source -> reads_string st = false ->
   next source st' = next source st).
Proof.
  intros H. split; [|split].
  - exact (peek_again source st a st' H).
  - exact (peek_then_next source st a st' H).
  - intros Hb Hr. exact (peek_transparent source st a st' Hb Hr H).
Qed.

Lemma peek_then_next_agree_witness :
  let source := js "a b" in
  let st' := snd (peek source init) in
  peek source st' = (Ret (Some (js "a")), st') /\
  fst (next source st') = Ret (Some (js "a")) /\
  next source st' = next source init.
Proof.
  cbv zeta.
  destruct (peek_then_next_agree (js "a b") init (Some (js "a"))
              (snd (peek (js "a b") init)) eq_refl) as (H1 & H2 & H3).
  split; [exact H1|]. split; [exact H2|].
  apply H3; [cbn; lia | reflexivity].
Defined.

(** ** Termination, cursor and line *)

(** X3: every operation comes back: in whatever state and on whatever
    source, [next], [peek], [skip] and [cmnt] return or throw.  The loop of
    [next] never uses up its rounds, since every round that repeats has
    consumed a comment. *)
Theorem operations_come_back (source : str) (st : state) :
  fst (next source st) <> Diverge /\
  fst (peek source st) <> Diverge /\
  (forall expected optional, fst (skip source expected optional st) <> Diverge) /\
  (forall trailingLine, fst (cmnt source trailingLine st) <> Diverge).
Proof.
  split; [apply next_returns|]. split; [apply peek_returns|].
  split; [intros; apply skip_returns | intros; apply cmnt_returns].
Qed.

Lemma newlines_nonneg s : (0 <= newlines s)%Z.
Proof.
  induction s as [|c s IH]; cbn [newlines]; [lia|].
  destruct (N.eqb c LF); lia.
Qed.

(** X4: no sequence of operations moves the cursor backward or past the
    end of the source, and none lowers the line counter. *)
Theorem cursor_and_line_monotone (source : str) (ops : list op) :
  forall st : state,
    offset st <= length source ->
    offset st <= offset (run source ops st) <= length source /\
    (line st <= line (run source ops st))%Z.
Proof.
  induction ops as [|o ops IH]; intros st Hb.
  - cbn [run fold_left]. lia.
  - change (run source (o :: ops) st) with (run source ops (run_op source o st)).
    destruct (run_op_effect source o st Hb) as [Ho Hl].
    destruct (IH (run_op source o st)) as [Ho' Hl']; [lia|].
    split; [lia|].
    pose proof (newlines_nonneg
                  (substring source (offset st) (offset (run_op source o st)))).
    destruct (op_reads_string o st); lia.
Qed.

Lemma cursor_and_line_monotone_witness :
  let source := js "a" ++ LF :: js "b" in
  let ops := [OpNext; OpPeek; OpSkip (js "b") false; OpCmnt None; OpNext] in
  let st := set_offset 1 init in
  offset st <= offset (run source ops st) <= length source /\
  (line st <= line (run source ops st))%Z.
Proof.
  cbv zeta.
  apply (cursor_and_line_monotone (js "a" ++ LF :: js "b")
           [OpNext; OpPeek; OpSkip (js "b") false; OpCmnt None; OpNext]
           (set_offset 1 init)).
  cbn. lia.
Defined.

Lemma run_unquoted source ops :
  forallb no_quote source = true ->
  forall st, offset st <= length source -> stringDelim st = None ->
             stringDelim (run source ops st) = None.
Proof.
  intros Hq. induction ops as [|o ops IH]; intros st Hb Hd; [exact Hd|].
  change (run source (o :: ops) st) with (run source ops (run_op source o st)).
  apply IH; [|apply run_op_unquoted; assumption].
  pose proof (run_op_effect source o st Hb) as [Ho _]. lia.
Qed.

(** X5: on a source without quote characters no string is ever pending
    and the line counter is exact: after any sequence of operations on a
    fresh tokenizer, [line()] is 1 plus the number of newlines among the
    characters consumed so far. *)
Theorem line_exact_without_quotes (source : str) (ops : list op) :
  forallb no_quote source = true ->
  let st := run source ops init in
  line st = (1 + newlines (firstn (offset st) source))%Z /\
  stringDelim st = None.
Proof.
  intros Hq. cbv zeta. split.
  - exact (line_exact_unquoted source ops Hq).
  - apply run_unquoted; [exact Hq | cbn; lia | reflexivity].
Qed.

Lemma line_exact_without_quotes_witness :
  let source := js "a" ++ LF :: js "// c" ++ LF :: js "b /* d" ++ LF :: js "*/ e" in
  let st := run source [OpNext; OpPeek; OpSkip (js "b") false; OpNext] init in
  line st = (1 + newlines (firstn (offset st) source))%Z /\
  stringDelim st = None.
Proof.
  cbv zeta.
  apply (line_exact_without_quotes
           (js "a" ++ LF :: js "// c" ++ LF :: js "b /* d" ++ LF :: js "*/ e")
           [OpNext; OpPeek; OpSkip (js "b") false; OpNext]).
  reflexivity.
Defined.

(** ** The end of the source and the errors of the scanner *)

(** A round that throws has read the source to its end. *)
Lemma scan_step_throw source st e st' :
  scan_step source st = StepThrow e st' -> offset st' = length source.
Proof.
  unfold scan_step.
  destruct (Nat.eqb (offset st) (length source)); [discriminate|].
  destruct (skip_whitespace_spec (skipn (offset st) source) (offset st) (line st))
    as (ws & rest' & E & Hws & [(-> & Hstop & Hnil) | (-> & -> & Hne)]);
    [|discriminate].
  destruct rest' as [|c rest1]; [discriminate|].
  destruct (N.eqb c SLASH) eqn:Hc; [|discriminate].
  destruct rest1 as [|d rest2].
  { intros H. injection H as _ <-. simpl_st.
    assert (Hne : ws ++ [c] <> []) by (destruct ws; discriminate).
    pose proof (skipn_end source (offset st) _ E Hne) as He.
    rewrite length_app in He. cbn [length] in He. lia. }
  destruct (N.eqb d SLASH).
  { destruct (line_end _ _) as [[|] off2]; discriminate. }
  destruct (N.eqb d STAR); [|discriminate].
  destruct (block_end_spec rest2 d (S (length ws + offset st)) (line st + newlines ws))
    as [(seg & r & -> & ->) | ->].
  - destruct (str_eqb _ _); discriminate.
  - intros H. injection H as _ <-. simpl_st.
    assert (Hne : ws ++ c :: d :: rest2 <> []) by (destruct ws; discriminate).
    pose proof (skipn_end source (offset st) _ E Hne) as He.
    rewrite length_app in He. cbn [length] in He. lia.
Qed.

(** The loop throws "illegal comment" only, and at the end of the source. *)
Lemma scan_throw source n :
  forall st e st',
    scan source n st = (Throw e, st') ->
    e = Illegal Comment (line st') /\ offset st' = length source /\
    stack st' = stack st /\ stringDelim st' = stringDelim st.
Proof.
  induction n as [|n IH]; intros st e st' H; cbn [scan] in H; [discriminate|].
  pose proof (scan_step_spec source st) as S.
  destruct (scan_step source st) as [v st1 | e1 st1 | st1 | st1] eqn:E.
  - discriminate.
  - injection H as -> ->. destruct S as (_ & S1 & S2 & S3).
    repeat split; try assumption. exact (scan_step_throw source st e st' E).
  - destruct S as (_ & S1 & S2 & _). apply IH in H as (H0 & H1 & H2 & H3).
    repeat split; congruence.
  - unfold scan_token in H. destruct (test_g _ _ _). discriminate.
Qed.

Lemma nexts_repeat source r st :
  next source st = (r, st) ->
  forall n, nexts source n st = (repeat r n, st).
Proof.
  intros H n. induction n as [|n IH]; [reflexivity|].
  cbn [nexts repeat]. rewrite H, IH. reflexivity.
Qed.

(** X6: [next] returns [null] at the end of the source only: when it
    does, the cursor stands at the length of the source, nothing is buffered
    and no string is pending, and what it has passed on the way are
    characters of the source with their newlines counted. *)
Theorem null_only_at_end (source : str) (st st' : state) :
  next source st = (Ret None, st') ->
  offset st' = length source /\ stack st' = [] /\ reads_string st' = false /\
  (offset st <= length source -> advances source st st').
Proof.
  intros H.
  assert (Hs : stack st = []) by exact (next_null_stack source st st' H).
  assert (Hr : reads_string st = false).
  { destruct (reads_string st) eqn:Hr; [|reflexivity].
    destruct (next_readString source st Hr) as (delim & _ & _ & _ & E).
    rewrite E in H.
    apply readString_spec in H as [[H _] | (body & e & H & _)]; discriminate. }
  rewrite (next_scan source st Hs Hr) in H.
  pose proof H as H'.
  apply scan_null in H as (Ho & Hst & Hd).
  repeat split; [exact Ho | congruence | |].
  - unfold reads_string in *. rewrite Hst, Hd, Hs in *. exact Hr.
  - intros Hb. apply scan_spec in H' as (Hadv & _); assumption.
Qed.

Lemma null_only_at_end_witness :
  let source := js "a  // rest" in
  let st := snd (next source init) in
  let st' := snd (next source st) in
  offset st' = length source /\ stack st' = [] /\ reads_string st' = false /\
  (offset st <= length source -> advances source st st').
Proof.
  cbv zeta.
  apply (null_only_at_end (js "a  // rest") (snd (next (js "a  // rest") init))).
  vm_compute. reflexivity.
Defined.

(** X7: when [next] throws "illegal comment" the source has been read to
    its end: the line of the message is the line counter, the cursor stands
    at the length of the source, and the next call of [next] returns
    [null]. *)
Theorem illegal_comment_ends_input (source : str) (st : state) (l : Z) (st' : state) :
  next source st = (Throw (Illegal Comment l), st') ->
  l = line st' /\ offset st' = length source /\
  next source st' = (Ret None, st').
Proof.
  intros H.
  assert (Hs : stack st = []).
  { destruct (stack st) as [|t ts] eqn:Hs; [reflexivity|].
    rewrite (next_pop source st t ts Hs) in H. discriminate. }
  assert (Hr : reads_string st = false).
  { destruct (reads_string st) eqn:Hr; [|reflexivity].
    destruct (next_readString source st Hr) as (delim & _ & _ & _ & E).
    rewrite E in H.
    apply readString_spec in H as [[H _] | (body & e & H & _)]; discriminate. }
  rewrite (next_scan source st Hs Hr) in H.
  apply scan_throw in H as (He & Ho & Hst & Hd).
  injection He as ->. repeat split; [exact Ho|].
  assert (Hr' : reads_string st' = false)
    by (unfold reads_string in *; rewrite Hst, Hd, Hs in *; exact Hr).
  rewrite (next_scan source st' (eq_trans Hst Hs) Hr').
  cbn [scan]. unfold scan_step. rewrite Ho, Nat.eqb_refl. reflexivity.
Qed.

Lemma illegal_comment_ends_input_witness :
  let source := js "x /* open" ++ LF :: js "still open" in
  let st' := snd (next source (set_offset 1 init)) in
  2%Z = line st' /\ offset st' = length source /\
  next source st' = (Ret None, st').
Proof.
  cbv zeta.
  apply (illegal_comment_ends_input (js "x /* open" ++ LF :: js "still open")
           (set_offset 1 init)).
  vm_compute. reflexivity.
Defined.

(** X8: "illegal string" is final.  [next] throws it only from
    [readString], with the current line, and leaves the state as it was, the
    pending delimiter included: every further call of [next] throws the same
    error. *)
Theorem illegal_string_persists (source : str) (st : state) (l : Z) (st' : state) :
  next source st = (Throw (Illegal String_ l), st') ->
  st' = st /\ l = line st /\ reads_string st = true /\
  forall n, nexts source n st = (repeat (Throw (Illegal String_ l)) n, st).
Proof.
  intros H.
  assert (Hr : reads_string st = true).
  { destruct (reads_string st) eqn:Hr; [reflexivity|].
    destruct (stack st) as [|t ts] eqn:Hs.
    - rewrite (next_scan source st Hs Hr) in H.
      apply scan_throw in H as (H & _). discriminate.
    - rewrite (next_pop source st t ts Hs) in H. discriminate. }
  destruct (next_readString source st Hr) as (delim & _ & _ & _ & E).
  pose proof H as H'. rewrite E in H'.
  apply readString_spec in H' as [[H1 H2] | (body & e & H1 & _)]; [|discriminate].
  injection H1 as ->. subst st'.
  repeat split; try assumption.
  apply nexts_repeat. exact H.
Qed.

Lemma illegal_string_persists_witness :
  let source := SQUOTE :: js "abc" in
  let st := snd (next source init) in
  nexts source 3 st = (repeat (Throw (Illegal String_ 1)) 3, st).
Proof.
  cbv zeta.
  apply (illegal_string_persists (SQUOTE :: js "abc")
           (snd (next (SQUOTE :: js "abc") init)) 1
           (snd (next (SQUOTE :: js "abc") init))).
  vm_compute. reflexivity.
Defined.

(** ** The escape decoder, continued *)

Lemma decode_escape_length d : length (decode_escape d) <= 1.
Proof.
  unfold decode_escape. destruct (N.eqb d BACKSLASH); [cbn; lia|].
  destruct (escape_table d); cbn; lia.
Qed.

Lemma unescape_ref_length n :
  forall s, length s <= n -> length (unescape_ref s) <= length s.
Proof.
  induction n as [|n IH]; intros s Hn.
  - destruct s; [cbn; lia | cbn in Hn; lia].
  - destruct s as [|c s]; [cbn; lia|]. cbn [unescape_ref]. cbn [length] in Hn.
    destruct (N.eqb c BACKSLASH).
    + destruct s as [|d s]; [cbn; lia|]. cbn [length] in Hn.
      assert (H : length (unescape_ref s) <= length s) by (apply IH; lia).
      destruct (is_line_terminator d); cbn [length].
      * lia.
      * rewrite length_app. pose proof (decode_escape_length d). lia.
    + cbn [length]. assert (H : length (unescape_ref s) <= length s) by (apply IH; lia).
      lia.
Qed.

Lemma unescape_ref_plain s :
  forallb no_backslash s = true -> unescape_ref s = s.
Proof.
  induction s as [|c s IH]; intros H; [reflexivity|].
  cbn [forallb] in H. apply andb_true_iff in H as [Hc Hs].
  unfold no_backslash in Hc. apply negb_true_iff in Hc.
  cbn [unescape_ref]. rewrite Hc, (IH Hs). reflexivity.
Qed.

(** X9: [unescape] never makes a string longer, returns a string without
    backslash as it is, and copies a beginning without backslash and decodes
    the rest. *)
Theorem unescape_shortens (s : str) :
  length (unescape s) <= length s /\
  (forallb no_backslash s = true -> unescape s = s) /\
  (forall a b : str, forallb no_backslash a = true ->
                     unescape (a ++ b) = a ++ unescape b).
Proof.
  assert (E : forall s, unescape s = unescape_ref s).
  { intros s0. unfold unescape, replace_g.
    apply (replace_unescape (length s0)). lia. }
  rewrite E. split; [apply (unescape_ref_length (length s)); lia|].
  split; [apply unescape_ref_plain|].
  intros a b Ha. rewrite !E. induction a as [|c a IH]; [reflexivity|].
  cbn [forallb] in Ha. apply andb_true_iff in Ha as [Hc Ha].
  unfold no_backslash in Hc. apply negb_true_iff in Hc.
  cbn [app unescape_ref]. rewrite Hc, (IH Ha). reflexivity.
Qed.

(** ** Tokens *)

(** The token of [scan_token] with what follows it. *)
Lemma scan_token_shape source st c rest :
  skipn (offset st) source = c :: rest ->
  exists tok : str,
    forallb (fun c : char => negb (is_delim c)) tok = true /\
    skipn (offset st) source = (c :: tok) ++ skipn (S (length tok + offset st)) source /\
    (is_delim c = true -> tok = []) /\
    (is_delim c = false ->
     stops (fun c : char => negb (is_delim c)) (skipn (S (length tok + offset st)) source)) /\
    scan_token source st
    = (Ret (Some (c :: tok)),
       let st1 := set_offset (S (length tok + offset st)) st in
       if str_eqb (c :: tok) [DQUOTE] || str_eqb (c :: tok) [SQUOTE]
       then set_stringDelim (Some (c :: tok)) st1 else st1).
Proof.
  intros E. unfold scan_token.
  rewrite (charAt_skipn _ _ _ _ E), test_delim.
  assert (E1 : skipn (S (offset st)) source = rest)
    by (apply (skipn_split source (offset st) [c] rest E)).
  destruct (is_delim c) eqn:Hd.
  - exists []. split; [reflexivity|]. cbn [length Nat.add app].
    rewrite E1. split; [exact E|]. split; [reflexivity|]. split; [discriminate|].
    rewrite (substring_skipn source (offset st) [c] rest E : substring _ _ (S (offset st)) = _).
    reflexivity.
  - rewrite E1.
    destruct (token_end_spec rest (S (offset st))) as (tok & rest' & -> & Htok & -> & Hs).
    exists tok. split; [exact Htok|].
    assert (E2 : skipn (offset st) source = (c :: tok) ++ rest') by exact E.
    replace (length tok + S (offset st)) with (S (length tok + offset st)) by lia.
    rewrite (skipn_split source (offset st) (c :: tok) rest' E2 :
               skipn (S (length tok + offset st)) source = _).
    split; [exact E2|]. split; [discriminate|]. split; [intros _; exact Hs|].
    rewrite (substring_skipn source (offset st) (c :: tok) rest' E2 :
               substring _ _ (S (length tok + offset st)) = _).
    reflexivity.
Qed.

(** A round that returns a token returns the slash before a character that
    opens no comment. *)
Lemma scan_step_slash source st v st' :
  scan_step source st = StepReturn (Some v) st' ->
  v = [SLASH] /\ stringDelim st' = stringDelim st /\
  exists (pre : str) (d : char) (r : str),
    source = pre ++ SLASH :: d :: r /\ offset st' = S (length pre) /\
    d <> SLASH /\ d <> STAR.
Proof.
  unfold scan_step.
  destruct (Nat.eqb (offset st) (length source)); [discriminate|].
  destruct (skip_whitespace_spec (skipn (offset st) source) (offset st) (line st))
    as (ws & rest' & E & Hws & [(-> & Hstop & Hnil) | (-> & -> & Hne)]);
    [|discriminate].
  destruct rest' as [|c rest1]; [discriminate|].
  destruct (N.eqb c SLASH) eqn:Hc; [|discriminate].
  apply N.eqb_eq in Hc. subst c.
  destruct rest1 as [|d rest2]; [discriminate|].
  destruct (N.eqb d SLASH) eqn:Hd1.
  { destruct (line_end _ _) as [[|] off2]; discriminate. }
  destruct (N.eqb d STAR) eqn:Hd2.
  { destruct (block_end _ _ _ _); [discriminate|].
    destruct (str_eqb _ _); discriminate. }
  intros H. injection H as <- <-. split; [reflexivity|]. split; [reflexivity|].
  exists (firstn (offset st) source ++ ws), d, rest2.
  assert (Hb : offset st <= length source).
  { assert (Hne : ws ++ [SLASH] <> []) by (destruct ws; discriminate).
    pose proof (skipn_bound source (offset st) (ws ++ [SLASH]) (d :: rest2)) as Hb.
    rewrite <- app_assoc in Hb. specialize (Hb E Hne). lia. }
  repeat split.
  - rewrite <- app_assoc, <- E. symmetry. apply firstn_skipn.
  - simpl_st. rewrite length_app, length_firstn, Nat.min_l by exact Hb. lia.
  - intros ->. discriminate.
  - intros ->. discriminate.
Qed.

Lemma scan_shape source n :
  forall st t st',
    offset st <= length source ->
    scan source n st = (Ret (Some t), st') ->
    token_shape source t st' /\
    stringDelim st' = (if is_quote t then Some t else stringDelim st).
Proof.
  induction n as [|n IH]; intros st t st' Hb H; cbn [scan] in H; [discriminate|].
  pose proof (scan_step_spec source st) as Sp.
  destruct (scan_step source st) as [v st1 | e st1 | st1 | st1] eqn:Es.
  - injection H as -> ->.
    apply scan_step_slash in Es as (-> & Hd & pre & d & r & -> & Ho & Hd1 & Hd2).
    split; [|exact Hd]. unfold token_shape. rewrite Ho. repeat split.
    + exists SLASH, []. repeat split.
    + cbn [length]. lia.
    + rewrite length_app. cbn [length]. lia.
    + cbn [length]. replace (S (length pre) - 1) with (length pre) by lia.
      apply (substring_skipn (pre ++ SLASH :: d :: r) (length pre) [SLASH] (d :: r)).
      apply skipn_prefix.
    + left. right. reflexivity.
  - discriminate.
  - destruct Sp as (S0 & _ & S2 & _).
    pose proof (advances_bound _ _ _ S0 Hb) as Hb1.
    apply IH in H as [H1 H2]; [|lia]. split; [exact H1|]. rewrite H2, S2. reflexivity.
  - destruct Sp as (S0 & S1 & S2 & S3 & S4).
    pose proof (advances_bound _ _ _ S0 Hb) as Hb1. specialize (S4 Hb).
    destruct (skipn (offset st1) source) as [|c rest] eqn:E.
    { assert (Hl : length (skipn (offset st1) source) = 0) by (rewrite E; reflexivity).
      rewrite length_skipn in Hl. lia. }
    cbn [stops] in S3.
    destruct (scan_token_shape source st1 c rest E)
      as (tok & Htok & E2 & Hdl & Hst & Htk).
    rewrite Htk in H. cbv zeta in H. fold (is_quote (c :: tok)) in H.
    assert (Hbd : S (length tok + offset st1) <= length source).
    { assert (Hne : c :: tok <> []) by discriminate.
      pose proof (skipn_bound source (offset st1) (c :: tok) _ E2 Hne) as Hx.
      cbn [length] in Hx. lia. }
    assert (Ho : forall s : state, offset s = S (length tok + offset st1) ->
                                   token_shape source (c :: tok) s).
    { intros s Hs. unfold token_shape. rewrite Hs. repeat split.
      - exists c, tok. repeat split; assumption.
      - cbn [length]. lia.
      - exact Hbd.
      - cbn [length].
        replace (S (length tok + offset st1) - S (length tok)) with (offset st1) by lia.
        apply (substring_skipn source (offset st1) (c :: tok) _ E2).
      - destruct (is_delim c) eqn:Hc.
        + left. rewrite (Hdl eq_refl). left. reflexivity.
        + right. apply Hst. reflexivity. }
    destruct (is_quote (c :: tok)) eqn:Hq; injection H as <- <-;
      (split; [apply Ho; reflexivity|]); rewrite Hq; simpl_st; [reflexivity|exact S2].
Qed.

(** X10: a token that [next] cuts out of the source (nothing buffered,
    no string pending) is never empty and holds no whitespace; it is one
    delimiter, or it holds no delimiter at all; it is the piece of the source
    that ends at the cursor; and unless it is a delimiter or the slash on its
    own, the source ends or goes on with a delimiter right after it.  A
    string becomes pending exactly when the token is a quote. *)
Theorem scanned_token_shape (source : str) (st : state) (t : str) (st' : state) :
  stack st = [] -> reads_string st = false -> offset st <= length source ->
  next source st = (Ret (Some t), st') ->
  token_shape source t st' /\
  stringDelim st' = (if is_quote t then Some t else stringDelim st).
Proof.
  intros Hs Hr Hb H. rewrite (next_scan source st Hs Hr) in H.
  exact (scan_shape source _ st t st' Hb H).
Qed.

Lemma scanned_token_shape_witness :
  let source := js "  /* c */ ab/c;" in
  let st' := snd (next source init) in
  token_shape source (js "ab/c") st' /\
  stringDelim st' = (if is_quote (js "ab/c") then Some (js "ab/c") else stringDelim init).
Proof.
  cbv zeta.
  apply (scanned_token_shape (js "  /* c */ ab/c;") init (js "ab/c")).
  - reflexivity.
  - reflexivity.
  - cbn. lia.
  - vm_compute. reflexivity.
Defined.

Lemma run_unique (p : char -> bool) (r1 : str) :
  forall r2 t1 t2 : str,
    r1 ++ t1 = r2 ++ t2 -> forallb p r1 = true -> forallb p r2 = true ->
    stops p t1 -> stops p t2 -> r1 = r2.
Proof.
  induction r1 as [|c r1 IH]; intros r2 t1 t2 E H1 H2 S1 S2.
  - destruct r2 as [|d r2]; [reflexivity|]. cbn [app] in E. subst t1.
    cbn [stops] in S1. cbn [forallb] in H2. apply andb_true_iff in H2 as [H2 _].
    congruence.
  - destruct r2 as [|d r2].
    + cbn [app] in E. subst t2. cbn [stops] in S2. cbn [forallb] in H1.
      apply andb_true_iff in H1 as [H1 _]. congruence.
    + cbn [app] in E. injection E as -> E. f_equal.
      cbn [forallb] in H1, H2. apply andb_true_iff in H1 as [_ H1].
      apply andb_true_iff in H2 as [_ H2]. exact (IH r2 t1 t2 E H1 H2 S1 S2).
Qed.

Lemma gap_stops g rest : gap g = true -> stops (fun c : char => negb (is_delim c)) (g ++ rest).
Proof.
  destruct g as [|c g]; [discriminate|]. cbn [gap forallb app stops].
  intros H. apply andb_true_iff in H as [H _]. unfold is_delim. rewrite H.
  reflexivity.
Qed.

(** [next] on whitespace up to the end of the source. *)
Lemma next_whitespace_end (pre ws : str) (st : state) :
  stack st = [] -> reads_string st = false -> offset st = length pre ->
  forallb is_space ws = true ->
  next (pre ++ ws) st
  = (Ret None, at_pos (length (pre ++ ws)) (line st + newlines ws) st).
Proof.
  intros Hs Hr Ho Hws. rewrite (next_scan _ st Hs Hr). cbn [scan]. unfold scan_step.
  rewrite Ho, skipn_prefix, length_app.
  destruct ws as [|w ws].
  - cbn [length]. rewrite Nat.add_0_r, Nat.eqb_refl. cbn [newlines].
    rewrite Z.add_0_r, <- Ho. destruct st; reflexivity.
  - replace (Nat.eqb (length pre) (length pre + length (w :: ws))) with false
      by (symmetry; apply Nat.eqb_neq; cbn [length]; lia).
    destruct (skip_whitespace_spec (w :: ws) (length pre) (line st))
      as (ws1 & rest' & E & Hws1 & [(-> & Hstop & Hnil) | (-> & -> & Hne)]).
    + exfalso. destruct rest' as [|c r].
      * rewrite (Hnil eq_refl) in E. discriminate.
      * cbn [stops] in Hstop. rewrite forallb_forall in Hws.
        rewrite (Hws c) in Hstop; [discriminate|].
        rewrite E. apply in_or_app. right. left. reflexivity.
    + rewrite app_nil_r in E. subst ws1.
      rewrite (Nat.add_comm (length pre)). reflexivity.
Qed.

(** [next] at a plain token after whitespace. *)
Lemma next_plain_token (pre g w g' rest : str) (st : state) :
  stack st = [] -> stringDelim st = None -> offset st = length pre ->
  forallb is_space g = true -> plain_token w = true -> gap g' = true ->
  next (pre ++ g ++ w ++ g' ++ rest) st
  = (Ret (Some w),
     at_pos (length (pre ++ g ++ w)) (line st + newlines g) st).
Proof.
  intros Hs Hd Ho Hg Hw Hg'.
  destruct w as [|c tok0]; [discriminate|]. cbn [plain_token] in Hw.
  apply andb_true_iff in Hw as [Hw Hone]. apply andb_true_iff in Hw as [Hw Htok0].
  apply andb_true_iff in Hw as [Hw Hnq]. apply andb_true_iff in Hw as [Hc Hsl].
  apply negb_true_iff in Hc, Hsl. apply N.eqb_neq in Hsl.
  set (source := pre ++ g ++ (c :: tok0) ++ g' ++ rest).
  assert (Hr : reads_string st = false)
    by (unfold reads_string; rewrite Hs, Hd; reflexivity).
  rewrite (next_scan source st Hs Hr). cbn [scan]. unfold scan_step.
  replace (Nat.eqb (offset st) (length source)) with false
    by (symmetry; apply Nat.eqb_neq; unfold source; rewrite Ho, !length_app;
        cbn [length]; lia).
  assert (E0 : skipn (offset st) source = g ++ c :: tok0 ++ g' ++ rest)
    by (rewrite Ho; apply skipn_prefix).
  rewrite E0, (skip_whitespace_run g c _ _ _ Hg Hc).
  replace (N.eqb c SLASH) with false by (symmetry; apply N.eqb_neq; exact Hsl).
  set (st1 := at_pos (length g + offset st) (line st + newlines g) st).
  assert (E1 : skipn (offset st1) source = c :: tok0 ++ g' ++ rest)
    by (apply (skipn_split source (offset st) g _ E0)).
  destruct (scan_token_shape source st1 c _ E1) as (tok & Htok & E2 & Hdl & Hst & ->).
  assert (Et : tok = tok0).
  { destruct (is_delim c) eqn:Hdc.
    - rewrite (Hdl eq_refl). cbn [negb orb] in Hone.
      destruct tok0; [reflexivity | discriminate].
    - rewrite E1 in E2. cbn [app] in E2. injection E2 as E2.
      symmetry in E2.
      apply (run_unique (fun x : char => negb (is_delim x)) tok _ _ _ E2 Htok Htok0).
      + apply Hst. reflexivity.
      + apply gap_stops. exact Hg'. }
  subst tok. cbv zeta.
  unfold no_quote in Hnq. apply negb_true_iff, orb_false_iff in Hnq as [Hq1 Hq2].
  cbn [str_eqb]. rewrite Hq1, Hq2. cbn [andb orb]. unfold st1. simpl_st.
  f_equal. unfold at_pos, set_line, set_offset. simpl_st. f_equal.
  rewrite Ho, !length_app. cbn [length]. lia.
Qed.

Lemma plain_token_newlines w : plain_token w = true -> newlines w = 0%Z.
Proof.
  destruct w as [|c tok]; [discriminate|]. cbn [plain_token]. intros Hw.
  apply andb_true_iff in Hw as [Hw _]. apply andb_true_iff in Hw as [Hw Htok].
  apply andb_true_iff in Hw as [Hw _]. apply andb_true_iff in Hw as [Hc _].
  apply negb_true_iff in Hc. cbn [newlines].
  rewrite (not_space_not_LF c Hc), (newlines_token tok Htok). reflexivity.
Qed.

Lemma nexts_layout (items : list (str * str)) :
  forall (pre g : str) (st : state),
    stack st = [] -> stringDelim st = None -> offset st = length pre ->
    forallb is_space g = true ->
    forallb (fun it : str * str => plain_token (fst it) && gap (snd it)) items = true ->
    nexts (pre ++ g ++ layout items) (S (length items)) st
    = (map (fun it : str * str => Ret (Some (fst it))) items ++ [Ret None],
       at_pos (length (pre ++ g ++ layout items))
              (line st + newlines (g ++ layout items)) st).
Proof.
  induction items as [|[w g'] items IH]; intros pre g st Hs Hd Ho Hg Hit.
  - cbn [layout map concat length nexts app]. rewrite !app_nil_r.
    assert (Hr : reads_string st = false)
      by (unfold reads_string; rewrite Hs, Hd; reflexivity).
    rewrite (next_whitespace_end pre g st Hs Hr Ho Hg). reflexivity.
  - cbn [forallb fst snd] in Hit. apply andb_true_iff in Hit as [Hwg Hit].
    apply andb_true_iff in Hwg as [Hw Hg'].
    change (layout ((w, g') :: items)) with ((w ++ g') ++ layout items).
    cbn [length map]. remember (S (length items)) as k. cbn [nexts]. subst k.
    replace (pre ++ g ++ (w ++ g') ++ layout items)
      with (pre ++ g ++ w ++ g' ++ layout items)
      by (rewrite <- !app_assoc; reflexivity).
    rewrite (next_plain_token pre g w g' (layout items) st Hs Hd Ho Hg Hw Hg').
    replace (pre ++ g ++ w ++ g' ++ layout items)
      with ((pre ++ g ++ w) ++ g' ++ layout items)
      by (rewrite <- !app_assoc; reflexivity).
    assert (Hg2 : forallb is_space g' = true)
      by (destruct g'; [discriminate | exact Hg']).
    rewrite (IH (pre ++ g ++ w) g'
                (at_pos (length (pre ++ g ++ w)) (line st + newlines g) st)
                Hs Hd eq_refl Hg2 Hit).
    f_equal. unfold at_pos, set_line, set_offset. simpl_st. f_equal.
    rewrite !newlines_app, (plain_token_newlines w Hw). lia.
Qed.

(** X11: tokenizing is the inverse of laying tokens out.  For any
    tokens that are neither quotes nor start with a slash, written one after
    the other each followed by a gap of whitespace (and whitespace before the
    first), the calls of [next] on a fresh tokenizer return exactly these
    tokens in order and then [null], with the cursor at the end and the line
    counter at 1 plus the newlines of the source. *)
Theorem tokens_round_trip (lead : str) (items : list (str * str)) :
  forallb is_space lead = true ->
  forallb (fun it : str * str => plain_token (fst it) && gap (snd it)) items = true ->
  let source := lead ++ layout items in
  nexts source (S (length items)) init
  = (map (fun it : str * str => Ret (Some (fst it))) items ++ [Ret None],
     at_pos (length source) (1 + newlines source) init).
Proof.
  intros Hl Hit.
  exact (nexts_layout items [] lead init eq_refl eq_refl eq_refl Hl Hit).
Qed.

Lemma tokens_round_trip_witness :
  nexts (js "  message Foo {" ++ LF :: js " a.b = -1 ; }" ++ [LF]) 9 init
  = (map (fun t => Ret (Some (js t)))
         ["message"; "Foo"; "{"; "a.b"; "="; "-1"; ";"; "}"]%string
     ++ [Ret None],
     at_pos 30 3 init).
Proof.
  exact (tokens_round_trip (js "  ")
           [(js "message", js " "); (js "Foo", js " "); (js "{", [LF; SP]);
            (js "a.b", js " "); (js "=", js " "); (js "-1", js " ");
            (js ";", js " "); (js "}", [LF])]
           eq_refl eq_refl).
Defined.

(** ** Quoted literals, continued *)


(** A star over a one-character class has taken a run of the class when
    the match succeeds. *)
Lemma star_chr_inv p k :
  forall n i s cap res,
    star_loop (Chr p) k n i s cap = Some res ->
    exists run s' : str,
      s = run ++ s' /\ forallb p run = true /\
      k (length run + i) s' cap = Some res.
Proof.
  induction n as [|n IH]; intros i s cap res H.
  - exists [], s. repeat split. exact H.
  - cbn [star_loop] in H. fold (star_loop (Chr p) k) in H.
    rewrite rmatch_Chr in H.
    destruct s as [|c s']; [exists [], []; repeat split; exact H|].
    destruct (p c) eqn:Hc; [|exists [], (c :: s'); repeat split; exact H].
    replace (Nat.eqb (S i) i) with false in H
      by (symmetry; apply Nat.eqb_neq; lia).
    destruct (star_loop (Chr p) k n (S i) s' cap) as [res0|] eqn:E.
    + injection H as ->. apply IH in E as (run & s2 & -> & Hrun & Hk).
      exists (c :: run), s2. repeat split.
      * cbn [forallb]. rewrite Hc. exact Hrun.
      * rewrite <- Hk. cbn [length]. f_equal. lia.
    + exists [], (c :: s'). repeat split. exact H.
Qed.

Lemma closed_body_plain_app q run b :
  forallb (plain q) run = true -> closed_body q b = true ->
  closed_body q (run ++ b) = true.
Proof.
  intros Hrun Hb. induction run as [|c run IH]; [exact Hb|].
  cbn [forallb] in Hrun. apply andb_true_iff in Hrun as [Hc Hrun].
  unfold plain, char_in in Hc. cbn [existsb] in Hc.
  rewrite orb_false_r in Hc. apply negb_true_iff, orb_false_iff in Hc as [H1 H2].
  cbn [app closed_body]. rewrite H2, H1. cbn [negb andb]. apply IH. exact Hrun.
Qed.

(** The star over backslash pairs has taken a closed body. *)
Lemma escapes_inv q k :
  forall n i s cap res,
    star_loop (escapeRe q) k n i s cap = Some res ->
    exists b s' : str,
      s = b ++ s' /\ closed_body q b = true /\
      k (length b + i) s' cap = Some res.
Proof.
  induction n as [|n IH]; intros i s cap res H.
  - exists [], s. repeat split. exact H.
  - cbn [star_loop] in H. fold (star_loop (escapeRe q) k) in H.
    destruct (rmatch (escapeRe q) i s cap _) as [res0|] eqn:E.
    + injection H as ->. unfold escapeRe in E.
      rewrite rmatch_Seq in E. unfold Lit in E. rewrite rmatch_Chr in E.
      destruct s as [|c s1]; [discriminate|].
      destruct (N.eqb BACKSLASH c) eqn:Hc; [|discriminate].
      apply N.eqb_eq in Hc. subst c.
      rewrite rmatch_Seq in E. unfold Dot in E. rewrite rmatch_Chr in E.
      destruct s1 as [|d s2]; [discriminate|].
      destruct (is_line_terminator d) eqn:Hd; [discriminate|]. cbn [negb] in E.
      rewrite rmatch_Star in E.
      apply star_chr_inv in E as (run & s3 & -> & Hrun & E).
      destruct (Nat.eqb (length run + S (S i)) i); [discriminate|].
      apply IH in E as (b & s4 & -> & Hb & E).
      exists (BACKSLASH :: d :: run ++ b), s4. repeat split.
      * cbn [app]. rewrite <- app_assoc. reflexivity.
      * cbn [closed_body]. rewrite N.eqb_refl, Hd. cbn [negb andb].
        apply closed_body_plain_app; assumption.
      * rewrite <- E. cbn [length]. rewrite length_app. f_equal. lia.
    + exists [], s. repeat split. exact H.
Qed.

(** A match of a string expression is a quote, a closed body and the quote,
    with the body in the group. *)
Lemma stringRe_match_inv q i s e cap :
  match_at (stringRe q) i s = Some (e, cap) ->
  exists body post : str,
    s = q :: body ++ q :: post /\ closed_body q body = true /\
    e = length body + 2 + i /\ cap = Some body.
Proof.
  unfold match_at, stringRe. rewrite rmatch_Seq. unfold Lit at 1.
  rewrite rmatch_Chr. destruct s as [|c s1]; [discriminate|].
  destruct (N.eqb q c) eqn:Hc; [|discriminate].
  apply N.eqb_eq in Hc. subst c.
  rewrite rmatch_Seq, rmatch_Group, rmatch_Seq, rmatch_Star. intros H.
  apply star_chr_inv in H as (run & s2 & -> & Hrun & H).
  rewrite rmatch_Star in H. fold (escapeRe q) in H.
  apply escapes_inv in H as (b & s3 & -> & Hb & H).
  unfold Lit in H. rewrite rmatch_Chr in H.
  destruct s3 as [|c post]; [discriminate|].
  destruct (N.eqb q c) eqn:Hc; [|discriminate].
  apply N.eqb_eq in Hc. subst c. injection H as <- <-.
  exists (run ++ b), post. repeat split.
  - rewrite <- app_assoc. reflexivity.
  - apply closed_body_plain_app; assumption.
  - rewrite length_app. lia.
  - f_equal.
    replace (length b + (length run + S i) - S i) with (length (run ++ b))
      by (rewrite length_app; lia).
    rewrite app_assoc, firstn_app, Nat.sub_diag, firstn_all. cbn [firstn].
    apply app_nil_r.
Qed.

(** X12: what [stringDoubleRe] and [stringSingleRe] match.  At a given
    position the expression of quote [q] matches if and only if the subject
    reads there [q], a body closed by [q] (characters other than [q] and the
    backslash, and backslash pairs whose second character is no line
    terminator) and [q]; the match ends after the second quote and group 1 is
    the body. *)
Theorem stringRe_matches_closed_literals (q : char) (i : nat) (s : str)
        (e : nat) (cap : option str) :
  q <> BACKSLASH ->
  (match_at (stringRe q) i s = Some (e, cap) <->
   exists body post : str,
     s = q :: body ++ q :: post /\ closed_body q body = true /\
     e = length body + 2 + i /\ cap = Some body).
Proof.
  intros Hq. split.
  - apply stringRe_match_inv.
  - intros (body & post & -> & Hb & -> & ->).
    exact (stringRe_match q body post i Hq Hb).
Qed.

Lemma stringRe_matches_closed_literals_witness :
  match_at (stringRe DQUOTE) 3 (DQUOTE :: js "a\nb" ++ DQUOTE :: js "rest")
  = Some (9, Some (js "a\nb")).
Proof.
  apply (proj2 (stringRe_matches_closed_literals DQUOTE 3
                  (DQUOTE :: js "a\nb" ++ DQUOTE :: js "rest") 9
                  (Some (js "a\nb")) ltac:(discriminate))).
  exists (js "a\nb"), (js "rest"). repeat split.
Defined.

(** The search finds a match when there is one further on. *)
Lemma search_complete r (pre : str) :
  forall i s' res,
    match_at r (length pre + i) s' = Some res ->
    search r i (pre ++ s') <> None.
Proof.
  induction pre as [|c pre IH]; intros i s' res H.
  - cbn [app length Nat.add] in *. destruct s'; cbn [search]; rewrite H;
      destruct res; discriminate.
  - cbn [app search]. destruct (match_at r i (c :: pre ++ s')) as [[e cap]|];
      [discriminate|].
    apply (IH (S i) s' res). rewrite <- H. f_equal. cbn [length]. lia.
Qed.

(** The literal [readString] reads: the first closed one from the opening
    quote on. *)
Lemma readString_literal source delim st v st' :
  readString source delim st = (Ret v, st') ->
  let q := if str_eqb delim [SQUOTE] then SQUOTE else DQUOTE in
  exists pre body post : str,
    source = pre ++ q :: body ++ q :: post /\ closed_body q body = true /\
    v = Some (unescape body) /\ offset st - 1 <= length pre /\
    st' = set_stringDelim None
            (set_stack (stack st ++ [delim])
                       (set_offset (length pre + length body + 2) st)).
Proof.
  unfold readString. cbv zeta.
  replace (if str_eqb delim [SQUOTE] then stringSingleRe else stringDoubleRe)
    with (stringRe (if str_eqb delim [SQUOTE] then SQUOTE else DQUOTE))
    by (destruct (str_eqb delim [SQUOTE]); reflexivity).
  set (q := if str_eqb delim [SQUOTE] then SQUOTE else DQUOTE).
  assert (Hq : q <> BACKSLASH)
    by (unfold q; destruct (str_eqb delim [SQUOTE]); discriminate).
  destruct (exec _ _ _) as [[[[b e] cap]|] li] eqn:E; [|discriminate].
  intros H. injection H as <- <-.
  unfold exec in E.
  destruct (Nat.ltb (length source) (offset st - 1)) eqn:Hli; [discriminate|].
  apply Nat.ltb_ge in Hli.
  destruct (search _ _ _) as [[[b' e'] cap']|] eqn:Es; [|discriminate].
  injection E as -> -> -> <-.
  apply search_inv in Es as (pre & s' & Hs & -> & Em).
  apply stringRe_match_inv in Em as (body & post & -> & Hb & -> & ->).
  exists (firstn (offset st - 1) source ++ pre), body, post.
  assert (Hl : length (firstn (offset st - 1) source ++ pre)
               = length pre + (offset st - 1))
    by (rewrite length_app, length_firstn, Nat.min_l by exact Hli; lia).
  repeat split.
  - rewrite <- app_assoc, <- Hs. symmetry. apply firstn_skipn.
  - exact Hb.
  - rewrite Hl. lia.
  - unfold push. cbn [snd]. simpl_st. rewrite Hl. do 3 f_equal. lia.
Qed.

(** X13: with a string pending, a call of [next] that returns has found
    a closed literal that opens at the index before the cursor or later: it
    returns the decoded body, moves the cursor behind the closing quote,
    leaves the line counter alone and no string pending, and the call after
    it returns the pending delimiter. *)
Theorem string_body_then_quote (source : str) (st : state) (r : option str)
        (st1 : state) :
  reads_string st = true ->
  next source st = (Ret r, st1) ->
  exists delim pre body post : str,
    stringDelim st = Some delim /\
    source = pre ++ quote_of delim :: body ++ quote_of delim :: post /\
    closed_body (quote_of delim) body = true /\
    offset st - 1 <= length pre /\
    r = Some (unescape body) /\
    offset st1 = length pre + length body + 2 /\
    line st1 = line st /\ stringDelim st1 = None /\
    next source st1 = (Ret (Some delim), set_stack [] st1).
Proof.
  intros Hr H.
  destruct (next_readString source st Hr) as (delim & Hd & Hne & Hs & E).
  rewrite E in H.
  apply readString_literal in H as (pre & body & post & Hsrc & Hb & -> & Hp & ->).
  exists delim, pre, body, post. rewrite Hs. cbn [app].
  repeat split; try assumption.
Qed.

Lemma string_body_then_quote_witness :
  let source := js "x = " ++ DQUOTE :: js "a\tb" ++ DQUOTE :: js ";" in
  let st := snd (nexts source 3 init) in
  exists delim pre body post : str,
    stringDelim st = Some delim /\
    source = pre ++ quote_of delim :: body ++ quote_of delim :: post /\
    closed_body (quote_of delim) body = true /\
    offset st - 1 <= length pre /\
    Some (js "a" ++ TAB :: js "b") = Some (unescape body) /\
    offset (snd (next source st)) = length pre + length body + 2 /\
    line (snd (next source st)) = line st /\
    stringDelim (snd (next source st)) = None /\
    next source (snd (next source st))
    = (Ret (Some delim), set_stack [] (snd (next source st))).
Proof.
  cbv zeta.
  apply (string_body_then_quote (js "x = " ++ DQUOTE :: js "a\tb" ++ DQUOTE :: js ";")
           (snd (nexts (js "x = " ++ DQUOTE :: js "a\tb" ++ DQUOTE :: js ";") 3 init))).
  - reflexivity.
  - vm_compute. reflexivity.
Defined.

(** X14: with a string pending, [next] throws "illegal string" (with the
    current line, leaving the state as it was) if and only if the source
    holds no closed literal of the pending quote that opens at the index
    before the cursor or later. *)
Theorem illegal_string_iff_unclosed (source : str) (st : state) (delim : str) :
  reads_string st = true -> stringDelim st = Some delim ->
  (next source st = (Throw (Illegal String_ (line st)), st) <->
   ~ closed_literal_from source (quote_of delim) (offset st - 1)).
Proof.
  intros Hr Hd.
  destruct (next_readString source st Hr) as (delim' & Hd' & Hne & Hs & E).
  rewrite Hd in Hd'. injection Hd' as <-. rewrite E. split.
  - intros H (pre & body & post & Hsrc & Hb & Hp).
    unfold readString in H. fold (quote_of delim) in H.
    replace (if str_eqb delim [SQUOTE] then stringSingleRe else stringDoubleRe)
      with (stringRe (quote_of delim)) in H
      by (unfold quote_of; destruct (str_eqb delim [SQUOTE]); reflexivity).
    assert (Hq : quote_of delim <> BACKSLASH)
      by (unfold quote_of; destruct (str_eqb delim [SQUOTE]); discriminate).
    unfold exec in H.
    replace (Nat.ltb (length source) (offset st - 1)) with false in H
      by (symmetry; apply Nat.ltb_ge; rewrite Hsrc, length_app; lia).
    destruct (search _ _ _) as [[[b e] cap]|] eqn:Es; [discriminate|].
    revert Es. rewrite Hsrc, skipn_app.
    replace (offset st - 1 - length pre) with 0 by lia. cbn [skipn].
    apply (search_complete _ _ _ _ (length body + 2 + length pre, Some body)).
    replace (length (skipn (offset st - 1) pre) + (offset st - 1))
      with (length pre) by (rewrite length_skipn; lia).
    exact (stringRe_match _ body post (length pre) Hq Hb).
  - intros Hno. destruct (readString source delim st) as [r st'] eqn:Er.
    destruct r as [v | e |].
    + exfalso. apply Hno.
      apply readString_literal in Er as (pre & body & post & Hsrc & Hb & _ & Hp & _).
      exists pre, body, post. repeat split; assumption.
    + apply readString_spec in Er as [[Hx ->] | (body & e' & Hx & _)];
        [|discriminate].
      rewrite Hx. reflexivity.
    + apply readString_spec in Er as [[Hx _] | (body & e' & Hx & _)]; discriminate.
Qed.

Lemma illegal_string_iff_unclosed_witness :
  let source := DQUOTE :: js "abc\" ++ [LF; DQUOTE] in
  let st := snd (next source init) in
  reads_string st = true /\
  ~ closed_literal_from source (quote_of [DQUOTE]) (offset st - 1).
Proof.
  cbv zeta. split; [reflexivity|].
  apply (proj1 (illegal_string_iff_unclosed (DQUOTE :: js "abc\" ++ [LF; DQUOTE])
                  (snd (next (DQUOTE :: js "abc\" ++ [LF; DQUOTE]) init))
                  [DQUOTE] eq_refl eq_refl)).
  vm_compute. reflexivity.
Defined.

(** ** The text of a comment *)

Lemma trim_start_stops s : stops is_space (trim_start s).
Proof.
  induction s as [|c s IH]; [exact I|]. cbn [trim_start].
  destruct (is_space c) eqn:Hc; [exact IH | exact Hc].
Qed.

Lemma trim_start_id s : stops is_space s -> trim_start s = s.
Proof. destruct s as [|c s]; [reflexivity|]. cbn. intros ->. reflexivity. Qed.

(** [trim_start] drops a run of whitespace. *)
Lemma trim_start_suffix s :
  exists w : str, s = w ++ trim_start s /\ forallb is_space w = true.
Proof.
  induction s as [|c s IH]; [exists []; split; reflexivity|].
  cbn [trim_start]. destruct (is_space c) eqn:Hc.
  - destruct IH as (w & E & Hw). exists (c :: w). split.
    + cbn [app]. rewrite <- E. reflexivity.
    + cbn [forallb]. rewrite Hc. exact Hw.
  - exists []. split; reflexivity.
Qed.

(** [trim] keeps a middle part: whitespace before it and after it is
    dropped. *)
Lemma trim_middle s :
  exists w1 w2 : str,
    s = w1 ++ trim s ++ w2 /\
    forallb is_space w1 = true /\ forallb is_space w2 = true.
Proof.
  destruct (trim_start_suffix s) as (w1 & E1 & H1).
  destruct (trim_start_suffix (rev (trim_start s))) as (w2 & E2 & H2).
  exists w1, (rev w2). repeat split; [|exact H1|].
  - unfold trim. rewrite <- rev_app_distr, <- E2, rev_involutive. exact E1.
  - rewrite forallb_forall in *. intros x Hx. apply H2. apply in_rev. exact Hx.
Qed.

Lemma trim_stops_back s : stops is_space (rev (trim s)).
Proof. unfold trim. rewrite rev_involutive. apply trim_start_stops. Qed.

Lemma trim_stops_front s : stops is_space (trim s).
Proof.
  destruct (trim_start_suffix (rev (trim_start s))) as (w2 & E2 & H2).
  pose proof (trim_start_stops s) as Hs.
  assert (E : trim_start s = trim s ++ rev w2).
  { unfold trim. rewrite <- rev_app_distr, <- E2, rev_involutive. reflexivity. }
  destruct (trim s) as [|c t]; [exact I|].
  rewrite E in Hs. exact Hs.
Qed.

Lemma trim_idempotent s : trim (trim s) = trim s.
Proof.
  unfold trim at 1. rewrite (trim_start_id (trim s) (trim_stops_front s)).
  rewrite (trim_start_id _ (trim_stops_back s)). apply rev_involutive.
Qed.

Lemma forallb_trim (p : char -> bool) s :
  forallb p s = true -> forallb p (trim s) = true.
Proof.
  destruct (trim_middle s) as (w1 & w2 & E & _). intros H.
  rewrite E, !forallb_app in H.
  apply andb_true_iff in H as [_ H]. apply andb_true_iff in H as [H _]. exact H.
Qed.

Lemma setComment_text source start end_ st :
  setComment source start end_ st
  = set_comment (Some (charAt source start))
                (Some (comment_text (substring source (S start) end_)))
                (line st) st.
Proof. reflexivity. Qed.

Lemma join_cons (sep x : str) (y : str) (L : list str) :
  join sep (x :: y :: L) = x ++ sep ++ join sep (y :: L).
Proof. reflexivity. Qed.

Lemma join_snoc (sep : str) (L : list str) (x : str) :
  L <> [] -> join sep (L ++ [x]) = join sep L ++ sep ++ x.
Proof.
  induction L as [|y L IH]; intros Hne; [congruence|].
  destruct L as [|z L].
  - reflexivity.
  - change ((y :: z :: L) ++ [x]) with (y :: (z :: L) ++ [x]).
    change ((z :: L) ++ [x]) with (z :: L ++ [x]) at 1.
    rewrite join_cons. change (z :: L ++ [x]) with ((z :: L) ++ [x]).
    rewrite IH by discriminate. rewrite join_cons, <- !app_assoc. reflexivity.
Qed.

Lemma rev_join (L : list str) :
  rev (join [LF] L) = join [LF] (map (@rev char) (rev L)).
Proof.
  induction L as [|x L IH]; [reflexivity|].
  destruct L as [|y L]; [reflexivity|].
  rewrite join_cons, !rev_app_distr, IH.
  change (rev (x :: y :: L)) with (rev (y :: L) ++ [x]).
  rewrite map_app. cbn [map]. rewrite join_snoc.
  - rewrite <- app_assoc. reflexivity.
  - cbn [rev]. rewrite map_app. cbn [map]. intros H.
    apply app_eq_nil in H as [_ H]. discriminate.
Qed.

Lemma trim_start_join (L : list str) :
  Forall (stops is_space) L ->
  trim_start (join [LF] L) = join [LF] (drop_empty L).
Proof.
  induction L as [|x L IH]; intros H; [reflexivity|].
  inversion H as [|x' L' Hx HL]; subst.
  destruct x as [|c x].
  - destruct L as [|y L]; [reflexivity|].
    rewrite join_cons. cbn [app trim_start drop_empty].
    change (is_space LF) with true. cbv iota. apply IH. exact HL.
  - cbn [drop_empty]. apply trim_start_id.
    destruct L as [|y L]; [exact Hx|]. rewrite join_cons. exact Hx.
Qed.

Lemma comment_line_rev l : comment_line l -> comment_line (rev l).
Proof.
  intros (H1 & H2 & H3). repeat split; [|exact H3|rewrite rev_involutive; exact H2].
  rewrite forallb_forall in *. intros x Hx. apply H1. apply in_rev. exact Hx.
Qed.

Lemma Forall_drop_empty (P : str -> Prop) L : Forall P L -> Forall P (drop_empty L).
Proof.
  induction L as [|x L IH]; intros H; [exact H|].
  destruct x as [|c x]; [|exact H]. cbn [drop_empty]. apply IH.
  inversion H; assumption.
Qed.

Lemma Forall_rev_lines L :
  Forall comment_line L -> Forall comment_line (map (@rev char) (rev L)).
Proof.
  intros H. apply Forall_forall. intros x Hx.
  apply in_map_iff in Hx as (y & <- & Hy). apply comment_line_rev.
  rewrite Forall_forall in H. apply H. apply in_rev. exact Hy.
Qed.

Lemma Forall_stops L : Forall comment_line L -> Forall (stops is_space) L.
Proof. apply Forall_impl. intros l (_ & H & _). exact H. Qed.

(** Trimming a text made of trimmed lines drops empty lines at both ends
    and nothing else. *)
Lemma trim_join (L : list str) :
  Forall comment_line L ->
  exists L2 : list str, trim (join [LF] L) = join [LF] L2 /\ Forall comment_line L2.
Proof.
  intros H. unfold trim.
  rewrite (trim_start_join L (Forall_stops L H)).
  pose proof (Forall_drop_empty _ L H) as H1.
  rewrite rev_join.
  pose proof (Forall_rev_lines _ H1) as H2.
  rewrite (trim_start_join _ (Forall_stops _ H2)).
  pose proof (Forall_drop_empty _ _ H2) as H3.
  rewrite rev_join.
  eexists. split; [reflexivity|]. apply Forall_rev_lines. exact H3.
Qed.

Lemma forallb_firstn_skipn (p : char -> bool) (a b : nat) (s : str) :
  forallb p s = true -> forallb p (firstn a s ++ skipn b s) = true.
Proof.
  intros H. rewrite forallb_app. apply andb_true_iff. split.
  - rewrite <- (firstn_skipn a s), forallb_app in H.
    apply andb_true_iff in H as [H _]. exact H.
  - rewrite <- (firstn_skipn b s), forallb_app in H.
    apply andb_true_iff in H as [_ H]. exact H.
Qed.

Lemma forallb_replace_first (p : char -> bool) r (s : str) :
  forallb p s = true -> forallb p (replace_first r [] s) = true.
Proof.
  intros H. unfold replace_first.
  destruct (search r 0 s) as [[[b e] cap]|]; [|exact H].
  cbn [app]. apply forallb_firstn_skipn. exact H.
Qed.

Lemma split_chr_pieces (s : str) :
  forall cur : str,
    forallb not_LF cur = true ->
    Forall (fun l : str => forallb not_LF l = true) (split_chr setCommentSplit cur s).
Proof.
  induction s as [|c s IH]; intros cur Hcur; cbn [split_chr].
  - constructor; [|constructor].
    rewrite forallb_forall in *. intros x Hx. apply Hcur. apply in_rev. exact Hx.
  - unfold setCommentSplit at 1. destruct (N.eqb c LF) eqn:Hc.
    + constructor; [|apply IH; reflexivity].
      rewrite forallb_forall in *. intros x Hx. apply Hcur. apply in_rev. exact Hx.
    + apply IH. cbn [forallb]. unfold not_LF at 1. rewrite Hc. exact Hcur.
Qed.

Lemma split_chr_one (s : str) :
  forall cur : str,
    forallb not_LF s = true -> split_chr setCommentSplit cur s = [rev cur ++ s].
Proof.
  induction s as [|c s IH]; intros cur H; cbn [split_chr].
  - rewrite app_nil_r. reflexivity.
  - cbn [forallb] in H. apply andb_true_iff in H as [Hc Hs].
    unfold not_LF in Hc. apply negb_true_iff in Hc.
    unfold setCommentSplit at 1. rewrite Hc, (IH _ Hs). cbn [rev].
    rewrite <- app_assoc. reflexivity.
Qed.

(** The text of a comment of one line. *)
Lemma comment_text_one_line (s : str) :
  forallb not_LF s = true ->
  comment_text s = trim (replace_first setCommentRe [] s).
Proof.
  intros H. unfold comment_text. rewrite (split_chr_one s [] H).
  cbn [rev app map join]. apply trim_idempotent.
Qed.

(** X15: the text [setComment] captures is made of lines joined by
    newlines, none of which holds a newline or begins or ends with
    whitespace, and the text as a whole neither begins nor ends with
    whitespace (empty lines at either end are dropped). *)
Theorem setComment_lines_trimmed (source : str) (start end_ : nat) (st : state) :
  exists ls : list str,
    commentText (setComment source start end_ st) = Some (join [LF] ls) /\
    Forall comment_line ls /\
    stops is_space (join [LF] ls) /\ stops is_space (rev (join [LF] ls)).
Proof.
  rewrite setComment_text. simpl_st.
  assert (HL : Forall comment_line
                 (map (fun l => trim (replace_first setCommentRe [] l))
                      (split_chr setCommentSplit []
                                 (substring source (S start) end_)))).
  { apply Forall_forall. intros x Hx.
    apply in_map_iff in Hx as (l & <- & Hl).
    pose proof (split_chr_pieces (substring source (S start) end_) [] eq_refl) as Hp.
    rewrite Forall_forall in Hp. specialize (Hp l Hl).
    repeat split.
    - apply forallb_trim, forallb_replace_first. exact Hp.
    - apply trim_stops_front.
    - apply trim_stops_back. }
  destruct (trim_join _ HL) as (L2 & E & H2).
  exists L2. split; [unfold comment_text; rewrite E; reflexivity|].
  split; [exact H2|]. rewrite <- E.
  split; [apply trim_stops_front | apply trim_stops_back].
Qed.


(** A star over a one-character class fails when the continuation fails
    wherever the star may stop. *)
Lemma star_chr_none p k (q : char -> bool) :
  (forall j s' cap, stops q s' -> k j s' cap = None) ->
  (forall c, p c = true -> q c = false) ->
  forall (run rest : str) n i cap,
    forallb p run = true -> stops p rest -> stops q rest ->
    star_loop (Chr p) k n i (run ++ rest) cap = None.
Proof.
  intros Hk Hpq run0. induction run0 as [|c run0 IH]; intros rest n i cap Hrun Hp Hq.
  - cbn [app]. destruct n as [|n]; cbn [star_loop]; [apply Hk; exact Hq|].
    rewrite rmatch_Chr. destruct rest as [|c rest]; [apply Hk; exact Hq|].
    cbn [stops] in Hp. rewrite Hp. apply Hk. exact Hq.
  - cbn [forallb] in Hrun. apply andb_true_iff in Hrun as [Hc Hrun].
    assert (Hs : stops q ((c :: run0) ++ rest)) by (cbn; apply Hpq; exact Hc).
    destruct n as [|n]; cbn [star_loop]; [apply Hk; exact Hs|].
    fold (star_loop (Chr p) k). cbn [app]. rewrite rmatch_Chr, Hc.
    replace (Nat.eqb (S i) i) with false by (symmetry; apply Nat.eqb_neq; lia).
    rewrite (IH rest n (S i) cap Hrun Hp Hq). apply Hk. exact Hs.
Qed.

Lemma rmatch_Bol i s cap k :
  rmatch Bol i s cap k = if Nat.eqb i 0 then k i s cap else None.
Proof. reflexivity. Qed.

Lemma search_not_at_start (s : str) :
  forall i, i <> 0 -> search setCommentRe i s = None.
Proof.
  induction s as [|c s IH]; intros i Hi; cbn [search];
    unfold match_at, setCommentRe; rewrite rmatch_Seq, rmatch_Bol;
    replace (Nat.eqb i 0) with false by (symmetry; apply Nat.eqb_neq; exact Hi).
  - reflexivity.
  - apply IH. lia.
Qed.

Lemma setCommentRe_match (sp marks sp2 rest : str) :
  forallb (N.eqb SP) sp = true -> marks <> [] -> forallb is_mark marks = true ->
  forallb (N.eqb SP) sp2 = true ->
  stops is_mark (sp2 ++ rest) -> stops (N.eqb SP) rest ->
  match_at setCommentRe 0 (sp ++ marks ++ sp2 ++ rest)
  = Some (length (sp ++ marks ++ sp2), None).
Proof.
  intros Hsp Hne Hm Hsp2 Hs1 Hs2.
  destruct marks as [|m marks]; [congruence|].
  cbn [forallb] in Hm. apply andb_true_iff in Hm as [Hm0 Hm].
  unfold match_at, setCommentRe. rewrite rmatch_Seq, rmatch_Bol. cbn [Nat.eqb].
  rewrite rmatch_Seq. unfold Lit. rewrite rmatch_Star.
  apply (star_chr_run (N.eqb SP)); [exact Hsp | | (rewrite ?length_app; cbn [length]; rewrite ?length_app; lia) |].
  { cbn [app stops]. destruct (N.eqb SP m) eqn:E; [|reflexivity].
    apply N.eqb_eq in E. subst m. discriminate Hm0. }
  rewrite rmatch_Seq. unfold Plus, OneOf. rewrite rmatch_Seq.
  cbn [app]. rewrite rmatch_Chr.
  change (char_in [STAR; SLASH] m) with (is_mark m). rewrite Hm0, rmatch_Star.
  apply (star_chr_run is_mark); [exact Hm | exact Hs1 | (rewrite ?length_app; cbn [length]; rewrite ?length_app; lia) |].
  rewrite rmatch_Star.
  apply (star_chr_run (N.eqb SP)); [exact Hsp2 | exact Hs2 | (rewrite ?length_app; cbn [length]; rewrite ?length_app; lia) |].
  f_equal. f_equal. rewrite !length_app. cbn [length]. rewrite length_app. lia.
Qed.

Lemma setCommentRe_no_match (sp rest : str) :
  forallb (N.eqb SP) sp = true -> stops is_mark rest -> stops (N.eqb SP) rest ->
  search setCommentRe 0 (sp ++ rest) = None.
Proof.
  intros Hsp Hs1 Hs2.
  assert (Hm : match_at setCommentRe 0 (sp ++ rest) = None).
  { unfold match_at, setCommentRe. rewrite rmatch_Seq, rmatch_Bol. cbn [Nat.eqb].
    rewrite rmatch_Seq. unfold Lit. rewrite rmatch_Star.
    apply (star_chr_none (N.eqb SP) _ is_mark); try assumption.
    - intros j s' cap Hs'. rewrite rmatch_Seq. unfold Plus, OneOf.
      rewrite rmatch_Seq, rmatch_Chr.
      destruct s' as [|c s']; [reflexivity|]. cbn [stops] in Hs'.
      unfold is_mark in Hs'. rewrite Hs'. reflexivity.
    - intros c Hc. apply N.eqb_eq in Hc. subst c. reflexivity. }
  destruct (sp ++ rest) as [|c s] eqn:E; cbn [search]; rewrite Hm;
    [reflexivity|]. apply search_not_at_start. discriminate.
Qed.

(** X16: what [setCommentRe] strips from a line of a comment.  A line
    that reads spaces, then a run of stars and slashes that is not empty, then
    spaces, then the rest, loses all of that up to the rest; a line whose
    first character after its leading spaces is neither star nor slash is
    left as it is, leading spaces included. *)
Theorem strip_comment_decoration :
  (forall sp marks sp2 rest : str,
      forallb (N.eqb SP) sp = true -> marks <> [] ->
      forallb is_mark marks = true -> forallb (N.eqb SP) sp2 = true ->
      stops is_mark (sp2 ++ rest) -> stops (N.eqb SP) rest ->
      replace_first setCommentRe [] (sp ++ marks ++ sp2 ++ rest) = rest)
  /\
  (forall sp rest : str,
      forallb (N.eqb SP) sp = true ->
      stops is_mark rest -> stops (N.eqb SP) rest ->
      replace_first setCommentRe [] (sp ++ rest) = sp ++ rest).
Proof.
  split.
  - intros sp marks sp2 rest Hsp Hne Hm Hsp2 Hs1 Hs2. unfold replace_first.
    pose proof (setCommentRe_match sp marks sp2 rest Hsp Hne Hm Hsp2 Hs1 Hs2) as H.
    destruct (sp ++ marks ++ sp2 ++ rest) as [|c s] eqn:E; cbn [search];
      rewrite H; cbn [firstn app]; rewrite <- E.
    + replace (sp ++ marks ++ sp2 ++ rest) with ((sp ++ marks ++ sp2) ++ rest)
        by (rewrite <- !app_assoc; reflexivity).
      apply skipn_prefix.
    + replace (sp ++ marks ++ sp2 ++ rest) with ((sp ++ marks ++ sp2) ++ rest)
        by (rewrite <- !app_assoc; reflexivity).
      apply skipn_prefix.
  - intros sp rest Hsp Hs1 Hs2. unfold replace_first.
    rewrite (setCommentRe_no_match sp rest Hsp Hs1 Hs2). reflexivity.
Qed.

Lemma strip_comment_decoration_witness :
  replace_first setCommentRe [] (js "  */ text * more") = js "text * more" /\
  replace_first setCommentRe [] (js "  text * more") = js "  text * more".
Proof.
  split.
  - apply (proj1 strip_comment_decoration (js "  ") (js "*/") (js " ")
                 (js "text * more")); try reflexivity. discriminate.
  - apply (proj2 strip_comment_decoration (js "  ") (js "text * more"));
      reflexivity.
Defined.

(** ** Whitespace and comments before a token *)

Lemma line_end_run (body : str) :
  forall rest off,
    forallb not_LF body = true ->
    line_end (body ++ LF :: rest) off = (true, length body + off).
Proof.
  induction body as [|c body IH]; intros rest off H; [reflexivity|].
  cbn [forallb] in H. apply andb_true_iff in H as [Hc Hb].
  unfold not_LF in Hc. apply negb_true_iff in Hc.
  cbn [app line_end]. rewrite Hc, IH by exact Hb. cbn [length]. f_equal. lia.
Qed.

Lemma block_end_open (rest : str) :
  forall curr off ln,
    no_close curr rest = true ->
    block_end rest curr off ln
    = BlockThrow (S (length rest) + off) (ln + newlines (curr :: rest)).
Proof.
  induction rest as [|c rest IH]; intros curr off ln H.
  - cbn. f_equal. destruct (N.eqb curr LF); lia.
  - cbn [no_close] in H. apply andb_true_iff in H as [Hc Hr].
    apply negb_true_iff in Hc. cbn [block_end]. rewrite Hc, IH by exact Hr.
    cbn [length newlines]. f_equal; [lia|]. destruct (N.eqb curr LF); lia.
Qed.

Lemma last_cons (c d : char) (l : str) : last (c :: l) d = last l c.
Proof.
  revert c d. induction l as [|x l IH]; intros c d; [reflexivity|].
  change (last (c :: x :: l) d) with (last (x :: l) d).
  rewrite (IH x d), (IH x c). reflexivity.
Qed.

(** The block loop stops at the first slash that follows a star. *)
Lemma block_end_closed (seg : str) :
  forall curr off ln r,
    no_close curr seg = true -> last seg curr = STAR ->
    block_end (seg ++ SLASH :: r) curr off ln
    = BlockEnd (S (length seg) + off) (ln + newlines (curr :: seg)).
Proof.
  induction seg as [|c seg IH]; intros curr off ln r Hn Hl.
  - cbn [last] in Hl. subst curr. cbn. f_equal. lia.
  - cbn [no_close] in Hn. apply andb_true_iff in Hn as [Hc Hr].
    apply negb_true_iff in Hc. rewrite last_cons in Hl.
    cbn [app block_end]. rewrite Hc, (IH c _ _ r Hr Hl).
    cbn [length newlines]. f_equal; [lia|]. destruct (N.eqb curr LF); lia.
Qed.

Lemma skip_whitespace_all (ws : str) :
  forall off ln,
    forallb is_space ws = true -> ws <> [] ->
    skip_whitespace ws off ln = WsEof (length ws + off) (ln + newlines ws).
Proof.
  induction ws as [|w ws IH]; intros off ln H Hne; [congruence|].
  cbn [forallb] in H. apply andb_true_iff in H as [Hw Hws].
  cbn [skip_whitespace]. rewrite test_whitespace, Hw.
  destruct ws as [|w' ws'].
  - cbn [length newlines]. destruct (N.eqb w LF); f_equal; lia.
  - rewrite IH by (assumption || discriminate).
    cbn [length newlines]. destruct (N.eqb w LF); f_equal; lia.
Qed.

Lemma skip_whitespace_app (ws : str) :
  forall rest off ln,
    forallb is_space ws = true -> rest <> [] ->
    skip_whitespace (ws ++ rest) off ln
    = skip_whitespace rest (length ws + off) (ln + newlines ws).
Proof.
  induction ws as [|w ws IH]; intros rest off ln H Hne.
  - cbn [app length newlines Nat.add]. rewrite Z.add_0_r. reflexivity.
  - cbn [forallb] in H. apply andb_true_iff in H as [Hw Hws].
    cbn [app skip_whitespace]. rewrite test_whitespace, Hw.
    destruct (ws ++ rest) eqn:E; [apply app_eq_nil in E as [_ E]; congruence|].
    rewrite <- E, IH by assumption. cbn [length newlines].
    f_equal; [lia|]. destruct (N.eqb w LF); lia.
Qed.

(** One round of the loop at a slash, after whitespace. *)
Lemma scan_step_at_slash (pre ws : str) (d : char) (rest2 : str) (st : state) :
  offset st = length pre -> forallb is_space ws = true ->
  let source := pre ++ ws ++ SLASH :: d :: rest2 in
  let off := length ws + length pre in
  let ln := (line st + newlines ws)%Z in
  scan_step source st =
  let off1 := S off in
  if N.eqb d SLASH then
    let start := S off1 in
    let isComment := str_eqb (charAt source start) [SLASH] in
    match line_end rest2 (S off1) with
    | (false, off2) => StepReturn None (at_pos off2 ln st)
    | (true, off2) =>
        let st1 := at_pos (S off2) ln st in
        let st2 := if isComment
                   then setComment source start (offset st1 - 1) st1
                   else st1 in
        StepRepeat (set_line (line st2 + 1) st2)
    end
  else if N.eqb d STAR then
    let start := S off1 in
    let isComment := str_eqb (charAt source start) [STAR] in
    match block_end rest2 d off1 ln with
    | BlockThrow off2 ln2 =>
        let st1 := at_pos off2 ln2 st in
        StepThrow (illegal Comment st1) st1
    | BlockEnd off2 ln2 =>
        let st1 := at_pos (S off2) ln2 st in
        let st2 := if isComment
                   then setComment source start (offset st1 - 2) st1
                   else st1 in
        StepRepeat st2
    end
  else StepReturn (Some [SLASH]) (at_pos off1 ln st).
Proof.
  intros Ho Hws. cbv zeta. unfold scan_step.
  replace (Nat.eqb (offset st) _) with false
    by (symmetry; apply Nat.eqb_neq; rewrite Ho, !length_app; cbn [length]; lia).
  rewrite Ho, skipn_prefix.
  rewrite (skip_whitespace_run ws SLASH (d :: rest2) (length pre) (line st) Hws eq_refl).
  rewrite N.eqb_refl. reflexivity.
Qed.

Lemma at_pos_same st : at_pos (offset st) (line st) st = st.
Proof. destruct st; reflexivity. Qed.

(** A round of the loop started before whitespace does what the round
    started behind it does. *)
Lemma scan_step_space source st (ws rest : str) :
  skipn (offset st) source = ws ++ rest -> forallb is_space ws = true ->
  scan_step source st
  = scan_step source (at_pos (length ws + offset st) (line st + newlines ws) st).
Proof.
  intros E Hws. destruct ws as [|w ws'].
  { cbn [length newlines Nat.add]. rewrite Z.add_0_r, at_pos_same. reflexivity. }
  set (ws := w :: ws') in *.
  assert (Hne : ws <> []) by discriminate.
  unfold scan_step. simpl_st.
  replace (Nat.eqb (offset st) (length source)) with false.
  2:{ symmetry. apply Nat.eqb_neq. intros Ho. rewrite Ho, skipn_all in E.
      discriminate. }
  rewrite E. destruct rest as [|c r].
  - rewrite app_nil_r in *.
    rewrite (skip_whitespace_all ws _ _ Hws Hne).
    rewrite (skipn_end source (offset st) ws E Hne), Nat.eqb_refl. reflexivity.
  - assert (Hb : length ws + offset st < length source).
    { assert (Hne2 : ws ++ [c] <> []) by discriminate.
      pose proof (skipn_bound source (offset st) (ws ++ [c]) r) as Hb.
      rewrite <- app_assoc in Hb. specialize (Hb E Hne2).
      rewrite length_app in Hb. cbn [length] in Hb. lia. }
    replace (Nat.eqb (length ws + offset st) (length source)) with false
      by (symmetry; apply Nat.eqb_neq; lia).
    rewrite (skipn_split source (offset st) ws (c :: r) E).
    rewrite (skip_whitespace_app ws (c :: r) _ _ Hws) by discriminate.
    destruct (skip_whitespace (c :: r) _ _) as [off ln | [|c1 rest1] off ln];
      reflexivity.
Qed.

(** More rounds than the loop can use make no difference. *)
Lemma scan_fuel source n :
  forall m st,
    offset st <= length source -> length source - offset st < n -> n <= m ->
    scan source n st = scan source m st.
Proof.
  induction n as [|n IH]; intros m st Hb Hn Hm; [lia|].
  destruct m as [|m]; [lia|]. cbn [scan].
  pose proof (scan_step_spec source st) as Sp.
  destruct (scan_step source st) as [v st1 | e st1 | st1 | st1]; try reflexivity.
  destruct Sp as (S0 & _ & _ & S3).
  pose proof (advances_bound _ _ _ S0 Hb) as Hb1.
  apply IH; lia.
Qed.

Lemma pass_blank_offset source b st :
  offset (pass_blank source b st) = length (blank_text b) + offset st.
Proof.
  destruct b as [ws | body | seg]; cbn [pass_blank blank_text]; cbv zeta.
  - reflexivity.
  - destruct (str_eqb _ _); simpl_st; cbn [length]; rewrite length_app;
      cbn [length]; lia.
  - destruct (str_eqb _ _); simpl_st; cbn [length]; rewrite length_app;
      cbn [length]; lia.
Qed.

Lemma pass_blank_stack source b st :
  stack (pass_blank source b st) = stack st /\
  stringDelim (pass_blank source b st) = stringDelim st.
Proof.
  destruct b as [ws | body | seg]; cbn [pass_blank]; cbv zeta.
  - split; reflexivity.
  - destruct (str_eqb _ _); split; reflexivity.
  - destruct (str_eqb _ _); split; reflexivity.
Qed.

Lemma pass_blank_line source b st :
  blank_ok b = true ->
  line (pass_blank source b st) = (line st + newlines (blank_text b))%Z.
Proof.
  intros Hok.
  destruct b as [ws | body | seg]; cbn [pass_blank blank_text blank_ok] in *;
    cbv zeta.
  - reflexivity.
  - assert (Hn : newlines (SLASH :: SLASH :: body ++ [LF]) = 1%Z).
    { rewrite !newlines_slash, newlines_app, newlines_LF.
      rewrite (newlines_none not_LF body eq_refl Hok). reflexivity. }
    rewrite Hn. destruct (str_eqb _ _); reflexivity.
  - assert (Hn : newlines (SLASH :: STAR :: seg ++ [SLASH]) = newlines seg).
    { rewrite newlines_slash, newlines_star, newlines_app. cbn. lia. }
    rewrite Hn. destruct (str_eqb _ _); reflexivity.
Qed.

(** [next] started at a blank does what [next] started behind it does. *)
Lemma next_over_blank source (pre : str) b (rest : str) st :
  source = pre ++ blank_text b ++ rest -> offset st = length pre ->
  blank_ok b = true -> stack st = [] -> reads_string st = false ->
  next source st = next source (pass_blank source b st).
Proof.
  intros Hsrc Ho Hok Hs Hr.
  destruct (pass_blank_stack source b st) as [Hs' Hd'].
  assert (Hr' : reads_string (pass_blank source b st) = false)
    by (unfold reads_string in *; rewrite Hs', Hd'; exact Hr).
  rewrite (next_scan source st Hs Hr).
  rewrite (next_scan source _ (eq_trans Hs' Hs) Hr').
  assert (E : skipn (offset st) source = blank_text b ++ rest)
    by (rewrite Hsrc, Ho; apply skipn_prefix).
  assert (Hcomment :
            forall st2,
              scan_step source st = StepRepeat st2 ->
              scan source (S (length source)) st
              = scan source (S (length source)) st2).
  { intros st2 Hstep.
    assert (H1 : scan source (S (length source)) st
                 = scan source (length source) st2)
      by (cbn [scan]; rewrite Hstep; reflexivity).
    rewrite H1.
    pose proof (scan_step_spec source st) as Sp. rewrite Hstep in Sp.
    destruct Sp as (S0 & _ & _ & S3).
    assert (Hb : offset st <= length source)
      by (rewrite Hsrc, Ho, length_app; lia).
    pose proof (advances_bound _ _ _ S0 Hb) as Hb1.
    apply scan_fuel; lia. }
  destruct b as [ws | body | seg]; cbn [blank_text blank_ok] in *.
  - cbn [scan]. cbn [pass_blank].
    rewrite <- (scan_step_space source st ws rest E Hok). reflexivity.
  - apply Hcomment.
    assert (Hsrc2 : source = pre ++ [] ++ SLASH :: SLASH :: body ++ LF :: rest)
      by (rewrite Hsrc; cbn [app]; rewrite <- app_assoc; reflexivity).
    rewrite Hsrc2 at 1.
    rewrite (scan_step_at_slash pre [] SLASH (body ++ LF :: rest) st Ho eq_refl).
    rewrite <- Hsrc2. cbv zeta. rewrite N.eqb_refl.
    rewrite (line_end_run body rest _ Hok).
    cbn [length newlines Nat.add pass_blank]. rewrite Z.add_0_r, Ho.
    reflexivity.
  - apply andb_true_iff in Hok as [Hn Hl]. apply N.eqb_eq in Hl.
    apply Hcomment.
    assert (Hsrc2 : source = pre ++ [] ++ SLASH :: STAR :: seg ++ SLASH :: rest)
      by (rewrite Hsrc; cbn [app]; rewrite <- app_assoc; reflexivity).
    rewrite Hsrc2 at 1.
    rewrite (scan_step_at_slash pre [] STAR (seg ++ SLASH :: rest) st Ho eq_refl).
    rewrite <- Hsrc2. cbv zeta. change (N.eqb STAR SLASH) with false. cbv iota.
    rewrite N.eqb_refl.
    rewrite (block_end_closed seg STAR _ _ rest Hn Hl), newlines_star.
    cbn [length newlines Nat.add pass_blank]. rewrite Ho.
    replace (S (S (length seg + S (length pre))))
      with (S (length seg + S (S (length pre)))) by lia.
    replace (line st + 0 + newlines seg)%Z with (line st + newlines seg)%Z by lia.
    reflexivity.
Qed.

Lemma pass_blanks_stack source bs :
  forall st,
    stack (pass_blanks source bs st) = stack st /\
    stringDelim (pass_blanks source bs st) = stringDelim st.
Proof.
  induction bs as [|b bs IH]; intros st; [split; reflexivity|].
  change (pass_blanks source (b :: bs) st)
    with (pass_blanks source bs (pass_blank source b st)).
  destruct (IH (pass_blank source b st)) as [H1 H2].
  destruct (pass_blank_stack source b st) as [H3 H4].
  split; congruence.
Qed.

Lemma pass_blanks_offset source bs :
  forall st,
    offset (pass_blanks source bs st) = length (blanks_text bs) + offset st.
Proof.
  induction bs as [|b bs IH]; intros st; [reflexivity|].
  change (pass_blanks source (b :: bs) st)
    with (pass_blanks source bs (pass_blank source b st)).
  change (blanks_text (b :: bs)) with (blank_text b ++ blanks_text bs).
  rewrite IH, pass_blank_offset, length_app. lia.
Qed.

Lemma pass_blanks_line source bs :
  forall st,
    forallb blank_ok bs = true ->
    line (pass_blanks source bs st) = (line st + newlines (blanks_text bs))%Z.
Proof.
  induction bs as [|b bs IH]; intros st Hok.
  - cbn. lia.
  - cbn [forallb] in Hok. apply andb_true_iff in Hok as [Hb Hbs].
    change (pass_blanks source (b :: bs) st)
      with (pass_blanks source bs (pass_blank source b st)).
    change (blanks_text (b :: bs)) with (blank_text b ++ blanks_text bs).
    rewrite IH, pass_blank_line, newlines_app by assumption. lia.
Qed.

(** The same for any sequence of whitespace and comments. *)
Lemma next_over_blanks source bs :
  forall (pre rest : str) st,
    source = pre ++ blanks_text bs ++ rest -> offset st = length pre ->
    forallb blank_ok bs = true -> stack st = [] -> reads_string st = false ->
    next source st = next source (pass_blanks source bs st).
Proof.
  induction bs as [|b bs IH]; intros pre rest st Hsrc Ho Hok Hs Hr;
    [reflexivity|].
  cbn [forallb] in Hok. apply andb_true_iff in Hok as [Hb Hbs].
  change (pass_blanks source (b :: bs) st)
    with (pass_blanks source bs (pass_blank source b st)).
  change (blanks_text (b :: bs)) with (blank_text b ++ blanks_text bs) in Hsrc.
  rewrite <- app_assoc in Hsrc.
  rewrite (next_over_blank source pre b (blanks_text bs ++ rest) st Hsrc Ho Hb Hs Hr).
  destruct (pass_blank_stack source b st) as [Hs' Hd'].
  apply (IH (pre ++ blank_text b) rest).
  - rewrite Hsrc, <- app_assoc. reflexivity.
  - rewrite pass_blank_offset, Ho, length_app. lia.
  - exact Hbs.
  - congruence.
  - unfold reads_string in *. rewrite Hs', Hd'. exact Hr.
Qed.

Lemma skipn_at (s p r : str) (n : nat) :
  s = p ++ r -> n = length p -> skipn n s = r.
Proof. intros -> ->. apply skipn_prefix. Qed.

(** The comment slot after a line comment. *)
Lemma pass_line_slot source (pre body rest : str) st :
  source = pre ++ SLASH :: SLASH :: body ++ LF :: rest ->
  offset st = length pre -> forallb not_LF body = true ->
  comment_slot (pass_blank source (Blank_line body) st)
  = match body with
    | b0 :: text =>
        if N.eqb b0 SLASH
        then (Some [SLASH], Some (trim (replace_first setCommentRe [] text)),
              line st)
        else comment_slot st
    | [] => comment_slot st
    end.
Proof.
  intros Hsrc Ho Hbody. cbn [pass_blank]. cbv zeta. rewrite Ho.
  assert (E2 : skipn (S (S (length pre))) source = body ++ LF :: rest).
  { apply (skipn_at source (pre ++ [SLASH; SLASH])).
    - rewrite Hsrc, <- app_assoc. reflexivity.
    - rewrite length_app. cbn [length]. lia. }
  destruct body as [|b0 text].
  - rewrite (charAt_skipn source _ LF rest E2). reflexivity.
  - rewrite (charAt_skipn source _ b0 (text ++ LF :: rest) E2).
    cbn [str_eqb]. rewrite andb_true_r. destruct (N.eqb b0 SLASH) eqn:Hb0;
      [|reflexivity].
    apply N.eqb_eq in Hb0. subst b0.
    rewrite setComment_text, (charAt_skipn source _ SLASH _ E2).
    unfold comment_slot. simpl_st. do 2 f_equal. f_equal.
    cbn [forallb] in Hbody. apply andb_true_iff in Hbody as [_ Htext].
    rewrite <- (comment_text_one_line text Htext). f_equal.
    match goal with
    | |- substring _ _ ?x = _ =>
        replace x with (length text + S (S (S (length pre))))
          by (cbn [length]; lia)
    end.
    apply substring_skipn with (r := LF :: rest).
    apply (skipn_split source (S (S (length pre))) [SLASH] _ E2).
Qed.

(** The comment slot after a block comment. *)
Lemma pass_block_slot source (pre seg rest : str) st :
  source = pre ++ SLASH :: STAR :: seg ++ SLASH :: rest ->
  offset st = length pre ->
  comment_slot (pass_blank source (Blank_block seg) st)
  = match seg with
    | b0 :: seg' =>
        if N.eqb b0 STAR
        then (Some [STAR],
              match seg' with
              | [] => Some []
              | _ :: _ => Some (comment_text (removelast seg'))
              end,
              (line st + newlines seg)%Z)
        else comment_slot st
    | [] => comment_slot st
    end.
Proof.
  intros Hsrc Ho. cbn [pass_blank]. cbv zeta. rewrite Ho.
  assert (E2 : skipn (S (S (length pre))) source = seg ++ SLASH :: rest).
  { apply (skipn_at source (pre ++ [SLASH; STAR])).
    - rewrite Hsrc, <- app_assoc. reflexivity.
    - rewrite length_app. cbn [length]. lia. }
  destruct seg as [|b0 seg'].
  - rewrite (charAt_skipn source _ SLASH rest E2). reflexivity.
  - rewrite (charAt_skipn source _ b0 (seg' ++ SLASH :: rest) E2).
    cbn [str_eqb]. rewrite andb_true_r. destruct (N.eqb b0 STAR) eqn:Hb0;
      [|reflexivity].
    apply N.eqb_eq in Hb0. subst b0.
    rewrite setComment_text, (charAt_skipn source _ STAR _ E2).
    unfold comment_slot. simpl_st. do 2 f_equal.
    destruct seg' as [|c1 seg''].
    + f_equal. cbn [length].
      match goal with
      | |- comment_text (substring _ _ ?x) = _ =>
          replace x with (S (S (length pre))) by lia
      end.
      unfold substring.
      rewrite (Nat.min_r (S (S (S (length pre))))),
              (Nat.max_l (S (S (S (length pre))))) by lia.
      assert (Hl : S (S (S (length pre))) <= length source).
      { assert (Hne : [STAR; SLASH] <> []) by discriminate.
        pose proof (skipn_bound source (S (S (length pre))) [STAR; SLASH] rest E2 Hne)
          as Hb. cbn [length] in Hb. lia. }
      rewrite !Nat.min_l by lia.
      replace (S (S (S (length pre))) - S (S (length pre))) with 1 by lia.
      rewrite E2. reflexivity.
    + f_equal. f_equal.
      assert (Hne : c1 :: seg'' <> []) by discriminate.
      rewrite (app_removelast_last STAR Hne) in E2 at 1.
      match goal with
      | |- substring _ _ ?x = _ =>
          replace x with (length (removelast (c1 :: seg'')) + S (S (S (length pre))))
      end.
      * apply substring_skipn
          with (r := [last (c1 :: seg'') STAR] ++ SLASH :: rest).
        apply (skipn_split source (S (S (length pre))) [STAR]).
        rewrite E2. cbn [app]. rewrite <- app_assoc. reflexivity.
      * pose proof (f_equal (@length char) (app_removelast_last STAR Hne)) as Hlen.
        rewrite length_app in Hlen. cbn [length] in Hlen |- *. lia.
Qed.

(** [next] at a plain token after whitespace, when the source ends or goes
    on with a delimiter behind the token. *)
Lemma next_token_exact source (pre g w tail : str) (st : state) :
  source = pre ++ g ++ w ++ tail ->
  stack st = [] -> reads_string st = false -> offset st = length pre ->
  forallb is_space g = true -> plain_token w = true ->
  stops (fun c : char => negb (is_delim c)) tail ->
  next source st
  = (Ret (Some w),
     at_pos (length w + (length g + offset st)) (line st + newlines g) st).
Proof.
  intros Hsrc Hs Hr Ho Hg Hw Htail.
  destruct w as [|c tok0]; [discriminate|]. cbn [plain_token] in Hw.
  apply andb_true_iff in Hw as [Hw Hone]. apply andb_true_iff in Hw as [Hw Htok0].
  apply andb_true_iff in Hw as [Hw Hnq]. apply andb_true_iff in Hw as [Hc Hsl].
  apply negb_true_iff in Hc, Hsl. apply N.eqb_neq in Hsl.
  rewrite (next_scan source st Hs Hr).
  assert (E0 : skipn (offset st) source = g ++ c :: tok0 ++ tail)
    by (rewrite Hsrc, Ho; apply skipn_prefix).
  destruct (length source) as [|n] eqn:En.
  { exfalso. apply (f_equal (@length char)) in E0.
    rewrite length_skipn, En, length_app in E0. cbn [length] in E0. lia. }
  clear En. cbn [scan]. unfold scan_step.
  replace (Nat.eqb (offset st) (length source)) with false.
  2:{ symmetry. apply Nat.eqb_neq. intros Hx. rewrite Hx, skipn_all in E0.
      destruct g; discriminate. }
  rewrite E0, (skip_whitespace_run g c _ _ _ Hg Hc).
  replace (N.eqb c SLASH) with false by (symmetry; apply N.eqb_neq; exact Hsl).
  set (st1 := at_pos (length g + offset st) (line st + newlines g) st).
  assert (E1 : skipn (offset st1) source = c :: tok0 ++ tail)
    by (apply (skipn_split source (offset st) g _ E0)).
  destruct (scan_token_shape source st1 c _ E1) as (tok & Htok & E2 & Hdl & Hst & ->).
  assert (Et : tok = tok0).
  { destruct (is_delim c) eqn:Hdc.
    - rewrite (Hdl eq_refl). cbn [negb orb] in Hone.
      destruct tok0; [reflexivity | discriminate].
    - rewrite E1 in E2. cbn [app] in E2. injection E2 as E2.
      symmetry in E2.
      apply (run_unique (fun x : char => negb (is_delim x)) tok _ _ _ E2 Htok Htok0).
      + apply Hst. reflexivity.
      + exact Htail. }
  subst tok. cbv zeta.
  unfold no_quote in Hnq. apply negb_true_iff, orb_false_iff in Hnq as [Hq1 Hq2].
  cbn [str_eqb]. rewrite Hq1, Hq2. cbn [andb orb]. unfold st1. simpl_st.
  reflexivity.
Qed.

(** ** Comments in the source *)

(** [next] at a line comment that a newline ends, after whitespace. *)
Lemma next_line_comment (pre ws body rest : str) (st : state) :
  let source := pre ++ ws ++ SLASH :: SLASH :: body ++ LF :: rest in
  let st2 := pass_blanks source [Blank_space ws; Blank_line body] st in
  stack st = [] -> reads_string st = false -> offset st = length pre ->
  forallb is_space ws = true -> forallb not_LF body = true ->
  next source st = next source st2 /\
  offset st2 = length body + 3 + (length ws + length pre) /\
  line st2 = (line st + newlines ws + 1)%Z /\
  stack st2 = [] /\ stringDelim st2 = stringDelim st /\
  comment_slot st2
  = match body with
    | b0 :: text =>
        if N.eqb b0 SLASH
        then (Some [SLASH], Some (trim (replace_first setCommentRe [] text)),
              (line st + newlines ws)%Z)
        else comment_slot st
    | [] => comment_slot st
    end /\
  (forall ws2 w tail : str,
      rest = ws2 ++ w ++ tail -> forallb is_space ws2 = true ->
      plain_token w = true -> stops (fun c : char => negb (is_delim c)) tail ->
      next source st
      = (Ret (Some w),
         at_pos (length w + (length ws2 + offset st2))
                (line st2 + newlines ws2) st2)).
Proof.
  intros source st2 Hs Hr Ho Hws Hbody.
  set (bs := [Blank_space ws; Blank_line body]) in *.
  assert (Hbt : blanks_text bs = ws ++ SLASH :: SLASH :: body ++ [LF])
    by (unfold bs, blanks_text; cbn [map concat blank_text];
        rewrite app_nil_r; reflexivity).
  assert (Hsrc : source = pre ++ blanks_text bs ++ rest).
  { rewrite Hbt. unfold source. rewrite <- !app_assoc. cbn [app].
    rewrite <- app_assoc. reflexivity. }
  assert (Hok : forallb blank_ok bs = true)
    by (cbn [bs forallb blank_ok]; rewrite Hws, Hbody; reflexivity).
  assert (Hn : next source st = next source st2)
    by (exact (next_over_blanks source bs pre rest st Hsrc Ho Hok Hs Hr)).
  destruct (pass_blanks_stack source bs st) as [Hs2 Hd2]. fold st2 in Hs2, Hd2.
  assert (Ho2 : offset st2 = length body + 3 + (length ws + length pre)).
  { unfold st2. rewrite pass_blanks_offset, Hbt, Ho, length_app. cbn [length].
    rewrite length_app. cbn [length]. lia. }
  assert (Hl2 : line st2 = (line st + newlines ws + 1)%Z).
  { unfold st2. rewrite (pass_blanks_line source bs st Hok), Hbt.
    rewrite newlines_app, !newlines_slash, newlines_app, newlines_LF.
    rewrite (newlines_none not_LF body eq_refl Hbody). lia. }
  split; [exact Hn|]. split; [exact Ho2|]. split; [exact Hl2|].
  split; [congruence|]. split; [exact Hd2|]. split.
  - unfold st2, bs. cbn [pass_blanks fold_left].
    rewrite (pass_line_slot source (pre ++ ws) body rest).
    + destruct body as [|b0 text]; [reflexivity|].
      destruct (N.eqb b0 SLASH); reflexivity.
    + unfold source. rewrite <- app_assoc. reflexivity.
    + rewrite pass_blank_offset, Ho, length_app. cbn [blank_text]. lia.
    + exact Hbody.
  - intros ws2 w tail Hrest Hws2 Hw Htail. rewrite Hn.
    apply (next_token_exact source (pre ++ blanks_text bs) ws2 w tail st2).
    + rewrite Hsrc, Hrest, <- !app_assoc. reflexivity.
    + congruence.
    + unfold reads_string in *. rewrite Hs2, Hd2. exact Hr.
    + rewrite Ho2, Hbt, !length_app. cbn [length]. rewrite length_app.
      cbn [length]. lia.
    + exact Hws2.
    + exact Hw.
    + exact Htail.
Qed.

(** X17: a line comment that a newline ends is passed over.  From a
    cursor before whitespace and the two slashes, [next] does exactly what it
    does from the state behind the newline of the comment: cursor there, the
    line counter raised by the newlines passed, stack and pending delimiter
    as they were, and the comment slot holding, if the comment opens with
    three slashes, type slash, the text after the third slash stripped and
    trimmed, and the line of the comment, and being as it was otherwise.
    When whitespace and a token that is no quote and does not start with a
    slash follow, with a delimiter or the end of the source behind the
    token, [next] returns exactly this token. *)
Theorem line_comment_skipped (pre ws body rest : str) (st : state) :
  let source := pre ++ ws ++ SLASH :: SLASH :: body ++ LF :: rest in
  let st2 := pass_blanks source [Blank_space ws; Blank_line body] st in
  stack st = [] -> reads_string st = false -> offset st = length pre ->
  forallb is_space ws = true -> forallb not_LF body = true ->
  next source st = next source st2 /\
  offset st2 = length body + 3 + (length ws + length pre) /\
  line st2 = (line st + newlines ws + 1)%Z /\
  stack st2 = [] /\ stringDelim st2 = stringDelim st /\
  comment_slot st2
  = match body with
    | b0 :: text =>
        if N.eqb b0 SLASH
        then (Some [SLASH], Some (trim (replace_first setCommentRe [] text)),
              (line st + newlines ws)%Z)
        else comment_slot st
    | [] => comment_slot st
    end /\
  (forall ws2 w tail : str,
      rest = ws2 ++ w ++ tail -> forallb is_space ws2 = true ->
      plain_token w = true -> stops (fun c : char => negb (is_delim c)) tail ->
      next source st
      = (Ret (Some w),
         at_pos (length w + (length ws2 + offset st2))
                (line st2 + newlines ws2) st2)).
Proof. exact (next_line_comment pre ws body rest st). Qed.

Lemma line_comment_skipped_witness :
  let source := js "x;" ++ js "  " ++ SLASH :: SLASH :: js "/ about y" ++ LF
                :: js "  yes = 1" in
  let st := set_offset 2 init in
  let st2 := pass_blanks source [Blank_space (js "  "); Blank_line (js "/ about y")] st in
  next source st = next source st2 /\
  offset st2 = 16 /\ line st2 = 2%Z /\
  comment_slot st2 = (Some [SLASH], Some (js "about y"), 1%Z) /\
  next source st = (Ret (Some (js "yes")), at_pos 21 2 st2).
Proof.
  cbv zeta.
  destruct (line_comment_skipped (js "x;") (js "  ") (js "/ about y")
              (js "  yes = 1") (set_offset 2 init)
              eq_refl eq_refl eq_refl eq_refl eq_refl)
    as (H1 & H2 & H3 & _ & _ & H4 & H5).
  split; [exact H1|]. split; [exact H2|]. split; [exact H3|].
  split; [exact H4|].
  exact (H5 (js "  ") (js "yes") (js " = 1") eq_refl eq_refl eq_refl eq_refl).
Defined.

(** X18: the comment that trails a line.  With nothing buffered, no
    string pending and no text in the slot, [cmnt(trailingLine)] called with
    the line of a three-slash comment that lies ahead after whitespace only,
    whose text is not empty, and that whitespace and a token follow (no quote,
    no slash at its start, a delimiter or the end of the source behind it),
    peeks past the comment, returns its text and empties the slot; exactly
    that token waits on the stack and is what [next] returns. *)
Theorem trailing_comment_attached (pre ws text ws2 w tail : str) (st : state) :
  let source := pre ++ ws ++ SLASH :: SLASH :: (SLASH :: text) ++ LF
                :: ws2 ++ w ++ tail in
  let t := trim (replace_first setCommentRe [] text) in
  stack st = [] -> reads_string st = false -> offset st = length pre ->
  truthy (commentText st) = false ->
  forallb is_space ws = true -> forallb not_LF text = true ->
  forallb is_space ws2 = true -> plain_token w = true ->
  stops (fun c : char => negb (is_delim c)) tail ->
  t <> [] ->
  exists st' : state,
    cmnt source (Some (line st + newlines ws)%Z) st = (Ret (Some t), st') /\
    stack st' = [w] /\
    comment_slot st' = (None, None, 0%Z) /\
    line st' = (line st + newlines ws + 1 + newlines ws2)%Z /\
    offset st'
    = length w + (length ws2 + (length text + 4 + (length ws + length pre))) /\
    stringDelim st' = stringDelim st /\
    next source st' = (Ret (Some w), set_stack [] st').
Proof.
  intros source t Hs Hr Ho Ht Hws Htext Hws2 Hw Htail Hne.
  assert (Hbody : forallb not_LF (SLASH :: text) = true) by exact Htext.
  destruct (next_line_comment pre ws (SLASH :: text) (ws2 ++ w ++ tail) st
              Hs Hr Ho Hws Hbody)
    as (_ & Ho2 & Hl2 & Hs2 & Hd2 & Hc2 & Htok).
  fold source in Ho2, Hl2, Hs2, Hd2, Hc2, Htok.
  specialize (Htok ws2 w tail eq_refl Hws2 Hw Htail).
  remember (pass_blanks source [Blank_space ws; Blank_line (SLASH :: text)] st)
    as st2 eqn:Est2.
  clear Est2.
  rewrite N.eqb_refl in Hc2. fold t in Hc2.
  unfold comment_slot in Hc2. injection Hc2 as Hty Htx Hcl.
  rewrite cmnt_with_argument, Ht. cbn [negb].
  rewrite (peek_empty source st Hs), Htok. simpl_st. rewrite Hs2.
  cbn [app hd_error]. cbv zeta. simpl_st.
  rewrite Htx, Hcl, Hty, Z.eqb_refl.
  cbn [opt_str_eqb str_eqb]. rewrite N.eqb_refl. cbn [andb].
  unfold and_or_null. cbn [andb].
  destruct t as [|t0 t']; [congruence|]. cbn [truthy].
  eexists. split; [reflexivity|]. unfold comment_slot. simpl_st.
  rewrite Hl2, Ho2. cbn [length].
  repeat split; try reflexivity; try lia. exact Hd2.
Qed.

Lemma trailing_comment_attached_witness :
  let source := js "x;" ++ js "  " ++ SLASH :: SLASH :: (SLASH :: js " about x") ++ LF
                :: js "  " ++ js "yes" ++ js " = 1" in
  exists st' : state,
    cmnt source (Some 1%Z) (set_offset 2 init)
    = (Ret (Some (js "about x")), st') /\
    stack st' = [js "yes"] /\
    comment_slot st' = (None, None, 0%Z) /\
    line st' = 2%Z /\ offset st' = 21 /\ stringDelim st' = None /\
    next source st' = (Ret (Some (js "yes")), set_stack [] st').
Proof.
  cbv zeta.
  apply (trailing_comment_attached (js "x;") (js "  ") (js " about x") (js "  ")
           (js "yes") (js " = 1") (set_offset 2 init));
    try reflexivity.
  discriminate.
Defined.

(** X19: a block comment is passed over up to the first slash that
    directly follows a star, the star of the opening included (slash, star,
    slash is a whole comment).  From a cursor before whitespace and the
    opening, [next] does exactly what it does from the state behind that
    slash: cursor there, the line counter raised by the newlines passed,
    those of the comment included, stack and pending delimiter as they were.
    If the character after the opening is a star the slot holds type star,
    the text made of the characters between that star and the closing star
    (the empty text when that star is the closing star), and the line the
    comment ends on; otherwise the slot is as it was.  When whitespace and a
    token that is no quote and does not start with a slash follow, with a
    delimiter or the end of the source behind the token, [next] returns
    exactly this token. *)
Theorem block_comment_skipped (pre ws seg rest : str) (st : state) :
  let source := pre ++ ws ++ SLASH :: STAR :: seg ++ SLASH :: rest in
  let st2 := pass_blanks source [Blank_space ws; Blank_block seg] st in
  stack st = [] -> reads_string st = false -> offset st = length pre ->
  forallb is_space ws = true ->
  no_close STAR seg = true -> last seg STAR = STAR ->
  next source st = next source st2 /\
  offset st2 = length seg + 3 + (length ws + length pre) /\
  line st2 = (line st + newlines ws + newlines seg)%Z /\
  stack st2 = [] /\ stringDelim st2 = stringDelim st /\
  comment_slot st2
  = match seg with
    | b0 :: seg' =>
        if N.eqb b0 STAR
        then (Some [STAR],
              match seg' with
              | [] => Some []
              | _ :: _ => Some (comment_text (removelast seg'))
              end,
              (line st + newlines ws + newlines seg)%Z)
        else comment_slot st
    | [] => comment_slot st
    end /\
  (forall ws2 w tail : str,
      rest = ws2 ++ w ++ tail -> forallb is_space ws2 = true ->
      plain_token w = true -> stops (fun c : char => negb (is_delim c)) tail ->
      next source st
      = (Ret (Some w),
         at_pos (length w + (length ws2 + offset st2))
                (line st2 + newlines ws2) st2)).
Proof.
  intros source st2 Hs Hr Ho Hws Hnc Hlast.
  set (bs := [Blank_space ws; Blank_block seg]) in *.
  assert (Hbt : blanks_text bs = ws ++ SLASH :: STAR :: seg ++ [SLASH])
    by (unfold bs, blanks_text; cbn [map concat blank_text];
        rewrite app_nil_r; reflexivity).
  assert (Hsrc : source = pre ++ blanks_text bs ++ rest).
  { rewrite Hbt. unfold source. rewrite <- !app_assoc. cbn [app].
    rewrite <- app_assoc. reflexivity. }
  assert (Hok : forallb blank_ok bs = true)
    by (cbn [bs forallb blank_ok]; rewrite Hws, Hnc, Hlast; reflexivity).
  assert (Hn : next source st = next source st2)
    by (exact (next_over_blanks source bs pre rest st Hsrc Ho Hok Hs Hr)).
  destruct (pass_blanks_stack source bs st) as [Hs2 Hd2]. fold st2 in Hs2, Hd2.
  assert (Ho2 : offset st2 = length seg + 3 + (length ws + length pre)).
  { unfold st2. rewrite pass_blanks_offset, Hbt, Ho, length_app. cbn [length].
    rewrite length_app. cbn [length]. lia. }
  assert (Hl2 : line st2 = (line st + newlines ws + newlines seg)%Z).
  { unfold st2. rewrite (pass_blanks_line source bs st Hok), Hbt.
    rewrite newlines_app, newlines_slash, newlines_star, newlines_app,
      newlines_slash, newlines_nil. lia. }
  split; [exact Hn|]. split; [exact Ho2|]. split; [exact Hl2|].
  split; [congruence|]. split; [exact Hd2|]. split.
  - unfold st2, bs. cbn [pass_blanks fold_left].
    rewrite (pass_block_slot source (pre ++ ws) seg rest).
    + destruct seg as [|b0 seg']; [reflexivity|].
      destruct (N.eqb b0 STAR); reflexivity.
    + unfold source. rewrite <- app_assoc. reflexivity.
    + rewrite pass_blank_offset, Ho, length_app. cbn [blank_text]. lia.
  - intros ws2 w tail Hrest Hws2 Hw Htail. rewrite Hn.
    apply (next_token_exact source (pre ++ blanks_text bs) ws2 w tail st2).
    + rewrite Hsrc, Hrest, <- !app_assoc. reflexivity.
    + congruence.
    + unfold reads_string in *. rewrite Hs2, Hd2. exact Hr.
    + rewrite Ho2, Hbt, !length_app. cbn [length]. rewrite length_app.
      cbn [length]. lia.
    + exact Hws2.
    + exact Hw.
    + exact Htail.
Qed.

Lemma block_comment_skipped_witness :
  (let seg := STAR :: LF :: js " * about y" ++ [LF; SP; STAR] in
   let source := js "x" ++ [LF] ++ SLASH :: STAR :: seg ++ SLASH :: LF :: js "yes;" in
   let st := set_offset 1 init in
   let st2 := pass_blanks source [Blank_space [LF]; Blank_block seg] st in
   next source st = next source st2 /\
   offset st2 = 20 /\ line st2 = 4%Z /\
   comment_slot st2 = (Some [STAR], Some (js "about y"), 4%Z) /\
   next source st = (Ret (Some (js "yes")), at_pos 24 5 st2))
  /\
  (let source := js "/*/ a */ b" in
   let st2 := pass_blanks source [Blank_space []; Blank_block []] init in
   next source init = next source st2 /\
   offset st2 = 3 /\ comment_slot st2 = (None, None, 0%Z) /\
   next source init = (Ret (Some (js "a")), at_pos 5 1 st2)).
Proof.
  cbv zeta. split.
  - destruct (block_comment_skipped (js "x") [LF]
                (STAR :: LF :: js " * about y" ++ [LF; SP; STAR])
                (LF :: js "yes;") (set_offset 1 init)
                eq_refl eq_refl eq_refl eq_refl eq_refl eq_refl)
      as (H1 & H2 & H3 & _ & _ & H4 & H5).
    split; [exact H1|]. split; [exact H2|]. split; [exact H3|].
    split; [exact H4|].
    exact (H5 [LF] (js "yes") (js ";") eq_refl eq_refl eq_refl eq_refl).
  - destruct (block_comment_skipped [] [] [] (js " a */ b") init
                eq_refl eq_refl eq_refl eq_refl eq_refl eq_refl)
      as (H1 & H2 & _ & _ & _ & H4 & H5).
    split; [exact H1|]. split; [exact H2|]. split; [exact H4|].
    exact (H5 (js " ") (js "a") (js " */ b") eq_refl eq_refl eq_refl eq_refl).
Defined.

(** X20: a block comment in which no slash directly follows a star, the
    star of the opening included, makes [next] throw "illegal comment": the
    line of the message counts the newlines of the whitespace before the
    comment and of the comment, and the cursor is left at the end of the
    source.  (Slash, star, slash is a closed comment: see X19.) *)
Theorem block_comment_unterminated (pre ws body : str) (st : state) :
  let source := pre ++ ws ++ SLASH :: STAR :: body in
  let ln := (line st + newlines ws + newlines body)%Z in
  stack st = [] -> reads_string st = false -> offset st = length pre ->
  forallb is_space ws = true -> no_close STAR body = true ->
  next source st
  = (Throw (Illegal Comment ln), at_pos (length source) ln st).
Proof.
  intros source ln Hs Hr Ho Hws Hbody.
  rewrite (next_scan source st Hs Hr). cbn [scan]. unfold source at 1.
  rewrite (scan_step_at_slash pre ws STAR body st Ho Hws).
  fold source. cbv zeta. change (N.eqb STAR SLASH) with false. cbv iota.
  rewrite N.eqb_refl.
  rewrite (block_end_open body STAR _ _ Hbody), newlines_star. fold ln.
  replace (S (length body) + S (length ws + length pre)) with (length source)
    by (unfold source; rewrite !length_app; cbn [length]; lia).
  reflexivity.
Qed.

Lemma block_comment_unterminated_witness :
  next (js "x" ++ js " " ++ SLASH :: STAR :: js " a*b /" ++ [LF])
       (set_offset 1 init)
  = (Throw (Illegal Comment 2), at_pos 11 2 (set_offset 1 init)).
Proof.
  apply (block_comment_unterminated (js "x") (js " ") (js " a*b /" ++ [LF])
           (set_offset 1 init)); reflexivity.
Defined.

(** ** [cmnt] with a line *)

(** X21: with a captured text that is not empty, [cmnt(trailingLine)]
    returns the text, and empties the slot, if and only if the recorded line
    is [trailingLine] and the comment is a line comment (type slash); in every
    other case, a block comment on that very line included, it returns [null]
    and changes nothing. *)
Theorem cmnt_trailing_line_comments_only
        (source : str) (st : state) (text : str) (tl : Z) :
  commentText st = Some text -> text <> [] ->
  (cmnt source (Some tl) st = (Ret (Some text), set_comment None None 0 st)
   <-> commentLine st = tl /\ commentType st = Some [SLASH]) /\
  (commentLine st <> tl \/ commentType st <> Some [SLASH] ->
   cmnt source (Some tl) st = (Ret None, st)).
Proof.
  intros Ht Hne. rewrite cmnt_with_argument, Ht.
  destruct text as [|c t]; [congruence|]. cbn [truthy negb]. cbv zeta.
  rewrite Ht. unfold and_or_null. cbn [truthy]. rewrite andb_true_r.
  assert (Hty : opt_str_eqb (commentType st) (Some [SLASH]) = true
                <-> commentType st = Some [SLASH]).
  { destruct (commentType st) as [ty|]; cbn [opt_str_eqb].
    - rewrite str_eqb_eq. split; [intros ->; reflexivity | intros H; injection H; auto].
    - split; discriminate. }
  destruct (Z.eqb_spec (commentLine st) tl) as [E | E]; cbn [andb].
  - destruct (opt_str_eqb (commentType st) (Some [SLASH])) eqn:Eo; cbn [truthy].
    + split; [split; [intros _; split; [exact E | apply Hty; reflexivity] | reflexivity]|].
      intros [H | H]; [contradiction|]. exfalso. apply H. apply Hty. reflexivity.
    + split; [|reflexivity]. split; [discriminate|].
      intros [_ H]. apply Hty in H. discriminate.
  - cbn [truthy]. split; [|reflexivity]. split; [discriminate|].
    intros [H _]. contradiction.
Qed.

Lemma cmnt_trailing_line_comments_only_witness :
  let source := js "a; /// about a" ++ LF :: js "b" in
  let st := snd (peek source (snd (nexts source 2 init))) in
  cmnt source (Some 1%Z) st
  = (Ret (Some (js "about a")), set_comment None None 0 st).
Proof.
  cbv zeta.
  apply (proj1 (cmnt_trailing_line_comments_only
                  (js "a; /// about a" ++ LF :: js "b")
                  (snd (peek (js "a; /// about a" ++ LF :: js "b")
                          (snd (nexts (js "a; /// about a" ++ LF :: js "b") 2 init))))
                  (js "about a") 1%Z eq_refl ltac:(discriminate))).
  split; reflexivity.
Defined.

(** ** [peek] with a string pending, in every state *)



(** ** [skip] and [next] *)

(** With no string pending, [peek] reports the token [next] returns. *)
Lemma peek_reports_next source st t st' :
  offset st <= length source -> reads_string st = false ->
  next source st = (Ret (Some t), st') ->
  exists (st1 : state) (l : list str),
    peek source st = (Ret (Some t), st1) /\ stack st1 = t :: l /\
    set_stack l st1 = st'.
Proof.
  intros Hb Hr H.
  destruct (peek source st) as [[a| e |] st1] eqn:Ep.
  - pose proof (peek_then_next source st a st1 Ep) as Ha.
    rewrite (peek_transparent source st a st1 Hb Hr Ep), H in Ha.
    cbn [fst] in Ha. injection Ha as <-.
    destruct (peek_some source st t st1 Ep) as [l Hl].
    exists st1, l. split; [reflexivity|]. split; [exact Hl|].
    pose proof (peek_transparent source st (Some t) st1 Hb Hr Ep) as Hn.
    rewrite (next_pop source st1 t l Hl), H in Hn. congruence.
  - exfalso. destruct (stack st) as [|t0 l0] eqn:Hs.
    + rewrite (peek_empty source st Hs), H in Ep. discriminate.
    + rewrite (peek_buffered source st t0 l0 Hs) in Ep. discriminate.
  - exfalso. exact (peek_returns source st (f_equal fst Ep)).
Qed.

(** X23: with no string pending, a [skip] that finds its token is a
    [next]: when the token [next] would return is the expected one,
    [skip(expected)] returns [true] and leaves exactly the state [next]
    leaves; when it is another one, [skip(expected, true)] returns [false]
    and the token is not lost: the call of [next] after it returns that
    token and leaves the state [next] would have left at once. *)
Theorem skip_is_next_on_match (source : str) (st : state) (t : str) (st' : state) :
  offset st <= length source -> reads_string st = false ->
  next source st = (Ret (Some t), st') ->
  (forall optional, skip source t optional st = (Ret true, st')) /\
  (forall expected,
      expected <> t ->
      fst (skip source expected true st) = Ret false /\
      next source (snd (skip source expected true st)) = (Ret (Some t), st')).
Proof.
  intros Hb Hr H.
  destruct (peek_reports_next source st t st' Hb Hr H) as (st1 & l & Hp & Hl & Hst).
  split.
  - intros optional. rewrite skip_spec, Hp. cbn [opt_str_eqb].
    rewrite str_eqb_refl, Hl. cbn [tl]. rewrite Hst. reflexivity.
  - intros expected Hne. rewrite skip_spec, Hp. cbn [opt_str_eqb].
    replace (str_eqb t expected) with false.
    + cbn [fst snd]. split; [reflexivity|].
      rewrite (next_pop source st1 t l Hl), Hst. reflexivity.
    + symmetry. destruct (str_eqb t expected) eqn:E; [|reflexivity].
      apply str_eqb_eq in E. congruence.
Qed.

Lemma skip_is_next_on_match_witness :
  let source := js "a ; b" in
  let st := snd (next source init) in
  (forall optional, skip source (js ";") optional st = (Ret true, snd (next source st))) /\
  (forall expected,
      expected <> js ";" ->
      fst (skip source expected true st) = Ret false /\
      next source (snd (skip source expected true st))
      = (Ret (Some (js ";")), snd (next source st))).
Proof.
  cbv zeta.
  apply (skip_is_next_on_match (js "a ; b") (snd (next (js "a ; b") init)) (js ";")).
  - cbn. lia.
  - reflexivity.
  - vm_compute. reflexivity.
Defined.

(** * The statements of the specification *)

(** ** Quoted literals *)

(** The three tokens of a literal at the cursor. *)
Lemma quoted_literal_at (pre body post : str) (q : char) (st : state) :
  q = DQUOTE \/ q = SQUOTE ->
  closed_body q body = true ->
  stack st = [] -> stringDelim st = None -> offset st = length pre ->
  nexts (pre ++ q :: body ++ q :: post) 3 st
  = ([Ret (Some [q]); Ret (Some (unescape body)); Ret (Some [q])],
     set_offset (length body + 2 + length pre) st).
Proof.
  intros Hq Hb Hs Hd Ho.
  assert (Hqb : q <> BACKSLASH) by (destruct Hq; subst q; discriminate).
  cbn [nexts].
  rewrite (next_at_quote pre (body ++ q :: post) q st Hq Hs Hd Ho).
  unfold next at 1. cbn [stack set_stringDelim set_offset stringDelim]. rewrite Hs.
  unfold readString, push. cbn [offset set_stringDelim set_offset].
  replace (if str_eqb [q] [SQUOTE] then stringSingleRe else stringDoubleRe)
    with (stringRe q) by (destruct Hq; subst q; reflexivity).
  replace (S (length pre) - 1) with (length pre) by lia.
  rewrite (exec_stringRe_closed pre body post q Hqb Hb).
  cbn [group1 snd]. unfold next at 1.
  cbn [stack set_stringDelim set_offset set_stack stringDelim]. rewrite Hs.
  cbn [app]. f_equal.
  destruct st as [o l ct cx cl sk sd]. cbn in Hs, Hd. subst sk sd. reflexivity.
Qed.

Lemma nexts_first source n st st' :
  next source st = next source st' ->
  nexts source (S n) st = nexts source (S n) st'.
Proof. intros H. cbn [nexts]. rewrite H. reflexivity. Qed.

(** C1, as amended: a quoted literal whose body holds no backslash
    directly before a line terminator comes out of three calls of [next] as
    the quote, the decoded body and the quote again; an escaped quote inside
    the body does not end it (and is dropped by the decoding).  This holds
    wherever the literal stands: whatever whitespace and comments [next] has
    to pass on its way to the opening quote (first part), and in every state
    in which [next], with nothing buffered and no string pending, returns a
    quote that it has read from the source (second part). *)
Theorem quoted_literal_tokens :
  (forall (pre : str) (bs : list blank) (body post : str) (q : char)
          (st : state),
      q = DQUOTE \/ q = SQUOTE ->
      closed_body q body = true ->
      forallb blank_ok bs = true ->
      stack st = [] -> stringDelim st = None -> offset st = length pre ->
      let source := pre ++ blanks_text bs ++ q :: body ++ q :: post in
      nexts source 3 st
      = ([Ret (Some [q]); Ret (Some (unescape body)); Ret (Some [q])],
         set_offset (length body + 2 + length (pre ++ blanks_text bs))
                    (pass_blanks source bs st)))
  /\
  (forall (source pre body post : str) (q : char) (st st1 : state),
      q = DQUOTE \/ q = SQUOTE ->
      closed_body q body = true ->
      stack st = [] -> reads_string st = false ->
      offset st <= length source ->
      next source st = (Ret (Some [q]), st1) ->
      source = pre ++ q :: body ++ q :: post -> offset st1 = S (length pre) ->
      nexts source 2 st1
      = ([Ret (Some (unescape body)); Ret (Some [q])],
         set_stringDelim None (set_offset (length body + 2 + length pre) st1))).
Proof.
  split.
  - intros pre bs body post q st Hq Hb Hok Hs Hd Ho source.
    assert (Hr : reads_string st = false)
      by (unfold reads_string; rewrite Hs, Hd; reflexivity).
    assert (Hn : next source st = next source (pass_blanks source bs st)).
    { apply (next_over_blanks source bs pre (q :: body ++ q :: post));
        [reflexivity | assumption..]. }
    rewrite (nexts_first source 2 st _ Hn).
    destruct (pass_blanks_stack source bs st) as [Hs2 Hd2].
    pose proof (pass_blanks_offset source bs st) as Ho2.
    remember (pass_blanks source bs st) as st2 eqn:Est2. clear Est2.
    unfold source. rewrite app_assoc.
    apply quoted_literal_at; try assumption; try congruence.
    rewrite Ho2, Ho, length_app. lia.
  - intros source pre body post q st st1 Hq Hb Hs Hr Hbd Hn Hsrc Ho1.
    assert (Hqb : q <> BACKSLASH) by (destruct Hq; subst q; discriminate).
    rewrite (next_scan source st Hs Hr) in Hn.
    pose proof (scan_spec source _ st _ st1 Hbd Hn) as (_ & Hs1 & _).
    pose proof (scan_shape source _ st [q] st1 Hbd Hn) as [_ Hd1].
    replace (is_quote [q]) with true in Hd1
      by (destruct Hq; subst q; reflexivity).
    rewrite Hs in Hs1.
    assert (Hread : readString source [q] st1
                    = (Ret (Some (unescape body)),
                       set_stringDelim None
                         (set_stack [[q]]
                            (set_offset (length body + 2 + length pre) st1)))).
    { unfold readString, push. rewrite Ho1.
      replace (if str_eqb [q] [SQUOTE] then stringSingleRe else stringDoubleRe)
        with (stringRe q) by (destruct Hq; subst q; reflexivity).
      replace (S (length pre) - 1) with (length pre) by lia.
      rewrite Hsrc, (exec_stringRe_closed pre body post q Hqb Hb).
      cbn [group1 snd]. simpl_st. rewrite Hs1. reflexivity. }
    assert (Hnext : next source st1 = readString source [q] st1)
      by (unfold next; rewrite Hs1, Hd1; reflexivity).
    cbn [nexts]. rewrite Hnext, Hread.
    unfold next. simpl_st. f_equal.
    destruct st1 as [o l ct cx cl sk sd]. cbn in Hs1. subst sk. reflexivity.
Qed.

Lemma quoted_literal_tokens_witness :
  (let source := js "x = " ++ [DQUOTE] ++ js "a\" ++ [DQUOTE] ++ js "b"
                 ++ [DQUOTE] ++ js ";" in
   nexts source 3 (set_offset 3 init)
   = ([Ret (Some [DQUOTE]); Ret (Some (js "ab")); Ret (Some [DQUOTE])],
      set_offset 10 (set_offset 3 init)))
  /\
  (let source := js "a // c" ++ LF :: js "/* d */ " ++ [SQUOTE] ++ js "b c"
                 ++ [SQUOTE] in
   let st1 := snd (nexts source 2 init) in
   fst (nexts source 2 init) = [Ret (Some (js "a")); Ret (Some [SQUOTE])] /\
   nexts source 2 st1
   = ([Ret (Some (js "b c")); Ret (Some [SQUOTE])],
      set_stringDelim None (set_offset 20 st1))).
Proof.
  cbv zeta. split.
  - exact (proj1 quoted_literal_tokens (js "x =") [Blank_space (js " ")]
             (js "a\" ++ [DQUOTE] ++ js "b") (js ";") DQUOTE (set_offset 3 init)
             (or_introl eq_refl) eq_refl eq_refl eq_refl eq_refl eq_refl).
  - split; [reflexivity|].
    apply (proj2 quoted_literal_tokens
                 (js "a // c" ++ LF :: js "/* d */ " ++ [SQUOTE] ++ js "b c" ++ [SQUOTE])
                 (js "a // c" ++ LF :: js "/* d */ ") (js "b c") [] SQUOTE
                 (snd (next (js "a // c" ++ LF :: js "/* d */ " ++ [SQUOTE]
                             ++ js "b c" ++ [SQUOTE]) init)));
      try reflexivity.
    + right. reflexivity.
    + cbn. lia.
Defined.

(** C1, as stated, fails twice.  On the six characters double quote, [a],
    backslash, double quote, [b], double quote the second token is [ab], not
    [a], double quote, [b]; and on double quote, backslash, newline, double
    quote, a literal any quote-and-backslash scan closes, the second call of
    [next] throws "illegal string". *)
Lemma quoted_literal_counterexamples :
  fst (nexts ([DQUOTE] ++ js "a\" ++ [DQUOTE] ++ js "b" ++ [DQUOTE]) 3 init)
  <> [Ret (Some [DQUOTE]); Ret (Some (js "a" ++ [DQUOTE] ++ js "b"));
      Ret (Some [DQUOTE])]
  /\
  fst (nexts [DQUOTE; BACKSLASH; LF; DQUOTE] 2 init)
  = [Ret (Some [DQUOTE]); Throw (Illegal String_ 1)].
Proof. split; [vm_compute; discriminate | vm_compute; reflexivity]. Qed.

(** ** The comment before a token *)

(** C2, as amended: with a captured text that is not empty, [cmnt()]
    returns the text if and only if the recorded line is [line() - 1], and
    returns [null] and changes nothing otherwise; a result other than [null],
    of either form of [cmnt], leaves the slot empty, so that [cmnt()] right
    after it returns [null]; and on [/// hello], a newline and [foo], after
    [foo] has been read [line()] is 2 and [cmnt()] returns [hello]. *)
Theorem cmnt_leading :
  (forall (source : str) (st : state) (text : str),
      commentText st = Some text -> text <> [] ->
      (cmnt source None st = (Ret (Some text), set_comment None None 0 st)
       <-> commentLine st = (line st - 1)%Z) /\
      (commentLine st <> (line st - 1)%Z -> cmnt source None st = (Ret None, st)))
  /\
  (forall (source : str) (tl : option Z) (st : state) (r : str) (st' : state),
      cmnt source tl st = (Ret (Some r), st') ->
      commentType st' = None /\ commentText st' = None /\
      commentLine st' = 0%Z /\
      cmnt source None st' = (Ret None, st'))
  /\
  (let source := js "/// hello" ++ LF :: js "foo" in
   let st := snd (next source init) in
   fst (next source init) = Ret (Some (js "foo")) /\
   line st = 2%Z /\
   fst (cmnt source None st) = Ret (Some (js "hello"))).
Proof.
  split; [|split].
  - intros source st text Ht Hne. rewrite cmnt_no_argument, Ht. cbv zeta.
    destruct text as [|c t]; [congruence|].
    unfold and_or_null. cbn [truthy]. rewrite andb_true_r.
    destruct (Z.eqb_spec (commentLine st) (line st - 1)) as [E | E].
    + cbn [truthy]. split; [tauto|]. intros H. contradiction.
    + cbn [truthy]. split; [|reflexivity]. split; [discriminate | contradiction].
  - intros source tl st r st' H.
    destruct (cmnt_some_clears source tl st r st' H) as (H1 & H2 & H3).
    repeat split; try assumption.
    rewrite cmnt_no_argument, H2. cbv zeta.
    unfold and_or_null. rewrite andb_false_r. reflexivity.
  - cbv zeta. repeat split; vm_compute; reflexivity.
Qed.

Lemma cmnt_leading_witness :
  let source := js "/// hello" ++ LF :: js "foo" in
  let st := snd (next source init) in
  commentText st = Some (js "hello") /\
  commentLine st = (line st - 1)%Z /\
  cmnt source None st = (Ret (Some (js "hello")), set_comment None None 0 st).
Proof.
  cbv zeta. split; [reflexivity|]. split; [reflexivity|].
  apply (proj1 cmnt_leading (js "/// hello" ++ LF :: js "foo")
               (snd (next (js "/// hello" ++ LF :: js "foo") init))
               (js "hello")); [reflexivity | discriminate | reflexivity].
Defined.

(** C2, as stated, fails: on [///], a newline and [foo], after [foo] has
    been read the captured text is the empty string and the recorded line is
    [line() - 1], yet [cmnt()] returns [null], not the text. *)
Lemma cmnt_empty_comment_is_null :
  let source := js "///" ++ LF :: js "foo" in
  let st := snd (next source init) in
  commentText st = Some [] /\
  commentLine st = (line st - 1)%Z /\
  fst (cmnt source None st) = Ret None /\
  fst (cmnt source None st) <> Ret (commentText st).
Proof.
  cbv zeta. repeat split; try (vm_compute; reflexivity).
  vm_compute. discriminate.
Qed.

(** ** [peek] with a string pending *)

(** C3 at the source of the three characters double quote, [a], double
    quote, after the opening quote has been read: two calls of [next] return
    [a] and the quote; with a [peek] first, [peek] reports the quote and the
    two calls return the quote and [a].  ([readString] pushes the closing
    quote before [peek] pushes the body.)  What holds in every state is
    [peek_again] and [peek_then_next], and outside a pending string
    [peek_transparent]. *)
Theorem peek_after_quote_reorders :
  let source := [DQUOTE] ++ js "a" ++ [DQUOTE] in
  let st1 := snd (next source init) in
  fst (next source init) = Ret (Some [DQUOTE]) /\
  fst (nexts source 2 st1) = [Ret (Some (js "a")); Ret (Some [DQUOTE])] /\
  fst (peek source st1) = Ret (Some [DQUOTE]) /\
  fst (nexts source 2 (snd (peek source st1)))
  = [Ret (Some [DQUOTE]); Ret (Some (js "a"))].
Proof. repeat split; vm_compute; reflexivity. Qed.

(** ** The line counter *)

(** C4, as amended: after any sequence of operations on a fresh
    tokenizer, [line()] is 1 plus the newlines among the characters consumed
    so far, less those that [readString] consumed: newlines in whitespace and
    in comments are counted, newlines inside quoted strings are not. *)
Theorem line_counts_newlines (source : str) (ops : list op) :
  let st := run source ops init in
  offset st <= length source /\
  line st = (1 + newlines (firstn (offset st) source)
             - string_newlines source ops init)%Z.
Proof.
  cbv zeta. destruct (run_lines source ops init) as [Ho Hl]; [cbn; lia|].
  cbn [offset line init] in Ho, Hl. split; [lia|].
  rewrite Hl. unfold substring. cbn [Nat.min Nat.max skipn].
  rewrite Nat.sub_0_r, (Nat.min_l _ _ (proj2 Ho)). reflexivity.
Qed.

(** C4, as stated, fails: on double quote, newline, double quote, after
    the quote and the body have been read [line()] is still 1 although the
    newline has been consumed. *)
Lemma newline_in_string_not_counted :
  let source := [DQUOTE; LF; DQUOTE] in
  let st := snd (nexts source 2 init) in
  fst (nexts source 2 init) = [Ret (Some [DQUOTE]); Ret (Some [LF])] /\
  offset st = 3 /\ newlines (firstn (offset st) source) = 1%Z /\
  line st = 1%Z /\
  line st <> (1 + newlines (firstn (offset st) source))%Z.
Proof. cbv zeta. repeat split; try (vm_compute; reflexivity). vm_compute. discriminate. Qed.

(** ** The escape decoder *)

(** C5, as amended: [unescape] is the decoder of the specification except
    that a lone backslash at the end is dropped and that before a line
    terminator only the backslash is dropped. *)
Theorem unescape_decodes (s : str) : unescape s = unescape_ref s.
Proof. apply (replace_unescape (length s)). lia. Qed.

(** C5, as stated, fails: the decoder of the specification keeps a lone
    backslash at the end, and drops a backslash together with the newline
    after it; [unescape] drops the one and keeps the newline of the other. *)
Lemma unescape_spec_differs :
  unescape [BACKSLASH] = [] /\ unescape_spec [BACKSLASH] = [BACKSLASH] /\
  unescape [BACKSLASH; LF] = [LF] /\ unescape_spec [BACKSLASH; LF] = [] /\
  unescape [BACKSLASH] <> unescape_spec [BACKSLASH].
Proof. repeat split; try (vm_compute; reflexivity). vm_compute. discriminate. Qed.

(** Where the two decoders agree: on every string that holds no backslash
    at its end and none before a line terminator. *)
Lemma unescape_spec_agrees (s : str) :
  closed_body BACKSLASH s = true -> unescape s = unescape_spec s.
Proof.
  unfold unescape, replace_g. rewrite (replace_unescape (length s)) by lia.
  remember (length s) as n eqn:Hn.
  assert (Hlen : length s <= n) by lia. clear Hn. revert s Hlen.
  induction n as [|n IH]; intros s Hlen H.
  - destruct s; [reflexivity | inversion Hlen].
  - destruct s as [|c s]; [reflexivity|]. cbn [closed_body] in H.
    cbn [unescape_ref unescape_spec]. cbn [length] in Hlen.
    destruct (N.eqb c BACKSLASH) eqn:Hc.
    + destruct s as [|d s]; [discriminate|].
      apply andb_true_iff in H as [Hd H]. apply negb_true_iff in Hd.
      rewrite Hd. cbn [length] in Hlen. rewrite IH by (assumption || lia). reflexivity.
    + cbn [negb andb] in H. rewrite IH by (assumption || lia). reflexivity.
Qed.

(** ** A line comment that ends the source *)

(** C6: a documentation comment on the last line is captured when a
    newline ends it and is not when the source ends first; the end of the
    source is no error.  So after [foo], [cmnt(1)] finds the comment that
    follows on the same line only when a newline ends the line. *)
Theorem line_comment_at_eof_not_captured :
  next (js "/// hello") init = (Ret None, set_offset 9 init) /\
  next (js "/// hello" ++ [LF]) init
  = (Ret None,
     set_comment (Some [SLASH]) (Some (js "hello")) 1 (at_pos 10 2 init)) /\
  (let source := js "foo /// hello" in
   fst (next source init) = Ret (Some (js "foo")) /\
   fst (cmnt source (Some 1%Z) (snd (next source init))) = Ret None) /\
  (let source := js "foo /// hello" ++ [LF] in
   fst (next source init) = Ret (Some (js "foo")) /\
   fst (cmnt source (Some 1%Z) (snd (next source init)))
   = Ret (Some (js "hello"))).
Proof. cbv zeta. repeat split; vm_compute; reflexivity. Qed.

(** ** A slash that opens no comment *)

(** A slash at the cursor, after whitespace. *)
Lemma lone_slash_at (pre ws post : str) (d : char) (st : state) :
  stack st = [] -> reads_string st = false -> offset st = length pre ->
  forallb is_space ws = true ->
  (d <> SLASH -> d <> STAR ->
   next (pre ++ ws ++ SLASH :: d :: post) st
   = (Ret (Some [SLASH]),
      at_pos (S (length ws + length pre)) (line st + newlines ws) st))
  /\
  next (pre ++ ws ++ [SLASH]) st
  = (Throw (Illegal Comment (line st + newlines ws)),
     at_pos (S (length ws + length pre)) (line st + newlines ws) st).
Proof.
  intros Hs Hr Ho Hws.
  assert (Hsl : is_space SLASH = false) by reflexivity.
  split; [intros Hd1 Hd2|].
  - rewrite (next_scan _ st Hs Hr). cbn [scan]. unfold scan_step.
    replace (Nat.eqb (offset st) _) with false
      by (symmetry; apply Nat.eqb_neq; rewrite Ho, !length_app; cbn [length]; lia).
    rewrite Ho, skipn_prefix, (skip_whitespace_run ws SLASH _ _ _ Hws Hsl).
    rewrite N.eqb_refl.
    replace (N.eqb d SLASH) with false by (symmetry; apply N.eqb_neq; exact Hd1).
    replace (N.eqb d STAR) with false by (symmetry; apply N.eqb_neq; exact Hd2).
    reflexivity.
  - rewrite (next_scan _ st Hs Hr). cbn [scan]. unfold scan_step.
    replace (Nat.eqb (offset st) _) with false
      by (symmetry; apply Nat.eqb_neq; rewrite Ho, !length_app; cbn [length]; lia).
    rewrite Ho, skipn_prefix, (skip_whitespace_run ws SLASH _ _ _ Hws Hsl).
    rewrite N.eqb_refl. reflexivity.
Qed.

(** C7, as amended: wherever [next] meets a slash followed by a character
    other than a slash or a star, at the cursor or after any whitespace and
    comments it passes first, it returns the token [/]; where the slash is
    the last character of the source it throws "illegal comment" with the
    current line.  In both cases the cursor is left behind the slash, the
    line counter has grown by the newlines passed, and the comment slot is as
    the comments passed have left it. *)
Theorem next_lone_slash (pre : str) (bs : list blank) (post : str) (d : char)
        (st : state) :
  stack st = [] -> reads_string st = false -> offset st = length pre ->
  forallb blank_ok bs = true ->
  (d <> SLASH -> d <> STAR ->
   let source := pre ++ blanks_text bs ++ SLASH :: d :: post in
   next source st
   = (Ret (Some [SLASH]),
      at_pos (S (length (pre ++ blanks_text bs)))
             (line st + newlines (blanks_text bs))
             (pass_blanks source bs st)))
  /\
  (let source := pre ++ blanks_text bs ++ [SLASH] in
   next source st
   = (Throw (Illegal Comment (line st + newlines (blanks_text bs))),
      at_pos (length source) (line st + newlines (blanks_text bs))
             (pass_blanks source bs st))).
Proof.
  intros Hs Hr Ho Hok.
  assert (Hat : forall source rest,
             source = pre ++ blanks_text bs ++ rest ->
             next source st = next source (pass_blanks source bs st) /\
             stack (pass_blanks source bs st) = [] /\
             reads_string (pass_blanks source bs st) = false /\
             offset (pass_blanks source bs st) = length (pre ++ blanks_text bs) /\
             line (pass_blanks source bs st)
             = (line st + newlines (blanks_text bs))%Z).
  { intros source rest Hsrc.
    destruct (pass_blanks_stack source bs st) as [Hs2 Hd2].
    split; [exact (next_over_blanks source bs pre rest st Hsrc Ho Hok Hs Hr)|].
    split; [congruence|].
    split; [unfold reads_string in *; rewrite Hs2, Hd2; exact Hr|].
    split; [rewrite pass_blanks_offset, Ho, length_app; lia|].
    apply pass_blanks_line. exact Hok. }
  split.
  - intros Hd1 Hd2 source.
    destruct (Hat source (SLASH :: d :: post) eq_refl) as (Hn & Hs2 & Hr2 & Ho2 & Hl2).
    rewrite Hn. remember (pass_blanks source bs st) as st2 eqn:Est2. clear Est2.
    unfold source. rewrite app_assoc.
    pose proof (proj1 (lone_slash_at (pre ++ blanks_text bs) [] post d st2
                         Hs2 Hr2 Ho2 eq_refl) Hd1 Hd2) as H.
    cbn [app length newlines Nat.add] in H.
    rewrite H, Hl2, Z.add_0_r. reflexivity.
  - intros source.
    destruct (Hat source [SLASH] eq_refl) as (Hn & Hs2 & Hr2 & Ho2 & Hl2).
    rewrite Hn. remember (pass_blanks source bs st) as st2 eqn:Est2. clear Est2.
    replace (length source) with (S (length (pre ++ blanks_text bs)))
      by (unfold source; rewrite !length_app; cbn [length]; lia).
    unfold source. rewrite app_assoc.
    pose proof (proj2 (lone_slash_at (pre ++ blanks_text bs) [] [] SLASH st2
                         Hs2 Hr2 Ho2 eq_refl)) as H.
    cbn [app length newlines Nat.add] in H.
    rewrite H, Hl2, Z.add_0_r. reflexivity.
Qed.

Lemma next_lone_slash_witness :
  (let source := js "a /* c */" ++ LF :: js "// d" ++ LF :: js " / b" in
   next source (set_offset 1 init)
   = (Ret (Some [SLASH]), at_pos 17 3 (set_offset 1 init)))
  /\
  (let source := js "a /** c */ /" in
   next source (set_offset 1 init)
   = (Throw (Illegal Comment 1),
      at_pos 12 1 (set_comment (Some [STAR]) (Some (js "c")) 1 (set_offset 1 init)))).
Proof.
  cbv zeta. split.
  - exact (proj1 (next_lone_slash (js "a")
                    [Blank_space (js " "); Blank_block (js " c *");
                     Blank_space [LF]; Blank_line (js " d"); Blank_space (js " ")]
                    (js "b") SP (set_offset 1 init)
                    eq_refl eq_refl eq_refl eq_refl)
                 ltac:(discriminate) ltac:(discriminate)).
  - exact (proj2 (next_lone_slash (js "a")
                    [Blank_space (js " "); Blank_block (js "* c *");
                     Blank_space (js " ")]
                    [] SP (set_offset 1 init)
                    eq_refl eq_refl eq_refl eq_refl)).
Defined.

(** C7, as stated, fails: a slash that is the last character of the source
    makes [next] throw instead of returning the token. *)
Lemma lone_slash_at_end_throws :
  next [SLASH] init = (Throw (Illegal Comment 1), set_offset 1 init) /\
  fst (next [SLASH] init) <> Ret (Some [SLASH]).
Proof. split; [reflexivity | discriminate]. Qed.

(** ** Skipping a token *)

(** C8, as amended: [skip] peeks first, and the state [st1] that [peek]
    leaves is the one everything else is said of.  When the token [peek]
    reports is not the expected one, [skip(expected, false)] throws "illegal
    token" with both tokens and the current line, and [skip(expected, true)]
    returns [false] and does nothing more than that [peek]: [peek] reports the
    same token again, and the state is the very one [skip] started in when a
    token was already buffered.  When the token is the expected one, [skip]
    takes it off the stack and returns [true]. *)
Theorem skip_peeks (source expected : str) (st : state)
        (actual : option str) (st1 : state) :
  peek source st = (Ret actual, st1) ->
  (actual <> Some expected ->
   skip source expected false st
   = (Throw (Illegal (Token actual expected) (line st1)), st1) /\
   skip source expected true st = (Ret false, st1) /\
   peek source st1 = (Ret actual, st1) /\
   (stack st <> [] -> st1 = st))
  /\
  (actual = Some expected ->
   forall optional,
     skip source expected optional st
     = (Ret true, set_stack (tl (stack st1)) st1) /\
     hd_error (stack st1) = Some expected).
Proof.
  intros Hp. split.
  - intros Hne.
    assert (Hn : opt_str_eqb actual (Some expected) = false).
    { destruct actual as [t|]; [|reflexivity]. cbn [opt_str_eqb].
      destruct (str_eqb t expected) eqn:E; [|reflexivity].
      apply str_eqb_eq in E. congruence. }
    rewrite !skip_spec, Hp, Hn. cbn [negb].
    repeat split.
    + exact (peek_again source st actual st1 Hp).
    + intros Hst. destruct (stack st) as [|t l] eqn:Hs; [congruence|].
      rewrite (peek_buffered source st t l Hs) in Hp. congruence.
  - intros -> optional. rewrite skip_spec, Hp. cbn [opt_str_eqb].
    rewrite str_eqb_refl. split; [reflexivity|].
    apply peek_some in Hp as [l Hp]. rewrite Hp. reflexivity.
Qed.

Lemma skip_peeks_witness :
  let source := js "a;" in
  let st := set_offset 1 init in
  let st1 := set_stack [js ";"] (set_offset 2 init) in
  skip source (js "}") false st = (Throw (Illegal (Token (Some (js ";")) (js "}")) 1), st1) /\
  skip source (js "}") true st = (Ret false, st1) /\
  peek source st1 = (Ret (Some (js ";")), st1).
Proof.
  cbv zeta.
  pose proof (skip_peeks (js "a;") (js "}") (set_offset 1 init)
                (Some (js ";")) (set_stack [js ";"] (set_offset 2 init)) eq_refl)
    as [H _].
  destruct H as (H1 & H2 & H3 & _); [discriminate|].
  repeat split; assumption.
Defined.

(** C8, as stated, fails: on the source of a newline and a semicolon,
    [skip("}", true)] on the fresh tokenizer returns [false] and leaves
    another state than it found: the cursor has passed the semicolon, which
    is now buffered, and [line()] has gone from 1 to 2. *)
Lemma skip_optional_changes_state :
  let source := LF :: js ";" in
  let st' := snd (skip source (js "}") true init) in
  fst (peek source init) = Ret (Some (js ";")) /\
  fst (skip source (js "}") true init) = Ret false /\
  st' <> init /\
  line init = 1%Z /\ line st' = 2%Z /\
  offset st' = 2 /\ stack st' = [js ";"].
Proof.
  cbv zeta. repeat split; try (vm_compute; reflexivity).
  vm_compute. discriminate.
Qed.

(** ** End of input *)

(** C9: once [next] has returned [null], in whatever state, it returns
    [null] at every further call and the state stays as it is. *)
Theorem next_eof_stable (source : str) (st st' : state) :
  next source st = (Ret None, st') ->
  next source st' = (Ret None, st') /\
  forall n, nexts source n st' = (repeat (Ret None) n, st').
Proof.
  intros H. apply next_null_stable in H. split; [exact H|].
  induction n as [|n IH]; cbn [nexts repeat]; [reflexivity|].
  rewrite H, IH. reflexivity.
Qed.

Lemma next_eof_stable_witness :
  next (js "a") (set_offset 1 init) = (Ret None, set_offset 1 init) /\
  nexts (js "a") 5 (set_offset 1 init)
  = ([Ret None; Ret None; Ret None; Ret None; Ret None], set_offset 1 init).
Proof.
  destruct (next_eof_stable (js "a") (set_offset 1 init) (set_offset 1 init) eq_refl)
    as [H1 H2].
  split; [exact H1 | exact (H2 5)].
Defined.

(** The same read from a fresh tokenizer: if call number [n] of [next]
    returns [null], so does every later call. *)
Lemma fresh_tokenizer_eof (source : str) (n m : nat) :
  n <= m -> nth_next source n = Ret None -> nth_next source m = Ret None.
Proof.
  intros Hle H. unfold nth_next in *.
  destruct (next source (snd (nexts source n init))) as [r st'] eqn:E.
  cbn [fst] in H. subst r.
  assert (Hk : forall k, 1 <= k -> snd (nexts source (n + k) init) = st').
  { induction k as [|k IHk]; [lia|]. intros _.
    rewrite Nat.add_succ_r, nexts_step.
    destruct k as [|k].
    - rewrite Nat.add_0_r, E. reflexivity.
    - rewrite IHk by lia. rewrite (next_null_stable source _ _ E). reflexivity. }
  destruct (Nat.eq_dec n m) as [<- | Hne].
  - rewrite E. reflexivity.
  - replace m with (n + (m - n)) by lia. rewrite Hk by lia.
    rewrite (next_null_stable source _ _ E). reflexivity.
Qed.

(** ** An empty comment *)

(** C10, as amended: with the empty string captured, [cmnt()] returns
    [null] and changes nothing; [cmnt(trailingLine)] peeks first, the empty
    string being falsy: when that [peek] throws so does [cmnt], and when the
    text is still the empty string after it [cmnt] returns [null] and leaves
    the slot as it is, whatever the line condition.  With a token already
    buffered the [peek] reads nothing and the call changes nothing. *)
Theorem cmnt_empty_text (source : str) (st : state) :
  commentText st = Some [] ->
  cmnt source None st = (Ret None, st) /\
  (forall (tl : Z) (a : option str) (st1 : state),
      peek source st = (Ret a, st1) -> commentText st1 = Some [] ->
      cmnt source (Some tl) st = (Ret None, st1)) /\
  (forall (tl : Z) (e : error) (st1 : state),
      peek source st = (Throw e, st1) ->
      cmnt source (Some tl) st = (Throw e, st1)) /\
  (forall tl : Z, stack st <> [] -> cmnt source (Some tl) st = (Ret None, st)).
Proof.
  intros Ht.
  assert (Hnull : forall cond, and_or_null cond (Some []) = None)
    by (intros cond; unfold and_or_null; rewrite andb_false_r; reflexivity).
  assert (Htr : forall tl a st1,
             peek source st = (Ret a, st1) -> commentText st1 = Some [] ->
             cmnt source (Some tl) st = (Ret None, st1)).
  { intros tl a st1 Hp Ht1. rewrite cmnt_with_argument, Ht. cbn [truthy negb].
    rewrite Hp, Ht1. cbv zeta. rewrite Hnull. reflexivity. }
  split; [|split; [|split]].
  - rewrite cmnt_no_argument, Ht. cbv zeta. rewrite Hnull. reflexivity.
  - exact Htr.
  - intros tl e st1 Hp. rewrite cmnt_with_argument, Ht. cbn [truthy negb].
    rewrite Hp. reflexivity.
  - intros tl Hs. destruct (stack st) as [|t l] eqn:E; [congruence|].
    apply (Htr tl (Some t) st); [apply (peek_buffered source st t l E) | exact Ht].
Qed.

Lemma cmnt_empty_text_witness :
  let source := js "///" ++ LF :: js "foo bar" in
  let st := snd (next source init) in
  let st1 := snd (peek source st) in
  commentText st = Some [] /\ commentLine st = 1%Z /\
  commentType st = Some [SLASH] /\
  cmnt source None st = (Ret None, st) /\
  cmnt source (Some 1%Z) st = (Ret None, st1) /\
  commentText st1 = Some [].
Proof.
  cbv zeta.
  pose proof (cmnt_empty_text (js "///" ++ LF :: js "foo bar")
                (snd (next (js "///" ++ LF :: js "foo bar") init)) eq_refl)
    as (H1 & H2 & _ & _).
  split; [reflexivity|]. split; [reflexivity|]. split; [reflexivity|].
  split; [exact H1|]. split; [|reflexivity].
  apply (H2 1%Z (Some (js "bar"))); reflexivity.
Defined.

(** C10, as stated, fails for the form with an argument.  On [///], a
    newline, [foo /// bar], a newline and [baz], after [foo] has been read
    the captured text is the empty string, and [cmnt(2)] returns [bar] and
    clears the slot: its [peek] has captured the comment that follows.  On
    [///], a newline and [foo] followed by an unclosed block comment, the
    line condition of [cmnt(1)] holds for the empty comment and the call
    throws: its [peek] runs into the end of the source. *)
Lemma cmnt_trailing_with_empty_text :
  (let source := js "///" ++ LF :: js "foo /// bar" ++ LF :: js "baz" in
   let st := snd (next source init) in
   fst (next source init) = Ret (Some (js "foo")) /\
   commentText st = Some [] /\
   fst (cmnt source (Some 2%Z) st) = Ret (Some (js "bar")) /\
   fst (cmnt source (Some 2%Z) st) <> Ret None /\
   commentText (snd (cmnt source (Some 2%Z) st)) = None)
  /\
  (let source := js "///" ++ LF :: js "foo /*" in
   let st := snd (next source init) in
   commentText st = Some [] /\ commentLine st = 1%Z /\
   commentType st = Some [SLASH] /\
   fst (cmnt source (Some 1%Z) st) = Throw (Illegal Comment 2) /\
   fst (cmnt source (Some 1%Z) st) <> Ret None).
Proof.
  cbv zeta. repeat split; try (vm_compute; reflexivity); vm_compute; discriminate.
Qed.
